(** * Driver monitoring: fusion engine, eye-closure machine, audio analyser

    A shallow embedding of the signal-processing core of
    [app/hooks/useDriverMonitoring.ts] and of the [useSoundAnalysis] hook.

    Conventions of the embedding.
    - A JavaScript [number] is read as an exact rational extended with the
      three non-finite values ([JsNum.num]); rounding of IEEE doubles and the
      sign of zero are not represented.  Quantities that the code only ever
      builds from finite data (counts, ratios of counts, the audio envelope)
      are kept in [Q]; timestamps returned by [Date.now()] are in [Z].
    - [Math.sqrt] occurs only inside [std], whose result the code only
      compares; it is kept as a symbolic square root ([Stats.root]) whose
      comparisons are decided exactly and are related to the real-valued
      square root in the theorems.
    - Refs and React state of a hook are fields of an explicit state record,
      one effect run is one call of the step function. *)

From Stdlib Require Import String.
From Stdlib Require Import Reals Qreals Lra.
From Stdlib Require Import QArith Qabs Qminmax Qround Qpower ZArith.
From Stdlib Require Import List Sorted Permutation Lia Bool Lqa.
Import ListNotations.

Open Scope Q_scope.

(** ** JavaScript numbers *)

Module JsNum.

Inductive num : Type :=
| Fin (q : Q)
| PInf
| NInf
| NaN.

Definition isFinite (x : num) : bool :=
  match x with Fin _ => true | _ => false end.

Definition Qltb (a b : Q) : bool := negb (Qle_bool b a).

Definition neg (x : num) : num :=
  match x with
  | Fin q => Fin (- q)
  | PInf => NInf
  | NInf => PInf
  | NaN => NaN
  end.

Definition add (x y : num) : num :=
  match x, y with
  | NaN, _ | _, NaN => NaN
  | Fin a, Fin b => Fin (a + b)
  | PInf, NInf | NInf, PInf => NaN
  | PInf, _ | _, PInf => PInf
  | NInf, _ | _, NInf => NInf
  end.

Definition sub (x y : num) : num := add x (neg y).

(** An infinity scaled by a finite factor: the sign decides, zero gives NaN. *)
Definition scale_inf (positive : bool) (a : Q) : num :=
  match a ?= 0 with
  | Eq => NaN
  | Gt => if positive then PInf else NInf
  | Lt => if positive then NInf else PInf
  end.

Definition mul (x y : num) : num :=
  match x, y with
  | NaN, _ | _, NaN => NaN
  | Fin a, Fin b => Fin (a * b)
  | Fin a, PInf | PInf, Fin a => scale_inf true a
  | Fin a, NInf | NInf, Fin a => scale_inf false a
  | PInf, PInf | NInf, NInf => PInf
  | PInf, NInf | NInf, PInf => NInf
  end.

(** Division; a zero divisor is taken as [+0]. *)
Definition div (x y : num) : num :=
  match x, y with
  | NaN, _ | _, NaN => NaN
  | Fin a, Fin b => if Qeq_bool b 0 then scale_inf true a else Fin (a / b)
  | Fin _, PInf | Fin _, NInf => Fin 0
  | PInf, Fin b => if Qltb b 0 then NInf else PInf
  | NInf, Fin b => if Qltb b 0 then PInf else NInf
  | _, _ => NaN
  end.

(** [a < b]; every comparison with NaN is false. *)
Definition lt (x y : num) : bool :=
  match x, y with
  | NaN, _ | _, NaN => false
  | Fin a, Fin b => Qltb a b
  | NInf, NInf | PInf, _ | _, NInf => false
  | NInf, _ | _, PInf => true
  end.

Definition le (x y : num) : bool :=
  match x, y with
  | NaN, _ | _, NaN => false
  | Fin a, Fin b => Qle_bool a b
  | NInf, _ | _, PInf => true
  | PInf, _ | _, NInf => false
  end.

Definition gt (x y : num) : bool := lt y x.

(** [Math.min], [Math.max], [Math.abs]. *)
Definition min (x y : num) : num :=
  match x, y with
  | NaN, _ | _, NaN => NaN
  | _, _ => if le x y then x else y
  end.

Definition max (x y : num) : num :=
  match x, y with
  | NaN, _ | _, NaN => NaN
  | _, _ => if le x y then y else x
  end.

Definition abs (x : num) : num :=
  match x with
  | Fin q => Fin (Qabs q)
  | PInf | NInf => PInf
  | NaN => NaN
  end.

Definition ofNat (n : nat) : num := Fin (inject_Z (Z.of_nat n)).

(** A finite number inside the closed unit interval. *)
Definition unit_range (x : num) : Prop :=
  match x with
  | Fin q => 0 <= q <= 1
  | _ => False
  end.

End JsNum.

(** ** Array statistics, peak detection and the periodicity test *)

Module Stats.

Import JsNum.

(** [arr.reduce((s, x) => s + x, 0)] *)
Definition sum (arr : list Q) : Q := fold_left (fun s x => s + x) arr 0.

Definition len (arr : list Q) : Q := inject_Z (Z.of_nat (length arr)).

Fixpoint insert (x : Q) (l : list Q) : list Q :=
  match l with
  | [] => [x]
  | y :: t => if Qle_bool x y then x :: l else y :: insert x t
  end.

(** [[...arr].sort((a, b) => a - b)] *)
Definition sort (arr : list Q) : list Q := fold_right insert [] arr.

(** [median]; only called on a non-empty array. *)
Definition median (arr : list Q) : Q :=
  let s := sort arr in
  let m := (length s / 2)%nat in
  if Nat.eqb (length s mod 2) 1
  then nth m s 0
  else (nth (m - 1) s 0 + nth m s 0) / 2.

Definition mean (arr : list Q) : Q := sum arr / len arr.

(** The mean of the squared deviations, the argument of [Math.sqrt] in [std]. *)
Definition variance (arr : list Q) : Q :=
  let mean := sum arr / len arr in
  fold_left (fun s x => s + (x - mean) * (x - mean)) arr 0 / len arr.

(** A symbolic square root: [Sqrt r] stands for the real number [sqrt r]. *)
Record root : Type := Sqrt { radicand : Q }.

Definition root_val (s : root) : R := sqrt (Q2R (radicand s)).

(** [std] *)
Definition std (arr : list Q) : root :=
  match arr with
  | [] => Sqrt 0
  | _ => Sqrt (variance arr)
  end.

(** [s > 0] *)
Definition root_pos (s : root) : bool := Qltb 0 (radicand s).

(** [s <= b] *)
Definition root_le (s : root) (b : Q) : bool :=
  Qle_bool 0 b && Qle_bool (radicand s) (b * b).

(** [v >= m + p * s] *)
Definition ge_plus_scaled (v m p : Q) (s : root) : bool :=
  let d := v - m in
  if Qle_bool 0 p
  then Qle_bool 0 d && Qle_bool (p * p * radicand s) (d * d)
  else Qle_bool 0 d || Qle_bool (d * d) (p * p * radicand s).

Record peak : Type := Peak { idx : nat; t : Z; v : Q }.

(** One iteration of the loop of [detectPeaks] at index [i]; [clock i] is what
    [Date.now()] returns there when [times] has no entry at [i]. *)
Definition detectPeaks_iter (values : list Q) (times : list Z) (clock : nat -> Z)
    (minAmp : Q) (minSeparationMs : Z) (prominenceStd : Q)
    (med : Q) (s : root) (peaks : list peak) (i : nat) : list peak :=
  let v := nth i values 0 in
  if Qltb (nth (i - 1) values 0) v && Qle_bool (nth (i + 1) values 0) v then
    let t := match nth_error times i with Some x => x | None => clock i end in
    let tooClose :=
      match rev peaks with
      | [] => false
      | p :: _ => (t - p.(Stats.t) <? minSeparationMs)%Z
      end in
    if tooClose then peaks
    else
      let prominenceOk :=
        if root_pos s then ge_plus_scaled v med prominenceStd s else true in
      if prominenceOk && Qle_bool minAmp v
      then peaks ++ [Peak i t v]
      else peaks
  else peaks.

(** [detectPeaks]: the loop runs over [i = 1 .. values.length - 2]. *)
Definition detectPeaks (values : list Q) (times : list Z) (clock : nat -> Z)
    (minAmp : Q) (minSeparationMs : Z) (prominenceStd : Q) : list peak :=
  match values with
  | [] => []
  | _ =>
    let med := median values in
    let s := std values in
    fold_left
      (detectPeaks_iter values times clock minAmp minSeparationMs prominenceStd med s)
      (seq 1 (length values - 2)) []
  end.

(** A peak that names an interior sample of [values] and carries its value. *)
Definition interior (values : list Q) (p : peak) : Prop :=
  (1 <= idx p)%nat /\ (idx p + 1 < length values)%nat
  /\ v p = nth (idx p) values 0.

Record periodicity : Type := Periodicity { ok : bool; intervals : list Q }.

(** [peaks[i].t - peaks[i - 1].t] for [i = 1 .. peaks.length - 1] *)
Fixpoint peak_intervals (peaks : list peak) : list Q :=
  match peaks with
  | p :: (q :: _) as rest => inject_Z (q.(t) - p.(t)) :: peak_intervals rest
  | _ => []
  end.

(** [evaluatePeriodicity] *)
Definition evaluatePeriodicity (peaks : list peak) (minPeaks : nat)
    (maxIntervalStdMs : Q) : periodicity :=
  if (length peaks <? minPeaks)%nat then Periodicity false []
  else
    let intervals := peak_intervals peaks in
    let meanI := sum intervals / len intervals in
    let stdI := std intervals in
    if root_le stdI maxIntervalStdMs && Qle_bool 200 meanI && Qle_bool meanI 2000
    then Periodicity true intervals
    else Periodicity false intervals.

(** The trailing three-sample moving average applied to the envelope:
    [arr.slice(Math.max(0, i - 2), i + 1)] averaged, for every index [i]. *)
Definition smooth_envelope (envelope : list Q) : list Q :=
  map (fun i =>
         let start := (i - 2)%nat in
         let slice := firstn (i + 1 - start) (skipn start envelope) in
         sum slice / len slice)
      (seq 0 (length envelope)).

End Stats.

(** ** The audio analyser ([useSoundAnalysis]) *)

Module Sound.

Import JsNum.

Record config : Type := Config {
  sampleIntervalMs : Q;
  silenceDbThreshold : Q;
  silenceSeconds : Q;
  varianceWindowSize : nat
}.

(** The defaults of the hook's options. *)
Definition default_config : config := Config 200 (-55) 5 8.

Definition MAX_ENV : nat := 512.
Definition EPS : Q := 0.005.
Definition specVarThreshold : Q := 1e-8.

(** The refs and the React state that [sampleAudio] reads and writes. *)
Record state : Type := State {
  lastSampleTime : Q;
  silenceStart : option Q;
  varianceBuf : list Q;
  envelopeBuffer : list Q;
  envelopeTime : list Z;
  lastVolume : Q;
  lastBand : Q;
  lastSilent : bool;
  volume : Q;
  bandEnergyLow : Q;
  isSilent : bool
}.

(** The refs as [start] leaves them, with the initial React state. *)
Definition init : state :=
  State 0 None [] [] [] 0 0 false 0 0 false.

(** What one animation frame finds: no analyser yet, an analyser whose
    time-domain read throws, or a reading.  [now] is [performance.now()],
    [dateNow] is [Date.now()]; [db] is the result of [computeRmsDb], [specVar]
    of [computeSpectralVariance], [bandRatio] of [computeLowBandRatio]. *)
Inductive frame : Type :=
| NoAnalyser
| ReadThrows (now : Q)
| Reading (now : Q) (dateNow : Z) (db specVar bandRatio : Q).

(** [currentlySilent] *)
Definition currentlySilent (cfg : config) (db specVar : Q) : bool :=
  Qltb db (silenceDbThreshold cfg) && Qltb specVar specVarThreshold.

(** [arr.push(x); if (arr.length > cap) arr.shift()] *)
Definition push_capped {A : Type} (cap : nat) (arr : list A) (x : A) : list A :=
  let arr' := arr ++ [x] in
  if (cap <? length arr')%nat then tl arr' else arr'.

Definition clamp01 (x : Q) : Q := Qmax 0 (Qmin 1 x).

(** [Math.round] *)
Definition round (x : Q) : Q := inject_Z (Qfloor (x + (1 # 2))).

(** [sampleAudio] *)
Definition sampleAudio (cfg : config) (st : state) (fr : frame) : state :=
  match fr with
  | NoAnalyser => st
  | ReadThrows now =>
    if Qltb (now - lastSampleTime st) (sampleIntervalMs cfg) then st
    else State now (silenceStart st) (varianceBuf st) (envelopeBuffer st)
           (envelopeTime st) (lastVolume st) (lastBand st) (lastSilent st)
           (volume st) (bandEnergyLow st) (isSilent st)
  | Reading now dateNow db specVar bandRatio =>
    if Qltb (now - lastSampleTime st) (sampleIntervalMs cfg) then st
    else
      let silent := currentlySilent cfg db specVar in
      let normalized := clamp01 ((db + 120) / 120) in
      let envVal := round (bandRatio * 100) in
      let envelopeBuffer' := push_capped MAX_ENV (envelopeBuffer st) envVal in
      let envelopeTime' := push_capped MAX_ENV (envelopeTime st) dateNow in
      let vbuf := push_capped (varianceWindowSize cfg) (varianceBuf st) specVar in
      let '(silenceStart', lastSilent', isSilent') :=
        if silent then
          let start :=
            match silenceStart st with None => now | Some s => s end in
          let elapsed := now - start in
          if Qle_bool (silenceSeconds cfg * 1000) elapsed && negb (lastSilent st)
          then (Some start, true, true)
          else (Some start, lastSilent st, isSilent st)
        else
          if lastSilent st then (None, false, false)
          else (None, lastSilent st, isSilent st) in
      let volChanged := Qltb EPS (Qabs (normalized - lastVolume st)) in
      let bandChanged := Qltb EPS (Qabs (bandRatio - lastBand st)) in
      State now silenceStart' vbuf envelopeBuffer' envelopeTime'
        (if volChanged then normalized else lastVolume st)
        (if bandChanged then bandRatio else lastBand st)
        lastSilent'
        (if volChanged then normalized else volume st)
        (if bandChanged then bandRatio else bandEnergyLow st)
        isSilent'
  end.

(** A run of animation frames. *)
Definition run (cfg : config) (st : state) (frames : list frame) : state :=
  fold_left (sampleAudio cfg) frames st.

(** The sample a frame contributes, if it passes the interval gate and
    produces a reading: its time and its silence classification. *)
Definition sample_of (cfg : config) (st : state) (fr : frame) : list (Q * bool) :=
  match fr with
  | Reading now _ db specVar _ =>
    if Qltb (now - lastSampleTime st) (sampleIntervalMs cfg) then []
    else [(now, currentlySilent cfg db specVar)]
  | _ => []
  end.

(** The samples taken along a run, in order. *)
Fixpoint sampled (cfg : config) (st : state) (frames : list frame)
  : list (Q * bool) :=
  match frames with
  | [] => []
  | fr :: rest => sample_of cfg st fr ++ sampled cfg (sampleAudio cfg st fr) rest
  end.

(** What the silence refs record about the samples [smp] taken so far: the
    published flag mirrors its ref; no sample is later than the last sample
    time; a running silence timer started at the first sample of a trailing
    block of silent samples; and once silence is reported that block spans at
    least the debounce time. *)
Definition silence_inv (cfg : config) (st : state) (smp : list (Q * bool))
  : Prop :=
  isSilent st = lastSilent st
  /\ Forall (fun x => fst x <= lastSampleTime st) smp
  /\ match silenceStart st with
     | None => lastSilent st = false
     | Some s =>
       exists pre post,
         smp = pre ++ post
         /\ hd_error post = Some (s, true)
         /\ Forall (fun x => snd x = true) post
         /\ (lastSilent st = true ->
             silenceSeconds cfg * 1000 <= fst (last post (s, true)) - s)
     end.

End Sound.

(** ** Delivery of a snapshot to the sink ([sendToServer]) *)

Module Persist.

(** How one [fetch] settles: resolved with [res.ok] or not, or rejected with
    an [AbortError] or with another error. *)
Inductive outcome : Type :=
| Resolved (ok : bool)
| Rejected (abortError : bool).

(** What the function does to the outside, in order. *)
Inductive event : Type :=
| AbortPrevious
| Fetch (attempt : nat)
| Sleep (ms : Z).

(** The body of the [for] loop, from attempt [i] with [remaining] iterations
    left; [fetch i] tells how the request of attempt [i] settles. *)
Fixpoint attempt_loop (fetch : nat -> outcome) (remaining i : nat) (wait : Z)
  : list event * bool :=
  match remaining with
  | O => ([], false)
  | S r =>
    match fetch i with
    | Resolved true => ([Fetch i], true)
    | Rejected true => ([Fetch i], false)
    | Resolved false | Rejected false =>
      let (tr, res) := attempt_loop fetch r (S i) (wait * 2)%Z in
      (Fetch i :: Sleep wait :: tr, res)
    end
  end.

(** [!driverId] for a [string | undefined] *)
Definition falsy (driverId : option String.string) : bool :=
  match driverId with
  | None => true
  | Some s => Nat.eqb (String.length s) 0
  end.

(** [sendToServer]; [onLine] is [navigator.onLine]. *)
Definition sendToServer (driverId : option String.string) (onLine : bool)
    (fetch : nat -> outcome) (attempts : nat) : list event * bool :=
  if falsy driverId then ([], false)
  else if negb onLine then ([], false)
  else
    let (tr, res) := attempt_loop fetch attempts 0 300%Z in
    (AbortPrevious :: tr, res).

Definition default_attempts : nat := 3.

(** A settled request after which the loop goes on: a response that is not
    [ok], or a rejection that is not an abort. *)
Definition retryable (o : outcome) : Prop :=
  o = Resolved false \/ o = Rejected false.

(** The wait after the failed attempt [k], counted from 0. *)
Definition backoff (k : nat) : Z := (300 * 2 ^ Z.of_nat k)%Z.

(** The trace of [k] failed attempts, each followed by its wait. *)
Definition failed_rounds (k : nat) : list event :=
  flat_map (fun j => [Fetch j; Sleep (backoff j)]) (seq 0 k).

Fixpoint fetches (tr : list event) : list nat :=
  match tr with
  | [] => []
  | Fetch i :: rest => i :: fetches rest
  | _ :: rest => fetches rest
  end.

Fixpoint sleeps (tr : list event) : list Z :=
  match tr with
  | [] => []
  | Sleep ms :: rest => ms :: sleeps rest
  | _ :: rest => sleeps rest
  end.

End Persist.

(** ** The monitoring hook ([useDriverMonitoring]) *)

Module Monitor.

Import JsNum.

Inductive Status : Type := DROWSY | AWAKE.

(** CONFIG *)
Definition PERCLOS_WINDOW_MS : Z := 30000.
Definition PERCLOS_ALERT : Q := 0.12.
Definition CONTINUOUS_CLOSE_MS_ALERT : Z := 500.
Definition LONG_BLINK_MS : Z := 250.
Definition LONG_BLINK_MAX_MS : Z := 500.
Definition YAWN_MAR_NORMALIZE : Q := 0.55.
Definition HEAD_NOD_ANGLE_DEG : Q := 7.
Definition HEAD_NOD_VEL_DEG_PER_S : Q := 5.
Definition SOUND_SUPPORT_WEIGHT : Q := 0.25.
Definition SMOOTH_ALPHA : Q := 0.6.
Definition calibrationDurationMs : Z := 10000.
Definition UPDATE_MS : Z := 180.

Definition W_EYES : Q := 0.8.
Definition W_PERCLOS : Q := 0.5.
Definition W_MAR : Q := 0.35.
Definition W_HEAD : Q := 0.4.
Definition W_SOUND : Q := SOUND_SUPPORT_WEIGHT.

(** *** Calibration *)

(** The calibration refs, the two threshold refs and the progress state. *)
Record Calibration : Type := {
  calibrating : bool;
  calibrationStartTs : option Z;
  calibrationSamples : list num;
  baselineEar : option num;
  EAR_CLOSED_REF : num;
  EAR_OPEN_REF : num;
  calibrationProgress : Q
}.

Definition init_calibration : Calibration :=
  {| calibrating := false; calibrationStartTs := None;
     calibrationSamples := []; baselineEar := None;
     EAR_CLOSED_REF := Fin 0.26; EAR_OPEN_REF := Fin 0.3;
     calibrationProgress := 0 |}.

(** [samples.reduce((s, x) => s + x, 0) / samples.length] *)
Definition average (samples : list num) : num :=
  div (fold_left add samples (Fin 0)) (ofNat (length samples)).

(** [startCalibration]; [now] is [Date.now()]. *)
Definition startCalibration (now : Z) (c : Calibration) : Calibration :=
  {| calibrating := true; calibrationStartTs := Some now;
     calibrationSamples := []; baselineEar := baselineEar c;
     EAR_CLOSED_REF := EAR_CLOSED_REF c; EAR_OPEN_REF := EAR_OPEN_REF c;
     calibrationProgress := 0 |}.

(** [stopCalibration] *)
Definition stopCalibration (c : Calibration) : Calibration :=
  match calibrationSamples c with
  | [] =>
    {| calibrating := false; calibrationStartTs := None;
       calibrationSamples := calibrationSamples c; baselineEar := baselineEar c;
       EAR_CLOSED_REF := EAR_CLOSED_REF c; EAR_OPEN_REF := EAR_OPEN_REF c;
       calibrationProgress := 1 |}
  | _ =>
    let avg := average (calibrationSamples c) in
    let earClosed := max (Fin 0.12) (mul avg (Fin 0.6)) in
    let earOpen := max (add earClosed (Fin 0.04)) (mul avg (Fin 0.75)) in
    {| calibrating := false; calibrationStartTs := None;
       calibrationSamples := calibrationSamples c; baselineEar := Some avg;
       EAR_CLOSED_REF := earClosed; EAR_OPEN_REF := earOpen;
       calibrationProgress := 1 |}
  end.

(** The calibration block of an effect run. *)
Definition calibration_tick (c : Calibration) (nowTs : Z) (EAR : num)
  : Calibration :=
  match calibrating c, calibrationStartTs c with
  | true, Some start =>
    let elapsed := (nowTs - start)%Z in
    let progress :=
      Qmin 1 (inject_Z elapsed / inject_Z calibrationDurationMs) in
    let c1 :=
      {| calibrating := true; calibrationStartTs := Some start;
         calibrationSamples := calibrationSamples c ++ [EAR];
         baselineEar := baselineEar c;
         EAR_CLOSED_REF := EAR_CLOSED_REF c; EAR_OPEN_REF := EAR_OPEN_REF c;
         calibrationProgress :=
           if Qltb 0.01 (Qabs (calibrationProgress c - progress))
           then progress else calibrationProgress c |} in
    if (calibrationDurationMs <=? elapsed)%Z then stopCalibration c1 else c1
  | _, _ => c
  end.

(** *** Eye closure, blinks and PERCLOS *)

Record EyeState : Type := { closed : bool; lastChangeTs : Z }.

(** An entry [{ ts, closed }] of the PERCLOS buffer; [p_closed] is its 0/1 flag. *)
Record PercEntry : Type := { ts : Z; p_closed : bool }.

(** The block run when the eye state may have changed.  It returns the new
    [lastEyeStateRef], [longBlinkCountRef] and the [blinkCount] and
    [blinkDetected] states after the updates queued there. *)
Definition eye_tick (es : EyeState) (longBlinkCount blinkCount : Z)
    (blinkDetected : bool) (nowTs : Z) (eyesCurrentlyClosed : bool)
  : EyeState * Z * Z * bool :=
  if Bool.eqb eyesCurrentlyClosed (closed es)
  then (es, longBlinkCount, blinkCount, blinkDetected)
  else
    let durationMs := (nowTs - lastChangeTs es)%Z in
    let '(long', count', detected') :=
      if closed es then
        if (LONG_BLINK_MS <=? durationMs)%Z && (durationMs <? LONG_BLINK_MAX_MS)%Z
        then ((longBlinkCount + 1)%Z, (blinkCount + 1)%Z, true)
        else (longBlinkCount, blinkCount, blinkDetected)
      else (longBlinkCount, blinkCount, false) in
    ({| closed := eyesCurrentlyClosed; lastChangeTs := nowTs |},
     long', count', detected').

(** [while (buf.length && buf[0].ts < cutoff) buf.shift()] *)
Fixpoint prune (cutoff : Z) (buf : list PercEntry) : list PercEntry :=
  match buf with
  | [] => []
  | e :: rest => if (ts e <? cutoff)%Z then prune cutoff rest else buf
  end.

(** [buf.reduce((s, x) => s + x.closed, 0)] *)
Definition closedSum (buf : list PercEntry) : Q :=
  fold_left (fun s x => s + (if p_closed x then 1 else 0)) buf 0.

(** [closedSum / Math.max(1, buf.length)] *)
Definition perclos_of (buf : list PercEntry) : Q :=
  closedSum buf / inject_Z (Z.max 1 (Z.of_nat (length buf))).

(** The number of closed samples of a buffer, as a count. *)
Definition closedCount (buf : list PercEntry) : nat :=
  length (filter p_closed buf).

(** *** Head pose *)

(** [lastPitchRef], [lastPitchTsRef] and the [currentVel] property kept on
    [lastPitchRef]. *)
Record HeadRefs : Type := {
  lastPitch : option num;
  lastPitchTs : option Z;
  currentVel : option num
}.

Definition init_head : HeadRefs :=
  {| lastPitch := None; lastPitchTs := None; currentVel := None |}.

(** The pitch-velocity block; returns the refs and [pitchVel]. *)
Definition head_tick (h : HeadRefs) (nowTs : Z) (pitchDeg : num)
  : HeadRefs * num :=
  let '(pitchVel, vel') :=
    match lastPitch h, lastPitchTs h with
    | Some lp, Some lts =>
      let dt := inject_Z (nowTs - lts) / 1000 in
      if Qltb 0 dt then
        let rawVel := div (sub pitchDeg lp) (Fin dt) in
        let prevVel := match currentVel h with Some x => x | None => Fin 0 end in
        let alpha := 0.5 in
        let smoothed :=
          add (mul prevVel (Fin (1 - alpha))) (mul rawVel (Fin alpha)) in
        (smoothed, Some smoothed)
      else (Fin 0, currentVel h)
    | _, _ => (Fin 0, currentVel h)
    end in
  ({| lastPitch := Some pitchDeg; lastPitchTs := Some nowTs; currentVel := vel' |},
   pitchVel).

(** [headNodDetected] *)
Definition headNodDetected (pitchDeg pitchVel : num) : bool :=
  let absPitchDeg := abs pitchDeg in
  let absPitchVel := abs pitchVel in
  (gt pitchDeg (Fin HEAD_NOD_ANGLE_DEG)
   && gt absPitchVel (Fin HEAD_NOD_VEL_DEG_PER_S))
  || (gt absPitchVel (Fin (2 * HEAD_NOD_VEL_DEG_PER_S))
      && gt absPitchDeg (Fin (HEAD_NOD_ANGLE_DEG / 2))).

(** *** Sound support *)

(** The [try] block computing [soundScore] and [detectedSoundWarning], before
    the final clamp. *)
Definition sound_tick (envelope : list Q) (times : list Z) (clock : nat -> Z)
    (bandEnergyLow : Q) : Q * bool :=
  if (8 <=? length envelope)%nat then
    let envSm := Stats.smooth_envelope envelope in
    let peaks := Stats.detectPeaks envSm times clock 14 150 1 in
    let periodic := Stats.evaluatePeriodicity peaks 3 500 in
    if Stats.ok periodic then
      let factor := Qmin 1 (inject_Z (Z.of_nat (length peaks)) / 6) in
      (0 + 1 * factor, true)
    else if Qltb 0.25 bandEnergyLow then (0 + 0.5, true)
    else (0, false)
  else if Qltb 0.25 bandEnergyLow then (0 + 0.4, true)
  else (0, false).

(** *** Fusion *)

(** The weighted sum first assigned to [newScoreUnsmoothed]. *)
Definition weighted_sum (eyesInstant perclosComponent marComponent headComponent
                         soundComponent : num) : num :=
  add (add (add (add (mul (Fin W_EYES) eyesInstant)
                     (mul (Fin W_PERCLOS) perclosComponent))
                (mul (Fin W_MAR) marComponent))
           (mul (Fin W_HEAD) headComponent))
      (mul (Fin W_SOUND) soundComponent).

(** [newScoreUnsmoothed] after the finiteness guard and the clamp. *)
Definition fuse (eyesInstant perclosComponent marComponent headComponent
                 soundComponent : num) : num :=
  let newScoreUnsmoothed :=
    weighted_sum eyesInstant perclosComponent marComponent headComponent
                 soundComponent in
  let newScoreUnsmoothed :=
    if isFinite newScoreUnsmoothed then newScoreUnsmoothed else Fin 0 in
  max (Fin 0) (min (Fin 1) newScoreUnsmoothed).

(** [ema] *)
Definition smooth (prevEma newScoreUnsmoothed : num) : num :=
  add (mul prevEma (Fin (1 - SMOOTH_ALPHA)))
      (mul newScoreUnsmoothed (Fin SMOOTH_ALPHA)).

(** [isDrowsy ? "DROWSY" : "AWAKE"] with [isDrowsy = ema > 0.5] *)
Definition status_of (ema : num) : Status :=
  if gt ema (Fin 0.5) then DROWSY else AWAKE.

(** The smoothed score after [n] effect runs that all see the raw score [raw]. *)
Fixpoint ema_after (n : nat) (ema0 raw : num) : num :=
  match n with
  | O => ema0
  | S k => smooth (ema_after k ema0 raw) raw
  end.

(** *** The effect run *)

(** The fields of [prevValuesRef.current] the effect uses; [None] is a field
    not yet set. *)
Record PrevValues : Type := {
  pv_drowsyScore : option num;
  pv_perclos : option Q;
  pv_continuousClose : option bool;
  pv_blinkCount : option Z;
  pv_soundWarning : option bool
}.

(** React state (first group) and refs (second group) of the hook.  The
    emotion and history states and the save scheduling are left out: nothing
    below reads them. *)
Record state : Type := {
  status : Status;
  drowsyScore : num;
  blinkCount : Z;
  blinkDetected : bool;
  soundWarning : bool;
  continuousClose : bool;
  perclosState : Q;
  ear : num;
  mar : num;

  prevEyesClosed : bool;
  lastEyeState : EyeState;
  percBuffer : list PercEntry;
  longBlinkCount : Z;
  head : HeadRefs;
  emaRef : num;
  mouthRef : option num;
  calib : Calibration;
  lastUpdate : Z;
  prevValues : PrevValues
}.

(** The hook right after mounting at time [mountTs]. *)
Definition init (mountTs : Z) : state :=
  {| status := AWAKE; drowsyScore := Fin 0; blinkCount := 0%Z;
     blinkDetected := false; soundWarning := false; continuousClose := false;
     perclosState := 0; ear := Fin 0; mar := Fin 0;
     prevEyesClosed := false;
     lastEyeState := {| closed := false; lastChangeTs := mountTs |};
     percBuffer := []; longBlinkCount := 0%Z; head := init_head;
     emaRef := Fin 0; mouthRef := None; calib := init_calibration;
     lastUpdate := 0%Z;
     prevValues :=
       {| pv_drowsyScore := None; pv_perclos := None;
          pv_continuousClose := None; pv_blinkCount := None;
          pv_soundWarning := None |} |}.

(** What an effect run reads from outside: [Date.now()], the three geometric
    features of the landmark frame ([EAR], the raw [MAR], [pitchDeg]), the
    result of [recentEnvelope(256)], the [bandEnergyLow] state of the audio
    hook, and the clock for the fallback in [detectPeaks]. *)
Record frame : Type := {
  nowTs : Z;
  EAR : num;
  MAR : num;
  pitchDeg : num;
  envelope : list Q;
  times : list Z;
  bandEnergyLow : Q;
  clock : nat -> Z
}.

(** A frame of a relaxed face with no sound: only the time and the EAR vary. *)
Definition plain_frame (t : Z) (e : Q) : frame :=
  {| nowTs := t; EAR := Fin e; MAR := Fin 0.1; pitchDeg := Fin 0;
     envelope := []; times := []; bandEnergyLow := 0; clock := fun _ => 0%Z |}.

Definition orElse {A : Type} (o : option A) (d : A) : A :=
  match o with Some x => x | None => d end.

(** One run of the effect; [None] is [landmarksData === null]. *)
Definition tick (st : state) (input : option frame) : state :=
  match input with
  | None => st
  | Some f =>
    let nowTs := nowTs f in
    if (nowTs - lastUpdate st <? UPDATE_MS)%Z then st
    else
      let EAR := EAR f in
      let ear' :=
        if gt (abs (sub (ear st) EAR)) (Fin 0.0005) then EAR else ear st in
      let calib' := calibration_tick (calib st) nowTs EAR in
      let EAR_CLOSED := EAR_CLOSED_REF calib' in
      let EAR_OPEN := EAR_OPEN_REF calib' in
      let eyesCurrentlyClosed :=
        if prevEyesClosed st then lt EAR EAR_OPEN else lt EAR EAR_CLOSED in
      let '(lastEyeState', longBlinkCount', blinkCount1, blinkDetected') :=
        eye_tick (lastEyeState st) (longBlinkCount st) (blinkCount st)
                 (blinkDetected st) nowTs eyesCurrentlyClosed in
      let percBuffer' :=
        prune (nowTs - PERCLOS_WINDOW_MS)%Z
              (percBuffer st ++ [{| ts := nowTs; p_closed := eyesCurrentlyClosed |}]) in
      let perclos := perclos_of percBuffer' in
      let lastChange := lastChangeTs lastEyeState' in
      let continuousClosedMs :=
        if eyesCurrentlyClosed then (nowTs - lastChange)%Z else 0%Z in
      let continuousCloseTriggered :=
        (CONTINUOUS_CLOSE_MS_ALERT <=? continuousClosedMs)%Z in
      let MAR_score := min (Fin 1) (div (MAR f) (Fin YAWN_MAR_NORMALIZE)) in
      let mar' :=
        if gt (abs (sub (mar st) MAR_score)) (Fin 0.0005)
        then MAR_score else mar st in
      let pitchDeg := pitchDeg f in
      let '(head', pitchVel) := head_tick (head st) nowTs pitchDeg in
      let headNod := headNodDetected pitchDeg pitchVel in
      let '(soundScore0, detectedSoundWarning) :=
        sound_tick (envelope f) (times f) (clock f) (bandEnergyLow f) in
      let soundScore := Qmax 0 (Qmin 1 soundScore0) in
      let eyesInstant :=
        if continuousCloseTriggered then 1
        else if eyesCurrentlyClosed then 0.9 else 0 in
      let perclosComponent := Qmin 1 (perclos / PERCLOS_ALERT) in
      let marComponent := MAR_score in
      let headComponent :=
        if headNod then Fin 1
        else min (Fin 1) (max (Fin 0) (div pitchDeg (Fin 30))) in
      let soundComponent := soundScore in
      let newScoreUnsmoothed :=
        fuse (Fin eyesInstant) (Fin perclosComponent) marComponent
             headComponent (Fin soundComponent) in
      let prevEma := emaRef st in
      let ema := smooth prevEma newScoreUnsmoothed in
      let pv := prevValues st in
      let scoreGate :=
        gt (abs (sub (orElse (pv_drowsyScore pv) (Fin 0)) ema)) (Fin 0.005) in
      let perclosGate :=
        Qltb 0.002 (Qabs (orElse (pv_perclos pv) 0 - perclos)) in
      let closeGate :=
        negb (Bool.eqb (orElse (pv_continuousClose pv) false)
                       continuousCloseTriggered) in
      let blinkGate :=
        negb (Z.eqb (orElse (pv_blinkCount pv) 0%Z) longBlinkCount') in
      let soundGate :=
        negb (Bool.eqb (orElse (pv_soundWarning pv) false)
                       detectedSoundWarning) in
      {| status := status_of ema;
         drowsyScore := if scoreGate then ema else drowsyScore st;
         blinkCount := if blinkGate then longBlinkCount' else blinkCount1;
         blinkDetected := blinkDetected';
         soundWarning :=
           if soundGate then detectedSoundWarning else soundWarning st;
         continuousClose :=
           if closeGate then continuousCloseTriggered else continuousClose st;
         perclosState := if perclosGate then perclos else perclosState st;
         ear := ear';
         mar := mar';
         prevEyesClosed := eyesCurrentlyClosed;
         lastEyeState := lastEyeState';
         percBuffer := percBuffer';
         longBlinkCount := longBlinkCount';
         head := head';
         emaRef := ema;
         mouthRef := Some MAR_score;
         calib := calib';
         lastUpdate := nowTs;
         prevValues :=
           {| pv_drowsyScore :=
                if scoreGate then Some ema else pv_drowsyScore pv;
              pv_perclos := if perclosGate then Some perclos else pv_perclos pv;
              pv_continuousClose :=
                if closeGate then Some continuousCloseTriggered
                else pv_continuousClose pv;
              pv_blinkCount :=
                if blinkGate then Some longBlinkCount' else pv_blinkCount pv;
              pv_soundWarning :=
                if soundGate then Some detectedSoundWarning
                else pv_soundWarning pv |} |}
  end.

(** Whether [tick] gets past its two early returns. *)
Definition processed (st : state) (input : option frame) : bool :=
  match input with
  | None => false
  | Some f => negb (nowTs f - lastUpdate st <? UPDATE_MS)%Z
  end.

Definition with_calib (st : state) (c : Calibration) : state :=
  {| status := status st; drowsyScore := drowsyScore st;
     blinkCount := blinkCount st; blinkDetected := blinkDetected st;
     soundWarning := soundWarning st; continuousClose := continuousClose st;
     perclosState := perclosState st; ear := ear st; mar := mar st;
     prevEyesClosed := prevEyesClosed st; lastEyeState := lastEyeState st;
     percBuffer := percBuffer st; longBlinkCount := longBlinkCount st;
     head := head st; emaRef := emaRef st; mouthRef := mouthRef st;
     calib := c; lastUpdate := lastUpdate st; prevValues := prevValues st |}.

Definition with_blinkDetected (st : state) (b : bool) : state :=
  {| status := status st; drowsyScore := drowsyScore st;
     blinkCount := blinkCount st; blinkDetected := b;
     soundWarning := soundWarning st; continuousClose := continuousClose st;
     perclosState := perclosState st; ear := ear st; mar := mar st;
     prevEyesClosed := prevEyesClosed st; lastEyeState := lastEyeState st;
     percBuffer := percBuffer st; longBlinkCount := longBlinkCount st;
     head := head st; emaRef := emaRef st; mouthRef := mouthRef st;
     calib := calib st; lastUpdate := lastUpdate st;
     prevValues := prevValues st |}.

(** What can happen to a mounted hook: an effect run, a call of one of the two
    calibration controls, or the 300 ms timer set by a blink firing. *)
Inductive event : Type :=
| Effect (input : option frame)
| StartCalibration (now : Z)
| StopCalibration
| BlinkTimeout.

Definition step (st : state) (ev : event) : state :=
  match ev with
  | Effect input => tick st input
  | StartCalibration now => with_calib st (startCalibration now (calib st))
  | StopCalibration => with_calib st (stopCalibration (calib st))
  | BlinkTimeout => with_blinkDetected st false
  end.

Definition run (st : state) (events : list event) : state :=
  fold_left step events st.

(** A run at 1000 ms with the eyes closed, followed by [n] runs with the eyes
    open, 180 ms apart. *)
Definition closed_then_open (n : nat) : list event :=
  Effect (Some (plain_frame 1000 0.2))
  :: map (fun k => Effect (Some (plain_frame (1000 + 180 * Z.of_nat k) 0.35)))
         (seq 1 n).

(** The states the hook can be in: reached from a mount by such events. *)
Definition reachable (st : state) : Prop :=
  exists mountTs events, st = run (init mountTs) events.

End Monitor.

(** ** Array idioms shared by the hooks and the dashboard *)

Module Arrays.

(** [arr.slice(start)] for an integer [start], negative counting from the end. *)
Definition slice_from {A : Type} (start : Z) (arr : list A) : list A :=
  let n := Z.of_nat (length arr) in
  let k := if (start <? 0)%Z then Z.max (n + start) 0 else Z.min start n in
  skipn (Z.to_nat k) arr.

(** [[...prev.slice(-maxPoints + 1), x]], the update of [drowsyHistory], of
    [emotionHistory] and, with [MAX_LOGS], of the dashboard's [logs]. *)
Definition push_bounded {A : Type} (maxPoints : Z) (prev : list A) (x : A)
  : list A :=
  slice_from (- maxPoints + 1) prev ++ [x].

End Arrays.

(** ** The rest of the monitoring effect: emotion and histories *)

Module MonitorRest.

Import JsNum Monitor Arrays.

(** [Object.entries(expressions)]: the categories with their confidences, in
    enumeration order. *)
Definition Expressions : Type := list (string * num).

(** The emotion block; [None] is an [expressions] that is missing or not an
    object. *)
Definition dominant (expressions : option Expressions) : string :=
  match expressions with
  | None => "neutral"%string
  | Some entries =>
    fst (fold_left (fun a b => if gt (snd a) (snd b) then a else b)
                   entries ("neutral"%string, Fin 0))
  end.

(** The states and the ref field of the hook that [Monitor.state] leaves out. *)
Record Histories : Type := {
  drowsyHistory : list Z;
  emotionHistory : list string;
  dominantEmotion : string;
  pv_dominantEmotion : option string
}.

Definition init_histories : Histories :=
  {| drowsyHistory := []; emotionHistory := [];
     dominantEmotion := "neutral"%string; pv_dominantEmotion := None |}.

(** What one effect run does to them; [st] is the state the run starts from,
    [maxPoints] the hook's second argument. *)
Definition tick_histories (maxPoints : Z) (st : state) (f : frame)
    (expressions : option Expressions) (h : Histories) : Histories :=
  if (nowTs f - lastUpdate st <? UPDATE_MS)%Z then h
  else
    let ema := emaRef (tick st (Some f)) in
    let isDrowsy := gt ema (Fin 0.5) in
    let emotion := dominant expressions in
    let changed :=
      negb (String.eqb (orElse (pv_dominantEmotion h) ""%string) emotion) in
    {| drowsyHistory :=
         push_bounded maxPoints (drowsyHistory h) (if isDrowsy then 1 else 0)%Z;
       emotionHistory := push_bounded maxPoints (emotionHistory h) emotion;
       dominantEmotion := if changed then emotion else dominantEmotion h;
       pv_dominantEmotion :=
         if changed then Some emotion else pv_dominantEmotion h |}.

End MonitorRest.

(** ** The rest of the audio hook *)

Module SoundRest.

Import JsNum Sound Arrays.

(** [computeSpectralVariance] *)
Definition computeSpectralVariance (mag : list Q) : Q :=
  match mag with
  | [] => 0
  | _ =>
    let mean := fold_left (fun m x => m + x) mag 0 / Stats.len mag in
    let varSum := fold_left (fun s x => s + (x - mean) * (x - mean)) mag 0 in
    varSum / Stats.len mag
  end.

Section LowBand.

(** [mag_of db] is what [Math.pow(10, db / 20)] returns. *)
Variable mag_of : Q -> Q.

(** The linear magnitude a bin adds to a sum: bins that are not finite are
    skipped. *)
Definition bin_mag (db : num) : Q :=
  match db with
  | Fin q => mag_of q
  | _ => 0
  end.

(** [computeLowBandRatio]; [freqData] is what [getFloatFrequencyData] wrote. *)
Definition computeLowBandRatio (freqData : list num) (sampleRate fftSize : Q)
    (startHz endHz : Q) : Q :=
  let freqCount := Z.of_nat (length freqData) in
  let freqPerBin := sampleRate / fftSize in
  let startBin := Z.max 0 (Qfloor (startHz / freqPerBin)) in
  let endBin := Z.min (freqCount - 1) (Qfloor (endHz / freqPerBin)) in
  let band :=
    firstn (Z.to_nat (endBin + 1 - startBin)) (skipn (Z.to_nat startBin) freqData) in
  let sumMag := fold_left (fun s db => s + bin_mag db) band 0 in
  let total := fold_left (fun s db => s + bin_mag db) freqData 0 in
  if Qle_bool total 0 then 0
  else Qmax 0 (Qmin 1 (sumMag / total)).

End LowBand.

(** [recentEnvelope] *)
Definition recentEnvelope (st : state) (maxSamples : Z) : list Q * list Z :=
  (slice_from (- maxSamples) (envelopeBuffer st),
   slice_from (- maxSamples) (envelopeTime st)).

(** What [stop] does to the fields of [Sound.state]. *)
Definition stop (st : state) : state :=
  State (lastSampleTime st) (silenceStart st) (varianceBuf st) [] []
        0 0 false (volume st) 0 false.

(** What a successful [start] does to them. *)
Definition start (st : state) : state :=
  State 0 None [] [] [] 0 0 false (volume st) (bandEnergyLow st) (isSilent st).

(** The audio hook over its life: sampling frames and the two controls. *)
Inductive event : Type :=
| Frame (fr : frame)
| Stop
| Start.

Definition step (cfg : config) (st : state) (ev : event) : state :=
  match ev with
  | Frame fr => sampleAudio cfg st fr
  | Stop => stop st
  | Start => start st
  end.

Definition run (cfg : config) (st : state) (events : list event) : state :=
  fold_left (step cfg) events st.

End SoundRest.

(** ** The alerts of the live dashboard *)

Module Alerts.

Import JsNum.

(** TUNE *)
Definition DROWSY_THRESHOLD : Q := 0.8.
Definition DROWSY_DEMO_THRESHOLD : Q := 0.6.
Definition PERCLOS_ALERT : Q := 0.25.
Definition PERCLOS_DEMO_ALERT : Q := 0.18.

(** The drowsiness effect: [prevDrowsyScoreRef] and [lastAlertRef]. *)
Record DrowsyRefs : Type := { prevDrowsyScore : num; lastAlert : Z }.

Definition init_drowsy : DrowsyRefs := {| prevDrowsyScore := Fin 0; lastAlert := 0 |}.

(** One run; [audioLoaded] is [alertAudioRef.current] being set.  The result
    tells whether the alert sound and toast were issued. *)
Definition drowsy_effect (refs : DrowsyRefs) (audioLoaded : bool) (now : Z)
    (drowsyScore : num) (demoMode : bool) : DrowsyRefs * bool :=
  if negb audioLoaded then (refs, false)
  else
    let threshold := if demoMode then DROWSY_DEMO_THRESHOLD else DROWSY_THRESHOLD in
    let prev := prevDrowsyScore refs in
    if lt prev (Fin threshold) && le (Fin threshold) drowsyScore
    then ({| prevDrowsyScore := drowsyScore; lastAlert := now |}, true)
    else ({| prevDrowsyScore := drowsyScore; lastAlert := lastAlert refs |}, false).

(** The snore effect: [prevSoundWarningRef] and [lastSnoreToastRef]. *)
Record SnoreRefs : Type := { prevSoundWarning : bool; lastSnoreToast : Z }.

Definition init_snore : SnoreRefs := {| prevSoundWarning := false; lastSnoreToast := 0 |}.

Definition snore_effect (refs : SnoreRefs) (now : Z) (soundWarning : bool)
  : SnoreRefs * bool :=
  let COOLDOWN := 15000%Z in
  let prev := prevSoundWarning refs in
  let current := soundWarning in
  if negb prev && current then
    if (now - lastSnoreToast refs <? COOLDOWN)%Z
    then ({| prevSoundWarning := current; lastSnoreToast := lastSnoreToast refs |}, false)
    else ({| prevSoundWarning := current; lastSnoreToast := now |}, true)
  else ({| prevSoundWarning := current; lastSnoreToast := lastSnoreToast refs |}, false).

(** The yawn effect: [prevMarRef] and [lastYawnToastRef]. *)
Record YawnRefs : Type := { prevMar : num; lastYawnToast : Z }.

Definition init_yawn : YawnRefs := {| prevMar := Fin 0; lastYawnToast := 0 |}.

Definition yawn_effect (refs : YawnRefs) (now : Z) (mar : num) : YawnRefs * bool :=
  let COOLDOWN := 10000%Z in
  let YAWN_THRESHOLD := 0.7 in
  let prevMar := prevMar refs in
  let currentMar := mar in
  if lt prevMar (Fin YAWN_THRESHOLD) && le (Fin YAWN_THRESHOLD) currentMar then
    if (now - lastYawnToast refs <? COOLDOWN)%Z
    then ({| prevMar := currentMar; lastYawnToast := lastYawnToast refs |}, false)
    else ({| prevMar := currentMar; lastYawnToast := now |}, true)
  else ({| prevMar := currentMar; lastYawnToast := lastYawnToast refs |}, false).

(** The eyes effect: [prevEyesBadRef] and [lastEyesToastRef]. *)
Record EyesRefs : Type := { prevEyesBad : bool; lastEyesToast : Z }.

Definition init_eyes : EyesRefs := {| prevEyesBad := false; lastEyesToast := 0 |}.

(** [eyesBad] *)
Definition eyesBad (demoMode continuousClose : bool) (perclos : Q) (ear : num)
  : bool :=
  let perclosThreshold := if demoMode then PERCLOS_DEMO_ALERT else PERCLOS_ALERT in
  continuousClose || Qltb perclosThreshold perclos || lt ear (Fin 0.18).

Definition eyes_effect (refs : EyesRefs) (now : Z) (demoMode continuousClose : bool)
    (perclos : Q) (ear : num) : EyesRefs * bool :=
  let COOLDOWN := 8000%Z in
  let bad := eyesBad demoMode continuousClose perclos ear in
  let prevBad := prevEyesBad refs in
  if negb prevBad && bad then
    if (now - lastEyesToast refs <? COOLDOWN)%Z
    then ({| prevEyesBad := bad; lastEyesToast := lastEyesToast refs |}, false)
    else ({| prevEyesBad := bad; lastEyesToast := now |}, true)
  else ({| prevEyesBad := bad; lastEyesToast := lastEyesToast refs |}, false).

(** The times at which a sequence of runs of an effect issued its alert;
    [effect refs now input] is one run at time [now]. *)
Fixpoint fired_times {S I : Type} (effect : S -> Z -> I -> S * bool)
    (refs : S) (runs : list (Z * I)) : list Z :=
  match runs with
  | [] => []
  | (now, input) :: rest =>
    let (refs', fired) := effect refs now input in
    (if fired then [now] else []) ++ fired_times effect refs' rest
  end.

(** [smoothArr]; [window] defaults to [TUNE.SMOOTH_WINDOW], which is 3. *)
Definition smoothArr (arr : list Q) (window : Z) : list Q :=
  map (fun i =>
         let start := Z.to_nat (Z.max 0 (Z.of_nat i - (window - 1))) in
         let w := firstn (i + 1 - start) (skipn start arr) in
         fold_left (fun a b => a + b) w 0
         / inject_Z (Z.max 1 (Z.of_nat (length w))))
      (seq 0 (length arr)).

End Alerts.

(** ** What [detectPeaks] guarantees of its result *)

Module PeakSpec.
Import JsNum Stats.

(** What the loop of [detectPeaks] has checked of a pushed peak: it carries
    the value and the time of its index, it is a local peak there, and it
    passed the amplitude and the prominence tests. *)
Definition accepted (values : list Q) (times : list Z) (clock : nat -> Z)
    (minAmp prominenceStd : Q) (p : peak) : Prop :=
  v p = nth (idx p) values 0
  /\ t p = match nth_error times (idx p) with
           | Some x => x
           | None => clock (idx p)
           end
  /\ nth (idx p - 1) values 0 < v p
  /\ nth (idx p + 1) values 0 <= v p
  /\ minAmp <= v p
  /\ ((0 < root_val (std values))%R ->
      (Q2R (median values) + Q2R prominenceStd * root_val (std values)
       <= Q2R (v p))%R).

(** Two neighbours of the peak list: in index order and far enough apart. *)
Definition spaced (minSeparationMs : Z) (p q : peak) : Prop :=
  (idx p < idx q)%nat /\ (t p + minSeparationMs <= t q)%Z.

(** The state of the loop before index [i]: all peaks accepted, all before
    [i], neighbours spaced. *)
Definition loop_inv (values : list Q) (times : list Z) (clock : nat -> Z)
    (minAmp : Q) (minSeparationMs : Z) (prominenceStd : Q) (i : nat)
    (peaks : list peak) : Prop :=
  Forall (fun p => accepted values times clock minAmp prominenceStd p
                   /\ (idx p < i)%nat) peaks
  /\ Sorted (spaced minSeparationMs) peaks.

End PeakSpec.

(** ** Calibration: the shape of the thresholds, and a session *)

Module Invariants.
Import JsNum Monitor.

(** Finite thresholds keep the floor of the closed threshold and the gap of
    the hysteresis. *)
Definition thresholds_ok (c : Calibration) : Prop :=
  forall earClosed,
    EAR_CLOSED_REF c = Fin earClosed ->
    exists earOpen,
      EAR_OPEN_REF c = Fin earOpen
      /\ 0.12 <= earClosed /\ earClosed + 0.04 <= earOpen.

(** The calibration block run over a sequence of effect runs, given by their
    times and EAR values. *)
Definition calibration_run (c : Calibration) (runs : list (Z * num))
  : Calibration :=
  fold_left (fun c x => calibration_tick c (fst x) (snd x)) runs c.

End Invariants.

(** ** The histories over a sequence of runs *)

Module HistSpec.
Import JsNum Monitor MonitorRest.

(** A sequence of effect runs, each with its frame and its expressions,
    followed through [tick] and [tick_histories] together. *)
Fixpoint run_histories (maxPoints : Z) (st : state) (h : Histories)
    (inputs : list (frame * option Expressions)) : state * Histories :=
  match inputs with
  | [] => (st, h)
  | (f, expressions) :: rest =>
    run_histories maxPoints (tick st (Some f))
                  (tick_histories maxPoints st f expressions h) rest
  end.

(** The entries of an expressions object whose confidences are all finite. *)
Definition finite_entries (entries : list (string * Q)) : Expressions :=
  map (fun e => (fst e, Fin (snd e))) entries.

End HistSpec.

(** ** What the envelope buffer holds *)

Module SoundSpec.
Import JsNum Sound.

(** An integer number of percent. *)
Definition percentage (x : Q) : Prop :=
  exists k : Z, (0 <= k <= 100)%Z /\ x = inject_Z k.

(** The band ratio a frame carries, if it carries a reading. *)
Definition band_in_range (fr : frame) : Prop :=
  match fr with
  | Reading _ _ _ _ bandRatio => 0 <= bandRatio <= 1
  | _ => True
  end.

End SoundSpec.

(** ** Quiet input *)

Module VolumeSpec.
Import JsNum Sound.

(** A frame whose level, if it has one, normalises to at most [EPS]. *)
Definition quiet (fr : frame) : Prop :=
  match fr with
  | Reading _ _ db _ _ => db <= -119.4
  | _ => True
  end.

End VolumeSpec.

(** ** The dashboard effects as runs over their inputs *)

Module AlertSpec.
Import JsNum Alerts.

(** Two alert times at least [cooldown] apart. *)
Definition gap (cooldown : Z) (a b : Z) : Prop := (a + cooldown <= b)%Z.

(** The inputs of one run of the eyes effect: [demoMode], [continuousClose],
    [perclos] and [ear]. *)
Definition EyesInput : Type := bool * bool * Q * num.

Definition eyes_run (refs : EyesRefs) (now : Z) (input : EyesInput)
  : EyesRefs * bool :=
  let '(demoMode, continuousClose, perclos, ear) := input in
  eyes_effect refs now demoMode continuousClose perclos ear.

Definition eyes_bad_input (input : EyesInput) : bool :=
  let '(demoMode, continuousClose, perclos, ear) := input in
  eyesBad demoMode continuousClose perclos ear.

(** The inputs of one run of the drowsiness effect: whether the alert sound
    is loaded, the score and [demoMode]. *)
Definition DrowsyInput : Type := bool * num * bool.

Definition drowsy_run (refs : DrowsyRefs) (now : Z) (input : DrowsyInput)
  : DrowsyRefs * bool :=
  let '(audioLoaded, drowsyScore, demoMode) := input in
  drowsy_effect refs audioLoaded now drowsyScore demoMode.

End AlertSpec.

(** * Properties *)

Lemma Qsquare_nonneg (d : Q) : 0 <= d * d.
Proof.
  destruct (Qlt_le_dec d 0).
  - setoid_replace (d * d) with ((- d) * (- d)) by ring.
    apply Qmult_le_0_compat; lra.
  - apply Qmult_le_0_compat; lra.
Qed.

(** ** Comparisons and arithmetic of [JsNum] *)

Section NumFacts.

Import JsNum.

Lemma Qltb_true (a b : Q) : Qltb a b = true <-> a < b.
Proof.
  unfold Qltb. rewrite negb_true_iff, <- not_true_iff_false, Qle_bool_iff.
  split; [apply Qnot_le_lt | apply Qlt_not_le].
Qed.

Lemma Qltb_false (a b : Q) : Qltb a b = false <-> b <= a.
Proof.
  unfold Qltb. rewrite negb_false_iff. apply Qle_bool_iff.
Qed.

Lemma Qle_bool_false (a b : Q) : Qle_bool a b = false <-> b < a.
Proof.
  rewrite <- not_true_iff_false, Qle_bool_iff.
  split; [apply Qnot_le_lt | apply Qlt_not_le].
Qed.

Lemma min_fin (a b : Q) : exists c, min (Fin a) (Fin b) = Fin c /\ c == Qmin a b.
Proof.
  unfold min, le. destruct (Qle_bool a b) eqn:E.
  - exists a. split; [reflexivity|].
    apply Qle_bool_iff in E. symmetry. now apply Q.min_l.
  - exists b. split; [reflexivity|].
    apply Qle_bool_false in E. symmetry. apply Q.min_r. now apply Qlt_le_weak.
Qed.

Lemma max_fin (a b : Q) : exists c, max (Fin a) (Fin b) = Fin c /\ c == Qmax a b.
Proof.
  unfold max, le. destruct (Qle_bool a b) eqn:E.
  - exists b. split; [reflexivity|].
    apply Qle_bool_iff in E. symmetry. now apply Q.max_r.
  - exists a. split; [reflexivity|].
    apply Qle_bool_false in E. symmetry. apply Q.max_l. now apply Qlt_le_weak.
Qed.

(** Clamping any number that is not NaN lands in the unit interval. *)
Lemma clamp_unit_range (x : num) :
  x <> NaN -> unit_range (max (Fin 0) (min (Fin 1) x)).
Proof.
  intros Hx. destruct x as [q| | |]; try congruence; cbn.
  - destruct (Qle_bool 1 q) eqn:E1; cbn.
    + split; [discriminate | apply Qle_refl].
    + apply Qle_bool_false in E1.
      destruct (Qle_bool 0 q) eqn:E0; cbn.
      * apply Qle_bool_iff in E0. split; [exact E0 | now apply Qlt_le_weak].
      * split; [apply Qle_refl | discriminate].
  - split; [discriminate | apply Qle_refl].
  - split; [apply Qle_refl | discriminate].
Qed.

End NumFacts.

(** ** Peak detection and periodicity *)

Section SortFacts.

Import Stats.

Lemma insert_perm (x : Q) (l : list Q) : Permutation (x :: l) (insert x l).
Proof.
  induction l as [|y t IH]; cbn; [reflexivity|].
  destruct (Qle_bool x y); [reflexivity|].
  rewrite perm_swap. now constructor.
Qed.

Lemma insert_sorted (x : Q) (l : list Q) :
  Sorted Qle l -> Sorted Qle (insert x l).
Proof.
  induction 1 as [|y t Ht IH Hy]; cbn.
  - repeat constructor.
  - destruct (Qle_bool x y) eqn:E.
    + apply Qle_bool_iff in E. repeat constructor; assumption.
    + apply Qle_bool_false in E. constructor; [exact IH|].
      destruct t as [|z t]; cbn.
      * constructor. now apply Qlt_le_weak.
      * inversion Hy; subst. destruct (Qle_bool x z); constructor;
          [now apply Qlt_le_weak | assumption].
Qed.

(** [sort] returns the elements of its argument in ascending order. *)
Lemma sort_perm (arr : list Q) : Permutation arr (sort arr).
Proof.
  induction arr as [|x t IH]; cbn; [constructor|].
  rewrite <- insert_perm. now constructor.
Qed.

Lemma sort_sorted (arr : list Q) : Sorted Qle (sort arr).
Proof.
  induction arr as [|x t IH]; cbn; [constructor|]. now apply insert_sorted.
Qed.

End SortFacts.

Section PeakFacts.

Import JsNum Stats.

Variables (times : list Z) (clock : nat -> Z).
Variables (minAmp : Q) (minSeparationMs : Z) (prominenceStd : Q).

Lemma detectPeaks_iter_interior (values : list Q) (med : Q) (s : root)
    (peaks : list peak) (i : nat) :
  (1 <= i)%nat -> (i + 1 < length values)%nat ->
  Forall (interior values) peaks ->
  Forall (interior values)
    (detectPeaks_iter values times clock minAmp minSeparationMs prominenceStd
                      med s peaks i).
Proof.
  intros Hlo Hhi Hacc. unfold detectPeaks_iter.
  destruct (Qltb _ _ && Qle_bool _ _); [|exact Hacc].
  destruct (rev peaks) as [|p ?].
  - cbn zeta iota.
    destruct ((if root_pos s then _ else true) && _); [|exact Hacc].
    apply Forall_app. split; [exact Hacc|].
    constructor; [|constructor]. repeat split; assumption.
  - cbn zeta iota. destruct (_ <? _)%Z; [exact Hacc|].
    destruct ((if root_pos s then _ else true) && _); [|exact Hacc].
    apply Forall_app. split; [exact Hacc|].
    constructor; [|constructor]. repeat split; assumption.
Qed.

Lemma detectPeaks_loop_interior (values : list Q) (med : Q) (s : root)
    (indices : list nat) :
  Forall (fun i => (1 <= i)%nat /\ (i + 1 < length values)%nat) indices ->
  forall peaks, Forall (interior values) peaks ->
  Forall (interior values)
    (fold_left
       (detectPeaks_iter values times clock minAmp minSeparationMs prominenceStd
                         med s) indices peaks).
Proof.
  induction 1 as [|i rest [Hlo Hhi] _ IH]; intros peaks Hacc; cbn.
  - exact Hacc.
  - apply IH. now apply detectPeaks_iter_interior.
Qed.

Lemma loop_indices_interior (values : list Q) :
  Forall (fun i => (1 <= i)%nat /\ (i + 1 < length values)%nat)
         (seq 1 (length values - 2)).
Proof.
  apply Forall_forall. intros i Hi. apply in_seq in Hi. lia.
Qed.

(** C10. [detectPeaks] accepts only interior samples: the index of every peak
    it returns is at least 1 and at most [length - 2], and the peak carries
    the value found there; an envelope of fewer than three samples has no
    interior and yields no peak. *)
Theorem detectPeaks_interior_only (values : list Q) :
  Forall (fun p => (1 <= idx p)%nat /\ (idx p + 1 < length values)%nat
                   /\ v p = nth (idx p) values 0)
         (detectPeaks values times clock minAmp minSeparationMs prominenceStd)
  /\ ((length values < 3)%nat ->
      detectPeaks values times clock minAmp minSeparationMs prominenceStd = []).
Proof.
  split.
  - unfold detectPeaks. destruct values as [|x rest] eqn:E; [constructor|].
    rewrite <- E. apply detectPeaks_loop_interior.
    + apply loop_indices_interior.
    + constructor.
  - intros Hlen. unfold detectPeaks. destruct values as [|x rest]; [reflexivity|].
    replace (length (x :: rest) - 2)%nat with 0%nat by (cbn in *; lia).
    reflexivity.
Qed.

End PeakFacts.

(** An envelope of two samples, the second above the first, has no peak. *)
Lemma detectPeaks_interior_only_witness :
  Stats.detectPeaks [5; 30] [0; 200]%Z (fun _ => 0%Z) 14 150 1 = [].
Proof.
  apply (proj2 (detectPeaks_interior_only [0; 200]%Z (fun _ => 0%Z) 14 150 1 [5; 30])).
  simpl. lia.
Defined.

(** The detector is not vacuous: four well separated bumps are all accepted. *)
Example detectPeaks_accepts :
  Stats.detectPeaks
    [0; 20; 0; 0; 0; 20; 0; 0; 0; 20; 0; 0; 0; 20; 0]
    [0; 100; 200; 300; 400; 600; 700; 800; 900; 1120; 1200; 1300; 1400; 1600; 1700]%Z
    (fun _ => 0%Z) 14 150 1
  = [Stats.Peak 1 100 20; Stats.Peak 5 600 20; Stats.Peak 9 1120 20;
     Stats.Peak 13 1600 20].
Proof. vm_compute. reflexivity. Qed.

(** The peaks found there are 500, 520 and 480 ms apart and pass the
    periodicity test; the sound block then scores [min(1, 4/6)]. *)
Example detected_peaks_periodic :
  Stats.evaluatePeriodicity
    (Stats.detectPeaks
       [0; 20; 0; 0; 0; 20; 0; 0; 0; 20; 0; 0; 0; 20; 0]
       [0; 100; 200; 300; 400; 600; 700; 800; 900; 1120; 1200; 1300; 1400; 1600; 1700]%Z
       (fun _ => 0%Z) 14 150 1) 3 500
  = Stats.Periodicity true [500; 520; 480].
Proof. vm_compute. reflexivity. Qed.

Section PeriodicityFacts.

Import JsNum Stats.

Lemma sum_squares_nonneg (m : Q) (arr : list Q) (acc : Q) :
  0 <= acc ->
  0 <= fold_left (fun s x => s + (x - m) * (x - m)) arr acc.
Proof.
  revert acc. induction arr as [|x rest IH]; intros acc Hacc; cbn.
  - exact Hacc.
  - apply IH. generalize (x - m). intros d.
    pose proof (Qsquare_nonneg d). lra.
Qed.

Lemma len_nonneg (arr : list Q) : 0 <= len arr.
Proof.
  unfold len. change 0 with (inject_Z 0). rewrite <- Zle_Qle. lia.
Qed.

Lemma variance_nonneg (arr : list Q) : 0 <= variance arr.
Proof.
  unfold variance. unfold Qdiv. apply Qmult_le_0_compat.
  - apply sum_squares_nonneg. apply Qle_refl.
  - apply Qinv_le_0_compat, len_nonneg.
Qed.

Lemma std_radicand_nonneg (arr : list Q) : 0 <= radicand (std arr).
Proof.
  destruct arr; cbn [std radicand]; [apply Qle_refl | apply variance_nonneg].
Qed.

Lemma Qle_bool_R (a b : Q) : Qle_bool a b = true <-> (Q2R a <= Q2R b)%R.
Proof.
  rewrite Qle_bool_iff. split; [apply Qle_Rle | apply Rle_Qle].
Qed.

Lemma Qle_bool_R_false (a b : Q) : Qle_bool a b = false <-> (Q2R b < Q2R a)%R.
Proof.
  rewrite Qle_bool_false. split; [apply Qlt_Rlt | apply Rlt_Qlt].
Qed.

Lemma root_val_facts (s : root) :
  0 <= radicand s ->
  (0 <= root_val s)%R /\ (root_val s * root_val s = Q2R (radicand s))%R.
Proof.
  intros Hr. unfold root_val. split; [apply sqrt_pos|].
  apply sqrt_sqrt. replace 0%R with (Q2R 0) by apply RMicromega.Q2R_0.
  now apply Qle_Rle.
Qed.

(** The three exact tests on a symbolic root decide the comparisons the code
    makes with the real square root. *)
Lemma root_pos_correct (s : root) :
  0 <= radicand s -> root_pos s = true <-> (0 < root_val s)%R.
Proof.
  intros Hr. destruct (root_val_facts s Hr) as [Hpos Hsq].
  unfold root_pos. rewrite Qltb_true. split.
  - intros H. apply Qlt_Rlt in H. rewrite RMicromega.Q2R_0 in H. Lra.nra.
  - intros H. apply Rlt_Qlt. rewrite RMicromega.Q2R_0. Lra.nra.
Qed.

Lemma ge_plus_scaled_correct (v m p : Q) (s : root) :
  0 <= radicand s ->
  ge_plus_scaled v m p s = true <->
  (Q2R m + Q2R p * root_val s <= Q2R v)%R.
Proof.
  intros Hr. destruct (root_val_facts s Hr) as [Hpos Hsq].
  unfold ge_plus_scaled.
  destruct (Qle_bool 0 p) eqn:Hp.
  - apply Qle_bool_R in Hp. rewrite RMicromega.Q2R_0 in Hp.
    rewrite andb_true_iff, !Qle_bool_R, !Q2R_mult, !Q2R_minus, RMicromega.Q2R_0.
    rewrite <- Hsq.
    revert Hpos Hp. generalize (root_val s) (Q2R v) (Q2R m) (Q2R p).
    intros sg V M P Hpos Hp.
    assert (0 <= P * sg)%R by Lra.nra.
    split.
    + intros [Hd Hsqd].
      destruct (Rle_lt_dec (M + P * sg) V) as [|Hlt]; [assumption|exfalso].
      assert (0 <= V - M < P * sg)%R by Lra.lra.
      assert ((V - M) * (V - M) < (P * sg) * (P * sg))%R by Lra.nra.
      Lra.nra.
    + intros Hle. split; [Lra.lra|].
      assert (0 <= P * sg <= V - M)%R by Lra.lra.
      assert ((P * sg) * (P * sg) <= (V - M) * (V - M))%R by Lra.nra.
      Lra.nra.
  - apply Qle_bool_R_false in Hp. rewrite RMicromega.Q2R_0 in Hp.
    rewrite orb_true_iff, !Qle_bool_R, !Q2R_mult, !Q2R_minus, RMicromega.Q2R_0.
    rewrite <- Hsq.
    revert Hpos Hp. generalize (root_val s) (Q2R v) (Q2R m) (Q2R p).
    intros sg V M P Hpos Hp.
    assert (P * sg <= 0)%R by Lra.nra.
    split.
    + intros [Hd | Hsqd]; [Lra.lra|].
      destruct (Rle_lt_dec (M + P * sg) V) as [|Hlt]; [assumption|exfalso].
      assert (V - M < P * sg <= 0)%R by Lra.lra.
      assert ((P * sg) * (P * sg) < (V - M) * (V - M))%R by Lra.nra.
      Lra.nra.
    + intros Hle.
      destruct (Rle_lt_dec 0 (V - M)) as [|Hneg]; [now left|right].
      assert (P * sg <= V - M < 0)%R by Lra.lra.
      assert ((V - M) * (V - M) <= (P * sg) * (P * sg))%R by Lra.nra.
      Lra.nra.
Qed.

Lemma root_le_correct (s : root) (b : Q) :
  0 <= radicand s ->
  root_le s b = true <-> (root_val s <= Q2R b)%R.
Proof.
  intros Hr. destruct (root_val_facts s Hr) as [Hpos Hsq].
  unfold root_le.
  rewrite andb_true_iff, !Qle_bool_R, Q2R_mult, RMicromega.Q2R_0, <- Hsq.
  revert Hpos. generalize (root_val s) (Q2R b). intros sg B Hpos.
  split.
  - intros [Hb Hsqb].
    destruct (Rle_lt_dec sg B) as [|Hlt]; [assumption|exfalso].
    assert (B * B < sg * sg)%R by Lra.nra. Lra.lra.
  - intros Hle. split; [Lra.lra | Lra.nra].
Qed.

Lemma Q2R_500 : Q2R 500 = 500%R.
Proof. unfold Q2R. cbn. Lra.lra. Qed.

Lemma sum_fold_right (l : list Q) (acc : Q) :
  fold_left (fun s x => s + x) l acc == acc + fold_right Qplus 0 l.
Proof.
  revert acc. induction l as [|x l IH]; intros acc; cbn [fold_left fold_right].
  - ring.
  - rewrite IH. ring.
Qed.

Lemma squares_fold_right (m m' : Q) (l : list Q) (acc : Q) :
  m == m' ->
  fold_left (fun s x => s + (x - m) * (x - m)) l acc
  == acc + fold_right Qplus 0 (map (fun d => (d - m') * (d - m')) l).
Proof.
  intros Hm. revert acc.
  induction l as [|x l IH]; intros acc; cbn [fold_left fold_right map].
  - ring.
  - rewrite IH, Hm. ring.
Qed.

Lemma mean_fold_right (l : list Q) :
  mean l == fold_right Qplus 0 l / inject_Z (Z.of_nat (length l)).
Proof.
  unfold mean, sum, len. rewrite sum_fold_right. rewrite Qplus_0_l. reflexivity.
Qed.

(** [std] is the square root of the mean squared deviation from the mean. *)
Lemma std_root_mean_square (l : list Q) :
  let n := inject_Z (Z.of_nat (length l)) in
  let m := fold_right Qplus 0 l / n in
  root_val (std l)
  = sqrt (Q2R (fold_right Qplus 0 (map (fun d => (d - m) * (d - m)) l) / n)).
Proof.
  cbn zeta. unfold root_val. f_equal. apply Qeq_eqR.
  destruct l as [|x rest] eqn:E; [reflexivity|]. rewrite <- E.
  assert (Hstd : radicand (std l) = variance l) by (rewrite E; reflexivity).
  rewrite Hstd. unfold variance. fold (mean l). unfold len.
  rewrite (squares_fold_right (mean l) _ l 0 (mean_fold_right l)).
  rewrite Qplus_0_l. reflexivity.
Qed.

Lemma peak_intervals_nth (peaks : list peak) (i : nat) (d : peak) :
  (S i < length peaks)%nat ->
  nth i (peak_intervals peaks) 0
  = inject_Z (t (nth (S i) peaks d) - t (nth i peaks d)).
Proof.
  revert i. induction peaks as [|p rest IH]; intros i Hi; [cbn in Hi; lia|].
  destruct rest as [|q rest']; [cbn in Hi; lia|].
  destruct i as [|i].
  - reflexivity.
  - change (nth i (peak_intervals (q :: rest')) 0
            = inject_Z (t (nth (S i) (q :: rest') d) - t (nth i (q :: rest') d))).
    apply IH. cbn [length] in *. lia.
Qed.

Lemma peak_intervals_count (peaks : list peak) :
  length (peak_intervals peaks) = (length peaks - 1)%nat.
Proof.
  induction peaks as [|p rest IH]; [reflexivity|].
  destruct rest as [|q rest']; [reflexivity|].
  change (S (length (peak_intervals (q :: rest'))) = (length (p :: q :: rest') - 1)%nat).
  rewrite IH. cbn [length]. lia.
Qed.

(** C5. The periodicity test as the hook calls it (at least 3 peaks, interval
    deviation at most 500 ms) answers [ok] exactly when there are at least
    three peaks, the standard deviation of the inter-peak intervals, that is
    the square root of the mean of their squared deviations from their mean,
    is at most 500, and their mean lies in [200, 2000]; the intervals are the
    differences of the times of consecutive peaks.  Four peaks spaced 500,
    520 and 480 ms apart have deviation [sqrt (800 / 3)], about 16.3, and are
    periodic; four peaks spaced 200, 1800 and 200 ms apart have a mean
    interval inside the range but a deviation above 500 and are not; fewer
    than three peaks never are. *)
Theorem periodicity_test :
  (forall peaks,
      let ds := peak_intervals peaks in
      let n := inject_Z (Z.of_nat (length ds)) in
      let m := fold_right Qplus 0 ds / n in
      let msd := fold_right Qplus 0 (map (fun d => (d - m) * (d - m)) ds) / n in
      (ok (evaluatePeriodicity peaks 3 500) = true <->
       (3 <= length peaks)%nat
       /\ (sqrt (Q2R msd) <= 500)%R
       /\ 200 <= m /\ m <= 2000)
      /\ root_val (std ds) = sqrt (Q2R msd)
      /\ mean ds == m)
  /\ (forall peaks,
         length (peak_intervals peaks) = (length peaks - 1)%nat
         /\ forall i d,
              (S i < length peaks)%nat ->
              nth i (peak_intervals peaks) 0
              = inject_Z (t (nth (S i) peaks d) - t (nth i peaks d)))
  /\ (forall i0 i1 i2 i3 v0 v1 v2 v3 t0,
         let peaks := [Peak i0 t0 v0; Peak i1 (t0 + 500) v1;
                       Peak i2 (t0 + 1020) v2; Peak i3 (t0 + 1500) v3] in
         ok (evaluatePeriodicity peaks 3 500) = true
         /\ peak_intervals peaks = [500; 520; 480]
         /\ root_val (std [500; 520; 480]) = sqrt (800 / 3))
  /\ (forall i0 i1 i2 i3 v0 v1 v2 v3 t0,
         let peaks := [Peak i0 t0 v0; Peak i1 (t0 + 200) v1;
                       Peak i2 (t0 + 2000) v2; Peak i3 (t0 + 2200) v3] in
         ok (evaluatePeriodicity peaks 3 500) = false
         /\ 200 <= mean (peak_intervals peaks) <= 2000)
  /\ (forall peaks,
         (length peaks < 3)%nat -> ok (evaluatePeriodicity peaks 3 500) = false).
Proof.
  split; [|split; [|split; [|split]]].
  - intros peaks. cbn zeta.
    pose proof (std_root_mean_square (peak_intervals peaks)) as Hstd.
    pose proof (mean_fold_right (peak_intervals peaks)) as Hmean.
    cbn zeta in Hstd. split; [|split; [exact Hstd | exact Hmean]].
    rewrite <- Hstd, <- Hmean.
    unfold evaluatePeriodicity, mean.
    destruct (length peaks <? 3)%nat eqn:Hn.
    + apply Nat.ltb_lt in Hn. cbn. split; [discriminate | lia].
    + apply Nat.ltb_ge in Hn.
      rewrite <- Q2R_500.
      rewrite <- (root_le_correct _ _ (std_radicand_nonneg _)).
      rewrite <- !Qle_bool_iff.
      destruct (root_le _ 500), (Qle_bool 200 _), (Qle_bool _ 2000); cbn;
        intuition (try discriminate; try lia).
  - intros peaks. split; [apply peak_intervals_count|].
    intros i d Hi. now apply peak_intervals_nth.
  - intros. subst peaks.
    assert (Hds : peak_intervals
                    [Peak i0 t0 v0; Peak i1 (t0 + 500) v1;
                     Peak i2 (t0 + 1020) v2; Peak i3 (t0 + 1500) v3]
                  = [500; 520; 480]).
    { cbn [peak_intervals t].
      replace (t0 + 500 - t0)%Z with 500%Z by lia.
      replace (t0 + 1020 - (t0 + 500))%Z with 520%Z by lia.
      replace (t0 + 1500 - (t0 + 1020))%Z with 480%Z by lia.
      reflexivity. }
    split; [|split; [exact Hds|]].
    + unfold evaluatePeriodicity. cbn [length Nat.ltb Nat.leb].
      rewrite Hds. vm_compute. reflexivity.
    + unfold root_val. f_equal.
      replace (800 / 3)%R with (Q2R (800 # 3)) by (unfold Q2R; cbn; Lra.lra).
      apply Qeq_eqR. vm_compute. reflexivity.
  - intros. subst peaks.
    assert (Hds : peak_intervals
                    [Peak i0 t0 v0; Peak i1 (t0 + 200) v1;
                     Peak i2 (t0 + 2000) v2; Peak i3 (t0 + 2200) v3]
                  = [200; 1800; 200]).
    { cbn [peak_intervals t].
      replace (t0 + 200 - t0)%Z with 200%Z by lia.
      replace (t0 + 2000 - (t0 + 200))%Z with 1800%Z by lia.
      replace (t0 + 2200 - (t0 + 2000))%Z with 200%Z by lia.
      reflexivity. }
    split.
    + unfold evaluatePeriodicity. cbn [length Nat.ltb Nat.leb].
      rewrite Hds. vm_compute. reflexivity.
    + rewrite Hds. split; vm_compute; discriminate.
  - intros peaks Hn. unfold evaluatePeriodicity.
    apply Nat.ltb_lt in Hn. rewrite Hn. reflexivity.
Qed.

(** A single isolated peak is not periodic. *)
Lemma periodicity_test_witness :
  ok (evaluatePeriodicity [Peak 4 1000 30] 3 500) = false.
Proof.
  apply (proj2 (proj2 (proj2 (proj2 periodicity_test)))). simpl. lia.
Defined.

End PeriodicityFacts.

(** ** Delivery with retries *)

Lemma flat_map_seq_shift {A : Type} (f : nat -> list A) (a k : nat) :
  flat_map f (seq (S a) k) = flat_map (fun j => f (S j)) (seq a k).
Proof.
  revert a. induction k as [|k IH]; intros a; cbn; [reflexivity|].
  now rewrite IH.
Qed.

Section PersistFacts.

Import Persist.

Variable fetch : nat -> outcome.

(** The loop from attempt [i] with wait [w]: some [k] failed rounds, then
    either the attempts are used up, or one last request that succeeds or is
    aborted. *)
Lemma attempt_loop_shape (n i : nat) (w : Z) :
  exists k final res,
    attempt_loop fetch n i w =
      (flat_map (fun j => [Fetch (i + j); Sleep (w * 2 ^ Z.of_nat j)%Z]) (seq 0 k)
         ++ final, res)
    /\ (forall j, (j < k)%nat -> retryable (fetch (i + j)))
    /\ ((final = [] /\ k = n /\ res = false)
        \/ (final = [Fetch (i + k)] /\ (k < n)%nat
            /\ ((fetch (i + k) = Resolved true /\ res = true)
                \/ (fetch (i + k) = Rejected true /\ res = false)))).
Proof.
  revert i w. induction n as [|n IH]; intros i w.
  - exists 0%nat, [], false. cbn. repeat split; auto. intros j Hj. lia.
  - cbn [attempt_loop].
    assert (Hnow :
      forall b, exists k final res,
        (let (tr, r) := attempt_loop fetch n (S i) (w * 2)%Z in
         (Fetch i :: Sleep w :: tr, r)) =
        (flat_map (fun j => [Fetch (i + j); Sleep (w * 2 ^ Z.of_nat j)%Z]) (seq 0 k)
           ++ final, res)
        /\ (fetch i = b -> retryable b ->
            forall j, (j < k)%nat -> retryable (fetch (i + j)))
        /\ ((final = [] /\ k = S n /\ res = false)
            \/ (final = [Fetch (i + k)] /\ (k < S n)%nat
                /\ ((fetch (i + k) = Resolved true /\ res = true)
                    \/ (fetch (i + k) = Rejected true /\ res = false))))).
    { intros b. destruct (IH (S i) (w * 2)%Z) as (k & final & res & Heq & Hre & Hend).
      exists (S k), final, res. rewrite Heq. split; [|split].
      - cbn [seq flat_map app]. rewrite Nat.add_0_r.
        replace (w * 2 ^ Z.of_nat 0)%Z with w by (cbn; lia).
        rewrite flat_map_seq_shift. cbn [app]. do 4 f_equal.
        apply flat_map_ext. intros j.
        replace (S i + j)%nat with (i + S j)%nat by lia.
        replace (w * 2 * 2 ^ Z.of_nat j)%Z with (w * 2 ^ Z.of_nat (S j))%Z
          by (rewrite Nat2Z.inj_succ, Z.pow_succ_r by lia; lia).
        reflexivity.
      - intros Hb Hr [|j] Hj.
        + rewrite Nat.add_0_r, Hb. exact Hr.
        + replace (i + S j)%nat with (S i + j)%nat by lia. apply Hre. lia.
      - replace (i + S k)%nat with (S i + k)%nat by lia.
        destruct Hend as [(-> & -> & ->)|(-> & Hk & Hlast)].
        + left. repeat split; reflexivity.
        + right. repeat split; [lia | exact Hlast]. }
    destruct (fetch i) as [[|]|[|]] eqn:Hf.
    + exists 0%nat, [Fetch i], true. cbn. rewrite Nat.add_0_r.
      repeat split; [intros j Hj; lia | right; repeat split; [lia | auto]].
    + destruct (Hnow (Resolved false)) as (k & final & res & Heq & Hre & Hend).
      exists k, final, res. repeat split; auto. apply Hre; [reflexivity | now left].
    + exists 0%nat, [Fetch i], false. cbn. rewrite Nat.add_0_r.
      repeat split; [intros j Hj; lia | right; repeat split; [lia | auto]].
    + destruct (Hnow (Rejected false)) as (k & final & res & Heq & Hre & Hend).
      exists k, final, res. repeat split; auto. apply Hre; [reflexivity | now right].
Qed.

Lemma fetches_app (a b : list event) : fetches (a ++ b) = fetches a ++ fetches b.
Proof.
  induction a as [|[| |] a IH]; cbn; rewrite ?IH; reflexivity.
Qed.

Lemma sleeps_app (a b : list event) : sleeps (a ++ b) = sleeps a ++ sleeps b.
Proof.
  induction a as [|[| |] a IH]; cbn; rewrite ?IH; reflexivity.
Qed.

Lemma fetches_failed_rounds (k : nat) : fetches (failed_rounds k) = seq 0 k.
Proof.
  unfold failed_rounds. induction (seq 0 k) as [|j l IH]; [reflexivity|].
  cbn [flat_map app fetches sleeps map]. f_equal. exact IH.
Qed.

Lemma sleeps_failed_rounds (k : nat) :
  sleeps (failed_rounds k) = map backoff (seq 0 k).
Proof.
  unfold failed_rounds. induction (seq 0 k) as [|j l IH]; [reflexivity|].
  cbn [flat_map app fetches sleeps map]. f_equal. exact IH.
Qed.

Lemma sendToServer_shape (driverId : option String.string) (onLine : bool)
    (n : nat) :
  exists k final res,
    (sendToServer driverId onLine fetch n = ([], false)
     \/ sendToServer driverId onLine fetch n
        = (AbortPrevious :: failed_rounds k ++ final, res))
    /\ (forall j, (j < k)%nat -> retryable (fetch j))
    /\ ((final = [] /\ k = n /\ res = false)
        \/ (final = [Fetch k] /\ (k < n)%nat
            /\ ((fetch k = Resolved true /\ res = true)
                \/ (fetch k = Rejected true /\ res = false)))).
Proof.
  destruct (attempt_loop_shape n 0 300) as (k & final & res & Heq & Hre & Hend).
  exists k, final, res. cbn [Nat.add] in *. split; [|split; assumption].
  unfold sendToServer. destruct (falsy driverId); [now left|].
  destruct onLine; cbn [negb]; [|now left].
  right. rewrite Heq. reflexivity.
Qed.

(** With a driver id and online, the call is determined by the outcomes of
    the requests: after [k] retryable failures it ends with the attempts used
    up, with an [ok] answer or with an abort. *)
Lemma sendToServer_run (driverId : option String.string) (n k : nat) :
  falsy driverId = false ->
  (forall j, (j < k)%nat -> retryable (fetch j)) ->
  (k = n ->
   sendToServer driverId true fetch n = (AbortPrevious :: failed_rounds k, false))
  /\ ((k < n)%nat -> fetch k = Resolved true ->
      sendToServer driverId true fetch n
      = (AbortPrevious :: failed_rounds k ++ [Fetch k], true))
  /\ ((k < n)%nat -> fetch k = Rejected true ->
      sendToServer driverId true fetch n
      = (AbortPrevious :: failed_rounds k ++ [Fetch k], false)).
Proof.
  intros Hid Hre.
  destruct (sendToServer_shape driverId true n)
    as (k' & final & res & Htr & Hre' & Hend).
  assert (Hsent : sendToServer driverId true fetch n
                  = (AbortPrevious :: failed_rounds k' ++ final, res)).
  { destruct Htr as [Htr | Htr]; [|exact Htr].
    unfold sendToServer in Htr. rewrite Hid in Htr. cbn [negb] in Htr.
    destruct (attempt_loop fetch n 0 300); discriminate. }
  assert (Hnot : forall o, retryable o -> o <> Resolved true /\ o <> Rejected true)
    by (intros o [-> | ->]; split; discriminate).
  assert (Hlast : forall j, (j < n)%nat ->
                    fetch j = Resolved true \/ fetch j = Rejected true ->
                    (forall i, (i < j)%nat -> retryable (fetch i)) ->
                    k' = j /\ final = [Fetch j]
                    /\ (fetch j = Resolved true -> res = true)
                    /\ (fetch j = Rejected true -> res = false)).
  { intros j Hj Hfin Hbefore.
    destruct Hend as [(-> & -> & ->)|(-> & Hk' & Hres)].
    - destruct (Hnot _ (Hre' j Hj)) as [H1 H2]. destruct Hfin; congruence.
    - assert (k' = j).
      { destruct (Nat.lt_trichotomy k' j) as [Hlt | [Heq | Hgt]]; [|exact Heq|].
        - destruct (Hnot _ (Hbefore k' Hlt)) as [H1 H2].
          destruct Hres as [[Hf _]|[Hf _]]; congruence.
        - destruct (Hnot _ (Hre' j Hgt)) as [H1 H2]. destruct Hfin; congruence. }
      subst k'. repeat split.
      + intros Hok. destruct Hres as [[_ ->]|[Hf _]]; [reflexivity | congruence].
      + intros Hab. destruct Hres as [[Hf _]|[_ ->]]; [congruence | reflexivity]. }
  split; [|split].
  - intros ->. destruct Hend as [(-> & -> & ->)|(-> & Hk' & Hres)].
    + rewrite Hsent, app_nil_r. reflexivity.
    + destruct (Hnot _ (Hre k' Hk')) as [H1 H2].
      destruct Hres as [[Hf _]|[Hf _]]; congruence.
  - intros Hk Hok.
    destruct (Hlast k Hk (or_introl Hok) Hre) as (-> & -> & Hres & _).
    rewrite Hsent, (Hres Hok). reflexivity.
  - intros Hk Hab.
    destruct (Hlast k Hk (or_intror Hab) Hre) as (-> & -> & _ & Hres).
    rewrite Hsent, (Hres Hab). reflexivity.
Qed.

(** C7. [sendToServer] with its default of 3 attempts issues at most three
    requests.  Its trace and its result are fixed by how the requests settle:
    after [k] failures that are not aborts, each request directly followed by
    its wait of 300, 600, 1200 ms, the call ends with [false] once three
    attempts have failed, with [true] at the first [ok] answer, and with
    [false] and no further request or wait at an abort.  When the browser is
    offline, or no driver id is set, nothing is sent and the result is
    [false]. *)
Theorem sendToServer_retry_policy (driverId : option String.string) :
  (forall onLine,
      (length (fetches (fst (sendToServer driverId onLine fetch default_attempts)))
       <= 3)%nat
      /\ exists k final res,
          (k + length final <= 3)%nat
          /\ (sendToServer driverId onLine fetch default_attempts = ([], false)
              \/ sendToServer driverId onLine fetch default_attempts
                 = (AbortPrevious :: failed_rounds k ++ final, res))
          /\ (forall j, (j < k)%nat -> retryable (fetch j))
          /\ ((final = [] /\ k = 3%nat /\ res = false)
              \/ (final = [Fetch k] /\ (k < 3)%nat
                  /\ ((fetch k = Resolved true /\ res = true)
                      \/ (fetch k = Rejected true /\ res = false)))))
  /\ failed_rounds 3
     = [Fetch 0; Sleep 300; Fetch 1; Sleep 600; Fetch 2; Sleep 1200]
  /\ (forall k,
         (k < 3)%nat -> falsy driverId = false ->
         (forall j, (j < k)%nat -> retryable (fetch j)) ->
         fetch k = Rejected true ->
         sendToServer driverId true fetch default_attempts
         = (AbortPrevious :: failed_rounds k ++ [Fetch k], false))
  /\ (forall k,
         (k < 3)%nat -> falsy driverId = false ->
         (forall j, (j < k)%nat -> retryable (fetch j)) ->
         fetch k = Resolved true ->
         sendToServer driverId true fetch default_attempts
         = (AbortPrevious :: failed_rounds k ++ [Fetch k], true))
  /\ (falsy driverId = false ->
      (forall j, (j < 3)%nat -> retryable (fetch j)) ->
      sendToServer driverId true fetch default_attempts
      = ([AbortPrevious; Fetch 0; Sleep 300; Fetch 1; Sleep 600; Fetch 2; Sleep 1200],
         false))
  /\ sendToServer driverId false fetch default_attempts = ([], false)
  /\ (falsy driverId = true ->
      forall onLine,
        sendToServer driverId onLine fetch default_attempts = ([], false)).
Proof.
  split; [|split; [|split; [|split; [|split; [|split]]]]].
  - intros onLine.
    destruct (sendToServer_shape driverId onLine default_attempts)
      as (k & final & res & Htr & Hre & Hend).
    assert (Hlen : (k + length final <= 3)%nat).
    { destruct Hend as [(-> & -> & _)|(-> & Hk & _)]; cbn; unfold default_attempts in *; lia. }
    split.
    + destruct Htr as [-> | ->]; cbn [fst fetches length]; [lia|].
      rewrite fetches_app, length_app, fetches_failed_rounds, length_seq.
      destruct Hend as [(-> & _)|(-> & _)]; cbn in *; lia.
    + exists k, final, res. split; [exact Hlen|]. split; [exact Htr|].
      split; [exact Hre | exact Hend].
  - reflexivity.
  - intros k Hk Hid Hre Habort.
    now apply (sendToServer_run driverId default_attempts k Hid Hre).
  - intros k Hk Hid Hre Hok.
    now apply (sendToServer_run driverId default_attempts k Hid Hre).
  - intros Hid Hre.
    exact (proj1 (sendToServer_run driverId default_attempts 3 Hid Hre) eq_refl).
  - unfold sendToServer. destruct (falsy driverId); reflexivity.
  - intros Hid onLine. unfold sendToServer. rewrite Hid. reflexivity.
Qed.

End PersistFacts.

(** The second request is aborted after a first one that failed: the call
    ends with [false] after two requests and one wait of 300 ms. *)
Lemma sendToServer_retry_policy_witness :
  Persist.sendToServer (Some "d1"%string) true
    (fun i => match i with
              | O => Persist.Resolved false
              | _ => Persist.Rejected true
              end)
    Persist.default_attempts
  = ([Persist.AbortPrevious; Persist.Fetch 0; Persist.Sleep 300; Persist.Fetch 1],
     false).
Proof.
  apply (proj1 (proj2 (proj2
           (sendToServer_retry_policy
              (fun i => match i with
                        | O => Persist.Resolved false
                        | _ => Persist.Rejected true
                        end)
              (Some "d1"%string)))) 1%nat).
  - lia.
  - reflexivity.
  - intros j Hj. assert (j = 0%nat) as -> by lia. left. reflexivity.
  - reflexivity.
Defined.

(** ** Fusion and smoothing *)

Section FusionFacts.

Import JsNum Monitor.

Lemma smooth_fin (prev raw : Q) :
  smooth (Fin prev) (Fin raw)
  = Fin (prev * (1 - SMOOTH_ALPHA) + raw * SMOOTH_ALPHA).
Proof. reflexivity. Qed.

Lemma pow_succ_04 (n : nat) :
  0.4 ^ Z.of_nat (S n) == 0.4 * 0.4 ^ Z.of_nat n.
Proof.
  rewrite Nat2Z.inj_succ. unfold Z.succ.
  rewrite Qpower_plus by (intro H; discriminate H).
  change (0.4 ^ 1) with 0.4. ring.
Qed.

Lemma pow_04_nonneg (n : nat) : 0 <= 0.4 ^ Z.of_nat n.
Proof. apply Qpower_0_le. discriminate. Qed.

(** The distance to the raw score shrinks by the factor 0.4 on every run. *)
Lemma ema_after_distance (n : nat) (s0 r : Q) :
  exists q,
    ema_after n (Fin s0) (Fin r) = Fin q
    /\ q - r == 0.4 ^ Z.of_nat n * (s0 - r).
Proof.
  induction n as [|n (q & Hq & Hd)].
  - exists s0. split; [reflexivity|]. change (0.4 ^ Z.of_nat 0) with 1. ring.
  - exists (q * (1 - SMOOTH_ALPHA) + r * SMOOTH_ALPHA). split.
    + cbn [ema_after]. rewrite Hq. apply smooth_fin.
    + rewrite pow_succ_04. unfold SMOOTH_ALPHA.
      setoid_replace (q * (1 - 0.6) + r * 0.6 - r) with (0.4 * (q - r)) by ring.
      rewrite Hd. ring.
Qed.

Lemma pow_04_bound (n : nat) :
  0.4 ^ Z.of_nat n * inject_Z (Z.of_nat n + 1) <= 1.
Proof.
  induction n as [|n IH].
  - cbn. discriminate.
  - rewrite pow_succ_04.
    replace (Z.of_nat (S n) + 1)%Z with ((Z.of_nat n + 1) + 1)%Z by lia.
    rewrite (inject_Z_plus (Z.of_nat n + 1) 1).
    pose proof (pow_04_nonneg n) as Hp.
    assert (Hx : 1 <= inject_Z (Z.of_nat n + 1)).
    { change 1 with (inject_Z 1). rewrite <- Zle_Qle. lia. }
    revert IH Hp Hx.
    generalize (0.4 ^ Z.of_nat n) as p, (inject_Z (Z.of_nat n + 1)) as x.
    intros p x IH Hp Hx. change (inject_Z 1) with 1.
    assert (0 <= p * (x - 1)) by (apply Qmult_le_0_compat; lra).
    lra.
Qed.

(** The factor [0.4 ^ n] scaled by any distance eventually drops below any
    positive bound. *)
Lemma pow_04_vanishes (d eps : Q) :
  0 <= d -> 0 < eps ->
  exists N, forall n, (N <= n)%nat -> 0.4 ^ Z.of_nat n * d < eps.
Proof.
  intros Hd Heps. exists (Z.to_nat (Qceiling (d / eps))).
  intros n Hn.
  pose proof (pow_04_nonneg n) as Hp. pose proof (pow_04_bound n) as Hb.
  assert (Hx : d / eps < inject_Z (Z.of_nat n + 1)).
  { apply Qle_lt_trans with (1 := Qle_ceiling _).
    rewrite <- Zlt_Qlt. lia. }
  assert (Hdx : d < inject_Z (Z.of_nat n + 1) * eps).
  { setoid_replace d with (d / eps * eps)
      by (field; intro E; rewrite E in Heps; revert Heps; apply Qlt_irrefl).
    apply Qmult_lt_r; assumption. }
  revert Hp Hb Hdx.
  generalize (0.4 ^ Z.of_nat n) as p, (inject_Z (Z.of_nat n + 1)) as x.
  intros p x Hp Hb Hdx.
  destruct (Qeq_dec p 0) as [Hz | Hnz].
  - rewrite Hz. lra.
  - assert (Hpos : 0 < p) by (destruct (Qlt_le_dec 0 p); [assumption|]; exfalso; apply Hnz; lra).
    apply Qlt_le_trans with (p * (x * eps)).
    + apply Qmult_lt_l; assumption.
    + setoid_replace (p * (x * eps)) with (p * x * eps) by ring.
      setoid_replace eps with (1 * eps) at 2 by ring.
      apply Qmult_le_compat_r; lra.
Qed.

(** C8. Under a constant raw score [r] the smoothed score after [n] runs is at
    distance [0.4 ^ n * |score_0 - r|] from [r], and this distance falls below
    every positive bound from some run on: the score converges to [r]. *)
Theorem ema_converges (s0 r : Q) :
  (forall n,
      exists q,
        ema_after n (Fin s0) (Fin r) = Fin q
        /\ Qabs (q - r) == 0.4 ^ Z.of_nat n * Qabs (s0 - r))
  /\ (forall eps,
         0 < eps ->
         exists N, forall n, (N <= n)%nat ->
           forall q, ema_after n (Fin s0) (Fin r) = Fin q -> Qabs (q - r) < eps).
Proof.
  split.
  - intros n. destruct (ema_after_distance n s0 r) as (q & Hq & Hd).
    exists q. split; [exact Hq|].
    rewrite Hd, Qabs_Qmult, (Qabs_pos _ (pow_04_nonneg n)). reflexivity.
  - intros eps Heps.
    destruct (pow_04_vanishes (Qabs (s0 - r)) eps (Qabs_nonneg _) Heps) as [N HN].
    exists N. intros n Hn q Hq.
    destruct (ema_after_distance n s0 r) as (q' & Hq' & Hd).
    rewrite Hq in Hq'. injection Hq' as <-.
    rewrite Hd, Qabs_Qmult, (Qabs_pos _ (pow_04_nonneg n)).
    now apply HN.
Qed.

End FusionFacts.

(** From score 0 under the constant raw score 1 the distance to 1 falls below
    one hundredth from some run on. *)
Lemma ema_converges_witness :
  exists N, forall n, (N <= n)%nat ->
    forall q, Monitor.ema_after n (JsNum.Fin 0) (JsNum.Fin 1) = JsNum.Fin q ->
              Qabs (q - 1) < 1 # 100.
Proof.
  apply (proj2 (ema_converges 0 1)). reflexivity.
Defined.

(** ** The effect run, field by field *)

(** Opens the body of a processed [tick]: takes the branch past the interval
    gate and names the results of the three blocks that return tuples. *)
Ltac open_tick Hp :=
  unfold Monitor.processed in Hp; rewrite negb_true_iff in Hp;
  unfold Monitor.tick; rewrite Hp;
  destruct (Monitor.eye_tick _ _ _ _ _ _) as [[[? ?] ?] ?] eqn:?;
  destruct (Monitor.head_tick _ _ _) as [? ?];
  destruct (Monitor.sound_tick _ _ _ _) as [? ?].

Section TickFacts.

Import JsNum Monitor.

Lemma processed_gate (st : state) (f : frame) :
  processed st (Some f) = true ->
  (nowTs f - lastUpdate st <? UPDATE_MS)%Z = false.
Proof. unfold processed. now rewrite negb_true_iff. Qed.

Lemma not_processed_tick (st : state) (input : option frame) :
  processed st input = false -> tick st input = st.
Proof.
  destruct input as [f|]; [|reflexivity].
  unfold processed, tick. rewrite negb_false_iff. now intros ->.
Qed.

Lemma closedSum_from (buf : list PercEntry) (acc : Q) :
  fold_left (fun s x => s + (if p_closed x then 1 else 0)) buf acc
  == acc + inject_Z (Z.of_nat (closedCount buf)).
Proof.
  revert acc. induction buf as [|e rest IH]; intros acc.
  - cbn. ring.
  - cbn [fold_left]. rewrite IH. unfold closedCount. cbn [filter].
    destruct (p_closed e).
    + cbn [length]. rewrite Nat2Z.inj_succ. unfold Z.succ.
      rewrite inject_Z_plus. ring.
    + ring.
Qed.

(** The sum of the 0/1 flags is the number of closed samples. *)
Lemma closedSum_count (buf : list PercEntry) :
  closedSum buf == inject_Z (Z.of_nat (closedCount buf)).
Proof. unfold closedSum. rewrite closedSum_from. ring. Qed.

Lemma closedCount_le (buf : list PercEntry) :
  (closedCount buf <= length buf)%nat.
Proof. apply filter_length_le. Qed.

Lemma perclos_of_range (buf : list PercEntry) : 0 <= perclos_of buf <= 1.
Proof.
  unfold perclos_of. rewrite closedSum_count.
  pose proof (closedCount_le buf) as Hc.
  assert (Hd : 0 < inject_Z (Z.max 1 (Z.of_nat (length buf)))).
  { change 0 with (inject_Z 0). rewrite <- Zlt_Qlt. lia. }
  split.
  - apply Qle_shift_div_l; [exact Hd|]. rewrite Qmult_0_l.
    change 0 with (inject_Z 0). rewrite <- Zle_Qle. lia.
  - apply Qle_shift_div_r; [exact Hd|]. rewrite Qmult_1_l.
    rewrite <- Zle_Qle. lia.
Qed.

Lemma clamp_Q_range (x : Q) : 0 <= Qmax 0 (Qmin 1 x) <= 1.
Proof.
  split.
  - apply Q.le_max_l.
  - apply Q.max_lub; [discriminate | apply Q.le_min_l].
Qed.

Lemma perclosComponent_range (buf : list PercEntry) :
  0 <= Qmin 1 (perclos_of buf / PERCLOS_ALERT) <= 1.
Proof.
  split; [|apply Q.le_min_l].
  apply Q.min_glb; [discriminate|].
  apply Qle_shift_div_l; [reflexivity|]. rewrite Qmult_0_l.
  apply perclos_of_range.
Qed.

(** What a processed run does to the fusion fields: the new smoothed score is
    [smooth] of the old one and of [fuse] of five components, of which the
    eye, PERCLOS and sound components are always inside [0, 1]; the status is
    [status_of] of the new score; the published score is the new score or the
    one published before. *)
Lemma tick_fusion (st : state) (f : frame) :
  processed st (Some f) = true ->
  exists e p m h s,
    unit_range e /\ unit_range p /\ unit_range s
    /\ emaRef (tick st (Some f)) = smooth (emaRef st) (fuse e p m h s)
    /\ status (tick st (Some f)) = status_of (emaRef (tick st (Some f)))
    /\ (drowsyScore (tick st (Some f)) = emaRef (tick st (Some f))
        \/ drowsyScore (tick st (Some f)) = drowsyScore st).
Proof.
  intros Hp. open_tick Hp.
  cbn [emaRef status drowsyScore].
  eexists (Fin _), (Fin _), _, _, (Fin _).
  split; [|split; [|split; [|split; [reflexivity|split; [reflexivity|]]]]].
  - cbn. destruct (_ <=? _)%Z; [split; discriminate|].
    destruct (if prevEyesClosed st then _ else _); split; discriminate.
  - apply perclosComponent_range.
  - apply clamp_Q_range.
  - destruct (gt _ _); [left | right]; reflexivity.
Qed.

(** The fusion of a processed run with every component spelled out: the eye
    component from the classification of the run and the time since the eyes
    last changed, the PERCLOS component from the pruned buffer, the mouth and
    head components from the frame and the pitch velocity, the sound
    component from the clamped sound score. *)
Lemma tick_fusion_exact (st : state) (f : frame) :
  processed st (Some f) = true ->
  let st' := tick st (Some f) in
  let eyesCurrentlyClosed := prevEyesClosed st' in
  let continuousClosedMs :=
    if eyesCurrentlyClosed
    then (nowTs f - lastChangeTs (lastEyeState st'))%Z else 0%Z in
  let continuousCloseTriggered := (500 <=? continuousClosedMs)%Z in
  let eyesInstant :=
    if continuousCloseTriggered then 1
    else if eyesCurrentlyClosed then 0.9 else 0 in
  let perclosComponent := Qmin 1 (perclos_of (percBuffer st') / 0.12) in
  let marComponent := min (Fin 1) (div (MAR f) (Fin 0.55)) in
  let pitchVel := snd (head_tick (head st) (nowTs f) (pitchDeg f)) in
  let headComponent :=
    if headNodDetected (pitchDeg f) pitchVel then Fin 1
    else min (Fin 1) (max (Fin 0) (div (pitchDeg f) (Fin 30))) in
  let soundComponent :=
    Qmax 0 (Qmin 1 (fst (sound_tick (envelope f) (times f) (clock f)
                                    (bandEnergyLow f)))) in
  emaRef st'
  = smooth (emaRef st)
      (fuse (Fin eyesInstant) (Fin perclosComponent) marComponent headComponent
            (Fin soundComponent))
  /\ status st' = status_of (emaRef st')
  /\ drowsyScore st'
     = (if gt (abs (sub (orElse (pv_drowsyScore (prevValues st)) (Fin 0))
                        (emaRef st')))
              (Fin 0.005)
        then emaRef st' else drowsyScore st).
Proof.
  intros Hp. cbn zeta. open_tick Hp.
  cbn [emaRef status drowsyScore prevEyesClosed lastEyeState percBuffer fst snd].
  repeat split.
Qed.

End TickFacts.

(** ** Reachable states *)

Section Reachability.

Import JsNum Monitor.

Lemma run_preserves (P : state -> Prop) :
  (forall st ev, P st -> P (step st ev)) ->
  forall events st, P st -> P (run st events).
Proof.
  intros Hstep. induction events as [|ev rest IH]; intros st Hst; cbn.
  - exact Hst.
  - apply IH, Hstep, Hst.
Qed.

(** Induction over the reachable states. *)
Lemma reachable_ind (P : state -> Prop) :
  (forall mountTs, P (init mountTs)) ->
  (forall st ev, P st -> P (step st ev)) ->
  forall st, reachable st -> P st.
Proof.
  intros Hinit Hstep st (mountTs & events & ->).
  apply run_preserves; [exact Hstep | apply Hinit].
Qed.

Lemma reachable_init (mountTs : Z) : reachable (init mountTs).
Proof. exists mountTs, []. reflexivity. Qed.

Lemma run_app (st : state) (a b : list event) :
  run st (a ++ b) = run (run st a) b.
Proof. apply fold_left_app. Qed.

Lemma reachable_step (st : state) (ev : event) :
  reachable st -> reachable (step st ev).
Proof.
  intros (mountTs & events & ->). exists mountTs, (events ++ [ev]).
  now rewrite run_app.
Qed.

End Reachability.

Section ScoreFacts.

Import JsNum Monitor.

Lemma fuse_unit_range (e p m h s : num) : unit_range (fuse e p m h s).
Proof.
  unfold fuse. destruct (weighted_sum e p m h s) as [q| | |]; cbn [isFinite];
    apply clamp_unit_range; discriminate.
Qed.

Lemma smooth_unit_range (prev raw : num) :
  unit_range prev -> unit_range raw -> unit_range (smooth prev raw).
Proof.
  destruct prev as [a| | |], raw as [b| | |]; cbn [unit_range]; try tauto.
  intros Ha Hb. rewrite smooth_fin. cbn [unit_range]. unfold SMOOTH_ALPHA.
  split; lra.
Qed.

(** The score invariant of the hook. *)
Lemma score_invariant (st : state) :
  reachable st -> unit_range (emaRef st) /\ unit_range (drowsyScore st).
Proof.
  revert st. apply reachable_ind.
  - intros mountTs. cbn. split; split; discriminate.
  - intros st [input|now| |] [Hema Hpub]; cbn [step];
      try (split; assumption).
    destruct (processed st input) eqn:Hp.
    + destruct input as [f|]; [|discriminate].
      destruct (tick_fusion st f Hp) as (e & p & m & h & s & _ & _ & _ & He & _ & Hd).
      assert (Hnew : unit_range (emaRef (tick st (Some f)))).
      { rewrite He. apply smooth_unit_range; [exact Hema | apply fuse_unit_range]. }
      split; [exact Hnew|]. destruct Hd as [-> | ->]; assumption.
    + rewrite not_processed_tick by exact Hp. split; assumption.
Qed.

(** The fusion formulas on finite numbers. *)
Lemma fuse_smooth_fin (eyes perclos mar head sound prev : Q) :
  exists raw score,
    fuse (Fin eyes) (Fin perclos) (Fin mar) (Fin head) (Fin sound) = Fin raw
    /\ raw == Qmax 0 (Qmin 1 (0.8 * eyes + 0.5 * perclos + 0.35 * mar
                              + 0.4 * head + 0.25 * sound))
    /\ smooth (Fin prev) (Fin raw) = Fin score
    /\ score == prev * 0.4 + raw * 0.6
    /\ (status_of (Fin score) = DROWSY <-> 0.5 < score)
    /\ (status_of (Fin score) = AWAKE <-> score <= 0.5).
Proof.
  unfold fuse, weighted_sum. cbn [mul add isFinite].
  set (x := W_EYES * eyes + W_PERCLOS * perclos + W_MAR * mar
            + W_HEAD * head + W_SOUND * sound).
  destruct (min_fin 1 x) as (c & Hc & Hcq). rewrite Hc.
  destruct (max_fin 0 c) as (raw & Hraw & Hrq). rewrite Hraw.
  exists raw, (prev * (1 - SMOOTH_ALPHA) + raw * SMOOTH_ALPHA).
  split; [reflexivity|]. split; [|split; [reflexivity|split; [|split]]].
  - rewrite Hrq, Hcq. reflexivity.
  - unfold SMOOTH_ALPHA. ring.
  - unfold status_of, gt, lt. rewrite <- Qltb_true.
    destruct (Qltb 0.5 _); split; intros; congruence.
  - unfold status_of, gt, lt. rewrite <- Qltb_false.
    destruct (Qltb 0.5 _); split; intros; congruence.
Qed.

(** C1. On a processed run the hook fuses the five components of that run:
    the eye component (1 on a continuous close of at least 500 ms, 0.9 on
    closed eyes, 0 otherwise), the PERCLOS component [min(1, perclos / 0.12)]
    of the pruned buffer, the mouth component [min(1, MAR / 0.55)], the head
    component (1 on a nod, the clamped [pitchDeg / 30] otherwise) and the
    clamped sound score.  It sets the smoothed score to [smooth] of the
    previous one and of the fused raw score and the status to [status_of] of
    the result.  When the previous score and the mouth and head components
    are finite, the raw score is [0.8 eyes + 0.5 perclos + 0.35 mar +
    0.4 head + 0.25 sound] clamped to [0, 1], the smoothed score is
    [prev * 0.4 + raw * 0.6], and the status is DROWSY exactly when the
    smoothed score is strictly above 0.5, AWAKE otherwise. *)
Theorem fusion_score_and_status :
  (forall st f,
      processed st (Some f) = true ->
      let st' := tick st (Some f) in
      let eyesCurrentlyClosed :=
        if prevEyesClosed st then lt (EAR f) (EAR_OPEN_REF (calib st'))
        else lt (EAR f) (EAR_CLOSED_REF (calib st')) in
      let lastChange := lastChangeTs (lastEyeState st') in
      let continuousClosedMs :=
        if eyesCurrentlyClosed then (nowTs f - lastChange)%Z else 0%Z in
      let continuousCloseTriggered := (500 <=? continuousClosedMs)%Z in
      let eyesInstant :=
        if continuousCloseTriggered then 1
        else if eyesCurrentlyClosed then 0.9 else 0 in
      let perclos := perclos_of (percBuffer st') in
      let perclosComponent := Qmin 1 (perclos / 0.12) in
      let marComponent := min (Fin 1) (div (MAR f) (Fin 0.55)) in
      let pitchVel := snd (head_tick (head st) (nowTs f) (pitchDeg f)) in
      let headComponent :=
        if headNodDetected (pitchDeg f) pitchVel then Fin 1
        else min (Fin 1) (max (Fin 0) (div (pitchDeg f) (Fin 30))) in
      let soundComponent :=
        Qmax 0 (Qmin 1 (fst (sound_tick (envelope f) (times f) (clock f)
                                        (bandEnergyLow f)))) in
      prevEyesClosed st' = eyesCurrentlyClosed
      /\ percBuffer st'
         = prune (nowTs f - 30000)%Z
                 (percBuffer st
                    ++ [{| ts := nowTs f; p_closed := eyesCurrentlyClosed |}])
      /\ emaRef st'
         = smooth (emaRef st)
             (fuse (Fin eyesInstant) (Fin perclosComponent) marComponent
                   headComponent (Fin soundComponent))
      /\ status st' = status_of (emaRef st')
      /\ drowsyScore st'
         = (if gt (abs (sub (orElse (pv_drowsyScore (prevValues st)) (Fin 0))
                            (emaRef st')))
                  (Fin 0.005)
            then emaRef st' else drowsyScore st)
      /\ forall prev mar head,
           emaRef st = Fin prev -> marComponent = Fin mar ->
           headComponent = Fin head ->
           exists raw score,
             raw == Qmax 0 (Qmin 1 (0.8 * eyesInstant + 0.5 * perclosComponent
                                    + 0.35 * mar + 0.4 * head
                                    + 0.25 * soundComponent))
             /\ score == prev * 0.4 + raw * 0.6
             /\ emaRef st' = Fin score
             /\ (status st' = DROWSY <-> 0.5 < score)
             /\ (status st' = AWAKE <-> score <= 0.5))
  /\ (forall eyes perclos mar head sound prev : Q,
         exists raw score,
           fuse (Fin eyes) (Fin perclos) (Fin mar) (Fin head) (Fin sound) = Fin raw
           /\ raw == Qmax 0 (Qmin 1 (0.8 * eyes + 0.5 * perclos + 0.35 * mar
                                     + 0.4 * head + 0.25 * sound))
           /\ smooth (Fin prev) (Fin raw) = Fin score
           /\ score == prev * 0.4 + raw * 0.6
           /\ (status_of (Fin score) = DROWSY <-> 0.5 < score)
           /\ (status_of (Fin score) = AWAKE <-> score <= 0.5)).
Proof.
  split; [|apply fuse_smooth_fin].
  intros st f Hp. cbn zeta.
  destruct (tick_fusion_exact st f Hp) as (Hema & Hstatus & Hpub).
  cbn zeta in Hema, Hpub.
  assert (Hcls : prevEyesClosed (tick st (Some f))
                 = (if prevEyesClosed st
                    then lt (EAR f) (EAR_OPEN_REF (calib (tick st (Some f))))
                    else lt (EAR f) (EAR_CLOSED_REF (calib (tick st (Some f)))))).
  { clear Hema Hstatus Hpub. open_tick Hp. reflexivity. }
  assert (Hbuf : percBuffer (tick st (Some f))
                 = prune (nowTs f - 30000)%Z
                         (percBuffer st
                            ++ [{| ts := nowTs f;
                                   p_closed := prevEyesClosed (tick st (Some f)) |}])).
  { clear Hema Hstatus Hpub Hcls. open_tick Hp. reflexivity. }
  rewrite <- Hcls.
  split; [reflexivity|]. split; [exact Hbuf|]. split; [exact Hema|].
  split; [exact Hstatus|]. split; [exact Hpub|].
  intros prev mar head Hprev Hmar Hhead.
  rewrite Hstatus, Hema, Hprev, Hmar, Hhead.
  destruct (fuse_smooth_fin
              (if (500 <=? (if prevEyesClosed (tick st (Some f))
                            then nowTs f - lastChangeTs (lastEyeState (tick st (Some f)))
                            else 0))%Z
               then 1 else if prevEyesClosed (tick st (Some f)) then 0.9 else 0)
              (Qmin 1 (perclos_of (percBuffer (tick st (Some f))) / 0.12))
              mar head
              (Qmax 0 (Qmin 1 (fst (sound_tick (envelope f) (times f) (clock f)
                                               (bandEnergyLow f)))))
              prev)
    as (raw & score & Hf & Hraw & Hs & Hscore & Hd & Ha).
  exists raw, score. rewrite Hf, Hs.
  repeat split; try assumption; try apply Hd; try apply Ha.
Qed.

(** C9. Whatever the component values, non-finite ones included, the fused
    raw score is a finite number in [0, 1], and it is 0 when the weighted sum
    is not finite; smoothing two numbers of [0, 1] stays in [0, 1]; hence in
    every reachable state the smoothed score and the published score are
    finite and inside [0, 1]. *)
Theorem score_stays_finite :
  (forall e p m h s, unit_range (fuse e p m h s))
  /\ (forall e p m h s,
         isFinite (weighted_sum e p m h s) = false -> fuse e p m h s = Fin 0)
  /\ (forall prev raw,
         unit_range prev -> unit_range raw -> unit_range (smooth prev raw))
  /\ (forall st,
         reachable st -> unit_range (emaRef st) /\ unit_range (drowsyScore st)).
Proof.
  split; [|split; [|split]].
  - apply fuse_unit_range.
  - intros e p m h s Hnf. unfold fuse. rewrite Hnf. reflexivity.
  - apply smooth_unit_range.
  - apply score_invariant.
Qed.

End ScoreFacts.

(** A frame whose three geometric features are all NaN. *)
Lemma score_stays_finite_witness :
  JsNum.unit_range
    (Monitor.drowsyScore
       (Monitor.run (Monitor.init 0)
          [Monitor.Effect
             (Some {| Monitor.nowTs := 1000; Monitor.EAR := JsNum.NaN;
                      Monitor.MAR := JsNum.NaN; Monitor.pitchDeg := JsNum.NaN;
                      Monitor.envelope := []; Monitor.times := [];
                      Monitor.bandEnergyLow := 0;
                      Monitor.clock := fun _ => 0%Z |})])).
Proof.
  apply (proj2 (proj2 (proj2 score_stays_finite))).
  exists 0%Z. eexists. reflexivity.
Defined.

(** The first processed run on the freshly mounted hook sees closed eyes:
    the eye component is 0.9 and the PERCLOS component 1, the raw score is
    clamped to 1, the smoothed score is 0.6 and the status DROWSY. *)
Lemma fusion_score_and_status_witness :
  Monitor.status
    (Monitor.tick (Monitor.init 0) (Some (Monitor.plain_frame 1000 0.2)))
  = Monitor.DROWSY.
Proof.
  destruct (proj1 fusion_score_and_status (Monitor.init 0)
                  (Monitor.plain_frame 1000 0.2) eq_refl)
    as (_ & _ & _ & _ & _ & H).
  destruct (H 0 (0.1 / 0.55) (0 / 30) eq_refl eq_refl eq_refl)
    as (raw & score & Hraw & Hscore & _ & Hd & _).
  apply Hd. rewrite Hscore, Hraw. vm_compute. reflexivity.
Defined.

(** ** Calibration *)

Section CalibrationFacts.

Import JsNum Monitor.

Lemma sum_fin (qs : list Q) (acc : Q) :
  fold_left add (map Fin qs) (Fin acc)
  = Fin (fold_left (fun s x => s + x) qs acc).
Proof.
  revert acc. induction qs as [|q rest IH]; intros acc; cbn; [reflexivity|].
  apply IH.
Qed.

(** On finite samples the average of the code is the rational mean. *)
Lemma average_fin (qs : list Q) :
  qs <> [] -> average (map Fin qs) = Fin (Stats.mean qs).
Proof.
  intros Hne. unfold average, Stats.mean, Stats.sum, Stats.len, ofNat.
  rewrite sum_fin, length_map. cbn [div].
  destruct (Qeq_bool _ 0) eqn:E; [|reflexivity].
  apply Qeq_bool_iff in E. exfalso.
  destruct qs as [|q rest]; [congruence|].
  unfold Qeq in E. cbn in E. lia.
Qed.

(** C4. [stopCalibration] with at least one sample sets the closed threshold
    to [max(0.12, mean * 0.6)] and the open threshold to
    [max(closed + 0.04, mean * 0.75)], [mean] being the average of the
    samples (for finite samples their rational mean), and sets the progress
    to 1; with no sample it leaves both thresholds as they are and still sets
    the progress to 1. *)
Theorem stopCalibration_thresholds (c : Calibration) :
  (calibrationSamples c <> [] ->
   let mean := average (calibrationSamples c) in
   EAR_CLOSED_REF (stopCalibration c) = max (Fin 0.12) (mul mean (Fin 0.6))
   /\ EAR_OPEN_REF (stopCalibration c)
      = max (add (EAR_CLOSED_REF (stopCalibration c)) (Fin 0.04))
            (mul mean (Fin 0.75))
   /\ calibrationProgress (stopCalibration c) = 1)
  /\ (forall qs,
         qs <> [] -> calibrationSamples c = map Fin qs ->
         exists earClosed earOpen,
           EAR_CLOSED_REF (stopCalibration c) = Fin earClosed
           /\ EAR_OPEN_REF (stopCalibration c) = Fin earOpen
           /\ earClosed == Qmax 0.12 (Stats.mean qs * 0.6)
           /\ earOpen == Qmax (earClosed + 0.04) (Stats.mean qs * 0.75))
  /\ (calibrationSamples c = [] ->
      EAR_CLOSED_REF (stopCalibration c) = EAR_CLOSED_REF c
      /\ EAR_OPEN_REF (stopCalibration c) = EAR_OPEN_REF c
      /\ calibrationProgress (stopCalibration c) = 1).
Proof.
  split; [|split].
  - intros Hne. unfold stopCalibration.
    destruct (calibrationSamples c) as [|x rest]; [congruence|].
    cbn [EAR_CLOSED_REF EAR_OPEN_REF calibrationProgress]. repeat split.
  - intros qs Hne Hqs. unfold stopCalibration. rewrite Hqs.
    destruct (map Fin qs) as [|x rest] eqn:Hm.
    { destruct qs; [congruence | discriminate]. }
    rewrite <- Hm. cbn [EAR_CLOSED_REF EAR_OPEN_REF].
    rewrite (average_fin qs Hne). cbn [mul].
    destruct (max_fin 0.12 (Stats.mean qs * 0.6)) as (cl & Hcl & Hclq).
    rewrite Hcl. cbn [add].
    destruct (max_fin (cl + 0.04) (Stats.mean qs * 0.75)) as (op & Hop & Hopq).
    rewrite Hop. exists cl, op. repeat split; assumption.
  - intros Hnil. unfold stopCalibration. rewrite Hnil.
    cbn [EAR_CLOSED_REF EAR_OPEN_REF calibrationProgress]. repeat split.
Qed.

End CalibrationFacts.

(** Ten samples averaging 0.30 give the thresholds 0.18 and 0.225. *)
Lemma stopCalibration_thresholds_witness :
  let qs := [0.28; 0.32; 0.30; 0.29; 0.31; 0.30; 0.27; 0.33; 0.30; 0.30] in
  let c := {| Monitor.calibrating := true;
              Monitor.calibrationStartTs := Some 0%Z;
              Monitor.calibrationSamples := map JsNum.Fin qs;
              Monitor.baselineEar := None;
              Monitor.EAR_CLOSED_REF := JsNum.Fin 0.26;
              Monitor.EAR_OPEN_REF := JsNum.Fin 0.3;
              Monitor.calibrationProgress := 0.5 |} in
  Stats.mean qs == 0.30
  /\ exists earClosed earOpen,
       Monitor.EAR_CLOSED_REF (Monitor.stopCalibration c) = JsNum.Fin earClosed
       /\ Monitor.EAR_OPEN_REF (Monitor.stopCalibration c) = JsNum.Fin earOpen
       /\ earClosed == 0.18 /\ earOpen == 0.225.
Proof.
  intros qs c. split; [reflexivity|].
  destruct (proj1 (proj2 (stopCalibration_thresholds c)) qs)
    as (cl & op & Hcl & Hop & Hclq & Hopq).
  - discriminate.
  - reflexivity.
  - exists cl, op. split; [exact Hcl|]. split; [exact Hop|].
    assert (Hc : cl == 0.18) by (rewrite Hclq; reflexivity).
    split; [exact Hc|]. rewrite Hopq, Hc. reflexivity.
Defined.

(** ** Blinks *)

Section BlinkFacts.

Import JsNum Monitor.

(** The eye fields after a processed run, in terms of [eye_tick]. *)
Lemma tick_eye (st : state) (f : frame) :
  processed st (Some f) = true ->
  let st' := tick st (Some f) in
  let r := eye_tick (lastEyeState st) (longBlinkCount st) (blinkCount st)
                    (blinkDetected st) (nowTs f) (prevEyesClosed st') in
  lastEyeState st' = fst (fst (fst r))
  /\ longBlinkCount st' = snd (fst (fst r))
  /\ blinkDetected st' = snd r
  /\ blinkCount st'
     = (if negb (orElse (pv_blinkCount (prevValues st)) 0 =? longBlinkCount st')%Z
        then longBlinkCount st' else snd (fst r))
  /\ pv_blinkCount (prevValues st')
     = (if negb (orElse (pv_blinkCount (prevValues st)) 0 =? longBlinkCount st')%Z
        then Some (longBlinkCount st') else pv_blinkCount (prevValues st)).
Proof.
  intros Hp. open_tick Hp.
  cbn [lastEyeState longBlinkCount blinkDetected blinkCount prevValues
       pv_blinkCount prevEyesClosed].
  match goal with He : eye_tick _ _ _ _ _ _ = _ |- _ => rewrite He end.
  cbn [fst snd]. repeat split.
Qed.

(** [eye_tick] always leaves the state at the classification of the run. *)
Lemma eye_tick_closed (es : EyeState) (lb bc : Z) (bd : bool) (now : Z)
    (c : bool) :
  closed (fst (fst (fst (eye_tick es lb bc bd now c)))) = c.
Proof.
  unfold eye_tick. destruct (Bool.eqb c (closed es)) eqn:E.
  - cbn. symmetry. now apply eqb_prop.
  - destruct (closed es); [destruct (_ && _)|]; reflexivity.
Qed.

(** A closed period that ends: the counters move exactly when the duration is
    in the half-open interval from 250 to 500 ms. *)
Lemma eye_tick_reopen (es : EyeState) (lb bc : Z) (bd : bool) (now : Z) :
  closed es = true ->
  let d := (now - lastChangeTs es)%Z in
  let r := eye_tick es lb bc bd now false in
  ((LONG_BLINK_MS <= d < LONG_BLINK_MAX_MS)%Z ->
   snd (fst (fst r)) = (lb + 1)%Z /\ snd (fst r) = (bc + 1)%Z /\ snd r = true)
  /\ ((d < LONG_BLINK_MS \/ LONG_BLINK_MAX_MS <= d)%Z ->
      snd (fst (fst r)) = lb /\ snd (fst r) = bc).
Proof.
  intros Hc d r. subst r. unfold eye_tick. rewrite Hc. cbn [Bool.eqb].
  fold d. split.
  - intros [Hlo Hhi].
    apply Z.leb_le in Hlo. apply Z.ltb_lt in Hhi. rewrite Hlo, Hhi.
    cbn. repeat split.
  - intros Hout.
    assert (E : (LONG_BLINK_MS <=? d)%Z && (d <? LONG_BLINK_MAX_MS)%Z = false).
    { apply andb_false_iff. destruct Hout as [H | H].
      - left. now apply Z.leb_gt.
      - right. now apply Z.ltb_ge. }
    rewrite E. cbn. split; reflexivity.
Qed.

(** Any other run of [eye_tick] leaves the counters alone. *)
Lemma eye_tick_no_reopen (es : EyeState) (lb bc : Z) (bd : bool) (now : Z)
    (c : bool) :
  ~ (closed es = true /\ c = false) ->
  let r := eye_tick es lb bc bd now c in
  snd (fst (fst r)) = lb /\ snd (fst r) = bc.
Proof.
  intros Hno r. subst r. unfold eye_tick.
  destruct c, (closed es); cbn; try (split; reflexivity).
  exfalso. apply Hno. split; reflexivity.
Qed.

(** The published blink count and its change gate follow the counter ref. *)
Lemma blink_invariant (st : state) :
  reachable st ->
  blinkCount st = longBlinkCount st
  /\ orElse (pv_blinkCount (prevValues st)) 0%Z = longBlinkCount st.
Proof.
  revert st. apply reachable_ind.
  - intros mountTs. split; reflexivity.
  - intros st [input|now| |] [Hbc Hpv]; cbn [step];
      try (split; assumption).
    destruct (processed st input) eqn:Hp;
      [|rewrite not_processed_tick by exact Hp; split; assumption].
    destruct input as [f|]; [|discriminate].
    destruct (tick_eye st f Hp) as (_ & Hlb & _ & Hcount & Hprev).
    set (st' := tick st (Some f)) in *.
    set (r := eye_tick _ _ _ _ _ _) in *.
    rewrite Hcount, Hprev, Hpv.
    assert (Hr : (snd (fst (fst r)) = longBlinkCount st /\ snd (fst r) = blinkCount st)
                 \/ (snd (fst (fst r)) = (longBlinkCount st + 1)%Z
                     /\ snd (fst r) = (blinkCount st + 1)%Z)).
    { subst r. unfold eye_tick.
      destruct (Bool.eqb _ _); [left; split; reflexivity|].
      destruct (closed (lastEyeState st)); [|left; split; reflexivity].
      destruct (_ && _); [right | left]; split; reflexivity. }
    rewrite <- Hlb in Hr.
    destruct Hr as [[H1 H2] | [H1 H2]].
    + rewrite H1, Z.eqb_refl. cbn [negb]. rewrite H2, Hpv. split; congruence.
    + assert (E : (longBlinkCount st =? longBlinkCount st')%Z = false)
        by (apply Z.eqb_neq; lia).
      rewrite E. cbn [negb orElse]. split; reflexivity.
Qed.

(** C2, amended. On a processed run of a reachable hook that ends a closed
    period, with [d = now - lastChangeTs]: if [250 <= d < 500] the blink
    counter (the ref and the published count) goes up by exactly one and the
    blink flag is raised; if [d < 250] or [d >= 500] the counter stays; and a
    run that does not end a closed period, or any other event, leaves the
    counter as it is. *)
Theorem blink_counting :
  (forall st f,
      reachable st -> processed st (Some f) = true ->
      let st' := tick st (Some f) in
      let d := (nowTs f - lastChangeTs (lastEyeState st))%Z in
      (closed (lastEyeState st) = true -> closed (lastEyeState st') = false ->
       ((250 <= d < 500)%Z ->
        longBlinkCount st' = (longBlinkCount st + 1)%Z
        /\ blinkCount st' = (blinkCount st + 1)%Z
        /\ blinkDetected st' = true)
       /\ ((d < 250 \/ 500 <= d)%Z ->
           longBlinkCount st' = longBlinkCount st
           /\ blinkCount st' = blinkCount st))
      /\ (~ (closed (lastEyeState st) = true /\ closed (lastEyeState st') = false) ->
          longBlinkCount st' = longBlinkCount st
          /\ blinkCount st' = blinkCount st))
  /\ (forall st ev,
         (forall f, ev = Effect (Some f) -> processed st (Some f) = false) ->
         longBlinkCount (step st ev) = longBlinkCount st
         /\ blinkCount (step st ev) = blinkCount st).
Proof.
  split.
  - intros st f Hreach Hp st' d.
    destruct (blink_invariant st Hreach) as [Hbc Hpv].
    destruct (blink_invariant st' (reachable_step st (Effect (Some f)) Hreach))
      as [Hbc' _].
    destruct (tick_eye st f Hp) as (Hes & Hlb & Hbd & _ & _).
    fold st' in Hes, Hlb, Hbd.
    assert (Hcl : closed (lastEyeState st') = prevEyesClosed st')
      by (rewrite Hes; apply eye_tick_closed).
    split.
    + intros Hclosed Hopen. rewrite Hcl in Hopen.
      rewrite Hopen in Hlb, Hbd.
      destruct (eye_tick_reopen (lastEyeState st) (longBlinkCount st)
                  (blinkCount st) (blinkDetected st) (nowTs f) Hclosed)
        as [Hin Hout].
      split.
      * intros Hd. destruct (Hin Hd) as (H1 & _ & H3).
        rewrite Hbc', Hbc, Hlb, Hbd. repeat split; assumption.
      * intros Hd. destruct (Hout Hd) as (H1 & _).
        rewrite Hbc', Hbc, Hlb. split; assumption.
    + intros Hno. rewrite Hcl in Hno.
      destruct (eye_tick_no_reopen (lastEyeState st) (longBlinkCount st)
                  (blinkCount st) (blinkDetected st) (nowTs f)
                  (prevEyesClosed st') Hno) as [H1 _].
      rewrite Hbc', Hbc, Hlb. split; assumption.
  - intros st [input|now| |] Hnp; cbn [step]; try (split; reflexivity).
    destruct input as [f|]; [|split; reflexivity].
    rewrite not_processed_tick by (apply Hnp; reflexivity). split; reflexivity.
Qed.

End BlinkFacts.

(** Eyes closed at 1000 ms and open again at 1300 ms: one blink. *)
Lemma blink_counting_witness :
  Monitor.longBlinkCount
    (Monitor.tick
       (Monitor.run (Monitor.init 0)
          [Monitor.Effect (Some (Monitor.plain_frame 1000 0.2))])
       (Some (Monitor.plain_frame 1300 0.35))) = 1%Z
  /\ Monitor.blinkCount
       (Monitor.tick
          (Monitor.run (Monitor.init 0)
             [Monitor.Effect (Some (Monitor.plain_frame 1000 0.2))])
          (Some (Monitor.plain_frame 1300 0.35))) = 1%Z
  /\ Monitor.blinkDetected
       (Monitor.tick
          (Monitor.run (Monitor.init 0)
             [Monitor.Effect (Some (Monitor.plain_frame 1000 0.2))])
          (Some (Monitor.plain_frame 1300 0.35))) = true.
Proof.
  assert (Hr : Monitor.reachable
                 (Monitor.run (Monitor.init 0)
                    [Monitor.Effect (Some (Monitor.plain_frame 1000 0.2))]))
    by (exists 0%Z; eexists; reflexivity).
  destruct (proj1 blink_counting _ (Monitor.plain_frame 1300 0.35) Hr eq_refl)
    as [Hre _].
  destruct Hre as [Hin _]; [reflexivity | reflexivity |].
  apply Hin. vm_compute. split; [discriminate | reflexivity].
Defined.

(** Eyes closed at 1000 ms and open again at 1500 ms: the closed period lasted
    exactly 500 ms, inside the closed interval from 250 to 500, and the
    counter did not move. *)
Lemma blink_of_500_ms_not_counted :
  Monitor.processed
    (Monitor.run (Monitor.init 0)
       [Monitor.Effect (Some (Monitor.plain_frame 1000 0.2))])
    (Some (Monitor.plain_frame 1500 0.35)) = true
  /\ Monitor.closed
       (Monitor.lastEyeState
          (Monitor.run (Monitor.init 0)
             [Monitor.Effect (Some (Monitor.plain_frame 1000 0.2))])) = true
  /\ Monitor.closed
       (Monitor.lastEyeState
          (Monitor.run (Monitor.init 0)
             [Monitor.Effect (Some (Monitor.plain_frame 1000 0.2));
              Monitor.Effect (Some (Monitor.plain_frame 1500 0.35))])) = false
  /\ (1500 - Monitor.lastChangeTs
               (Monitor.lastEyeState
                  (Monitor.run (Monitor.init 0)
                     [Monitor.Effect (Some (Monitor.plain_frame 1000 0.2))]))
      = 500)%Z
  /\ Monitor.longBlinkCount
       (Monitor.run (Monitor.init 0)
          [Monitor.Effect (Some (Monitor.plain_frame 1000 0.2))]) = 0%Z
  /\ Monitor.longBlinkCount
       (Monitor.run (Monitor.init 0)
          [Monitor.Effect (Some (Monitor.plain_frame 1000 0.2));
           Monitor.Effect (Some (Monitor.plain_frame 1500 0.35))]) = 0%Z
  /\ Monitor.blinkCount
       (Monitor.run (Monitor.init 0)
          [Monitor.Effect (Some (Monitor.plain_frame 1000 0.2));
           Monitor.Effect (Some (Monitor.plain_frame 1500 0.35))]) = 0%Z
  /\ Monitor.blinkDetected
       (Monitor.run (Monitor.init 0)
          [Monitor.Effect (Some (Monitor.plain_frame 1000 0.2));
           Monitor.Effect (Some (Monitor.plain_frame 1500 0.35))]) = false.
Proof. vm_compute. repeat split. Qed.

(** ** The PERCLOS window *)

Section PerclosFacts.

Import JsNum Monitor.

Lemma prune_keeps (P : PercEntry -> Prop) (cutoff : Z) (buf : list PercEntry) :
  Forall P buf -> Forall P (prune cutoff buf).
Proof.
  induction 1 as [|e rest He Hrest IH]; cbn; [constructor|].
  destruct (ts e <? cutoff)%Z; [exact IH | now constructor].
Qed.

Lemma prune_sorted (cutoff : Z) (buf : list PercEntry) :
  StronglySorted (fun a b => (ts a <= ts b)%Z) buf ->
  StronglySorted (fun a b => (ts a <= ts b)%Z) (prune cutoff buf).
Proof.
  induction 1 as [|e rest Hrest IH He]; cbn; [constructor|].
  destruct (ts e <? cutoff)%Z; [exact IH | now constructor].
Qed.

(** On a buffer in time order the loop leaves no entry older than the cutoff. *)
Lemma prune_recent (cutoff : Z) (buf : list PercEntry) :
  StronglySorted (fun a b => (ts a <= ts b)%Z) buf ->
  Forall (fun e => (cutoff <= ts e)%Z) (prune cutoff buf).
Proof.
  induction 1 as [|e rest Hrest IH He]; cbn; [constructor|].
  destruct (ts e <? cutoff)%Z eqn:E; [exact IH|].
  apply Z.ltb_ge in E. constructor; [exact E|].
  apply Forall_impl with (2 := He). intros a Ha. lia.
Qed.

Lemma sorted_push (buf : list PercEntry) (e : PercEntry) :
  StronglySorted (fun a b => (ts a <= ts b)%Z) buf ->
  Forall (fun a => (ts a <= ts e)%Z) buf ->
  StronglySorted (fun a b => (ts a <= ts b)%Z) (buf ++ [e]).
Proof.
  induction 1 as [|a rest Hrest IH Ha]; intros Hle; cbn.
  - constructor; constructor.
  - inversion Hle as [|? ? Hae Hre]; subst. constructor.
    + apply IH, Hre.
    + apply Forall_app. split; [exact Ha | constructor; [exact Hae | constructor]].
Qed.

(** The PERCLOS fields after a processed run. *)
Lemma tick_perclos (st : state) (f : frame) :
  processed st (Some f) = true ->
  let st' := tick st (Some f) in
  let gate :=
    Qltb 0.002 (Qabs (orElse (pv_perclos (prevValues st)) 0
                      - perclos_of (percBuffer st'))) in
  percBuffer st'
  = prune (nowTs f - PERCLOS_WINDOW_MS)%Z
          (percBuffer st
             ++ [{| ts := nowTs f; p_closed := prevEyesClosed st' |}])
  /\ lastUpdate st' = nowTs f
  /\ perclosState st'
     = (if gate then perclos_of (percBuffer st') else perclosState st)
  /\ pv_perclos (prevValues st')
     = (if gate then Some (perclos_of (percBuffer st'))
        else pv_perclos (prevValues st)).
Proof.
  intros Hp. open_tick Hp.
  cbn [percBuffer lastUpdate perclosState prevValues pv_perclos prevEyesClosed].
  repeat split.
Qed.

(** The buffer is in time order and no entry is later than the last processed
    run; the change gate of the published ratio remembers what is published. *)
Lemma buffer_invariant (st : state) :
  reachable st ->
  StronglySorted (fun a b => (ts a <= ts b)%Z) (percBuffer st)
  /\ Forall (fun e => (ts e <= lastUpdate st)%Z) (percBuffer st)
  /\ orElse (pv_perclos (prevValues st)) 0 = perclosState st.
Proof.
  revert st. apply reachable_ind.
  - intros mountTs. cbn. repeat split; constructor.
  - intros st [input|now| |] (Hs & Hle & Hpv); cbn [step];
      try (repeat split; assumption).
    destruct (processed st input) eqn:Hp;
      [|rewrite not_processed_tick by exact Hp; repeat split; assumption].
    destruct input as [f|]; [|discriminate].
    destruct (tick_perclos st f Hp) as (Hbuf & Hlast & Hpub & Hprev).
    pose proof (processed_gate st f Hp) as Hgate.
    apply Z.ltb_ge in Hgate. unfold UPDATE_MS in Hgate.
    set (st' := tick st (Some f)) in *.
    assert (Hold : Forall (fun a => (ts a <= nowTs f)%Z) (percBuffer st)).
    { apply Forall_impl with (2 := Hle). intros a Ha. lia. }
    rewrite Hbuf, Hlast, Hpub, Hprev. split; [|split].
    + apply prune_sorted, sorted_push; assumption.
    + apply prune_keeps. apply Forall_app. split; [exact Hold|].
      constructor; [cbn; lia | constructor].
    + destruct (Qltb _ _); [reflexivity | exact Hpv].
Qed.

(** C3, amended. After every processed run of a reachable hook every entry
    kept in the buffer has [ts >= now - 30000]; the ratio computed from the
    buffer is the number of closed samples divided by [max(1, length)], so
    that 3 closed samples out of 10 give 0.3; the published ratio is change
    gated: it is the computed ratio when that differs by more than 0.002 from
    the one published before, otherwise it stays, and so it is never further
    than 0.002 from the computed ratio. *)
Theorem perclos_window :
  (forall st f,
      reachable st -> processed st (Some f) = true ->
      let st' := tick st (Some f) in
      let ratio := perclos_of (percBuffer st') in
      Forall (fun e => (nowTs f - 30000 <= ts e)%Z) (percBuffer st')
      /\ ratio == inject_Z (Z.of_nat (closedCount (percBuffer st')))
                  / inject_Z (Z.max 1 (Z.of_nat (length (percBuffer st'))))
      /\ ((0.002 < Qabs (perclosState st - ratio) /\ perclosState st' = ratio)
          \/ (Qabs (perclosState st - ratio) <= 0.002
              /\ perclosState st' = perclosState st))
      /\ Qabs (perclosState st' - ratio) <= 0.002)
  /\ (forall buf,
         length buf = 10%nat -> closedCount buf = 3%nat ->
         perclos_of buf == 0.3).
Proof.
  split.
  - intros st f Hreach Hp st' ratio.
    destruct (buffer_invariant st Hreach) as (Hs & Hle & Hpv).
    destruct (tick_perclos st f Hp) as (Hbuf & _ & Hpub & _).
    fold st' in Hbuf, Hpub. fold ratio in Hpub. rewrite Hpv in Hpub.
    pose proof (processed_gate st f Hp) as Hgate.
    apply Z.ltb_ge in Hgate. unfold UPDATE_MS in Hgate.
    split; [|split; [|split]].
    + rewrite Hbuf. apply prune_recent, sorted_push; [exact Hs|].
      apply Forall_impl with (2 := Hle). intros a Ha. cbn. lia.
    + unfold ratio, perclos_of. rewrite closedSum_count. reflexivity.
    + destruct (Qltb 0.002 _) eqn:E.
      * left. apply Qltb_true in E. split; assumption.
      * right. apply Qltb_false in E. split; assumption.
    + destruct (Qltb 0.002 _) eqn:E; rewrite Hpub.
      * setoid_replace (ratio - ratio) with 0 by ring. discriminate.
      * now apply Qltb_false in E.
  - intros buf Hlen Hcount. unfold perclos_of.
    rewrite closedSum_count, Hlen, Hcount. reflexivity.
Qed.

End PerclosFacts.

(** A first run on the freshly mounted hook keeps its own sample. *)
Lemma perclos_window_witness :
  Forall (fun e => (1000 - 30000 <= Monitor.ts e)%Z)
         (Monitor.percBuffer
            (Monitor.tick (Monitor.init 0) (Some (Monitor.plain_frame 1000 0.2))))
  /\ Monitor.perclos_of
       (Monitor.percBuffer
          (Monitor.tick (Monitor.init 0) (Some (Monitor.plain_frame 1000 0.2))))
     == 1.
Proof.
  destruct (proj1 perclos_window (Monitor.init 0) (Monitor.plain_frame 1000 0.2))
    as (Hret & Hratio & _).
  - exists 0%Z, []. reflexivity.
  - reflexivity.
  - split; [exact Hret | reflexivity].
Defined.

(** One closed sample followed by 22 open ones, 180 ms apart.  The 23rd run is
    processed, the buffer then holds 23 samples of which 1 is closed, but the
    published ratio is still 1/22: the step from 1/22 to 1/23 is below the
    change gate of 0.002. *)
Lemma perclos_published_is_stale :
  Monitor.processed (Monitor.run (Monitor.init 0) (Monitor.closed_then_open 21))
                    (Some (Monitor.plain_frame 4960 0.35)) = true
  /\ length (Monitor.percBuffer
               (Monitor.tick
                  (Monitor.run (Monitor.init 0) (Monitor.closed_then_open 21))
                  (Some (Monitor.plain_frame 4960 0.35)))) = 23%nat
  /\ Monitor.closedCount
       (Monitor.percBuffer
          (Monitor.tick
             (Monitor.run (Monitor.init 0) (Monitor.closed_then_open 21))
             (Some (Monitor.plain_frame 4960 0.35)))) = 1%nat
  /\ Monitor.perclosState
       (Monitor.tick
          (Monitor.run (Monitor.init 0) (Monitor.closed_then_open 21))
          (Some (Monitor.plain_frame 4960 0.35))) == 1 # 22
  /\ ~ Monitor.perclosState
         (Monitor.tick
            (Monitor.run (Monitor.init 0) (Monitor.closed_then_open 21))
            (Some (Monitor.plain_frame 4960 0.35)))
       == inject_Z (Z.of_nat 1) / inject_Z (Z.max 1 (Z.of_nat 23)).
Proof.
  split; [vm_compute; reflexivity|].
  split; [vm_compute; reflexivity|].
  split; [vm_compute; reflexivity|].
  split; [vm_compute; reflexivity|].
  intros H. vm_compute in H. discriminate H.
Qed.

(** ** Debounced silence *)

Section SilenceFacts.

Import JsNum Sound.

Variable cfg : config.

(** The silence fields after a frame that is sampled. *)
Lemma sampleAudio_reading (st : state) (now : Q) (dateNow : Z)
    (db specVar bandRatio : Q) :
  Qltb (now - lastSampleTime st) (sampleIntervalMs cfg) = false ->
  let st' := sampleAudio cfg st (Reading now dateNow db specVar bandRatio) in
  let start := match silenceStart st with None => now | Some s => s end in
  let reported :=
    Qle_bool (silenceSeconds cfg * 1000) (now - start) && negb (lastSilent st) in
  lastSampleTime st' = now
  /\ (currentlySilent cfg db specVar = true ->
      silenceStart st' = Some start
      /\ lastSilent st' = (if reported then true else lastSilent st)
      /\ isSilent st' = (if reported then true else isSilent st))
  /\ (currentlySilent cfg db specVar = false ->
      silenceStart st' = None
      /\ lastSilent st' = false
      /\ isSilent st' = (if lastSilent st then false else isSilent st)).
Proof.
  intros Hgate. cbn zeta. unfold sampleAudio. rewrite Hgate.
  destruct (currentlySilent cfg db specVar).
  - destruct (Qle_bool _ _ && negb _); cbn; repeat split; discriminate.
  - destruct (lastSilent st) eqn:E; cbn; rewrite ?E; repeat split; discriminate.
Qed.

Lemma last_snoc {A : Type} (l : list A) (x d : A) : last (l ++ [x]) d = x.
Proof.
  induction l as [|a l IH]; [reflexivity|].
  cbn [app]. destruct (l ++ [x]) eqn:E.
  - destruct l; discriminate.
  - change (last (a0 :: l0) d = x). exact IH.
Qed.

Lemma last_in {A : Type} (l : list A) (a d : A) : In (last (a :: l) d) (a :: l).
Proof.
  revert a. induction l as [|b l IH]; intros a.
  - left. reflexivity.
  - right. apply IH.
Qed.

Hypothesis interval_nonneg : 0 <= sampleIntervalMs cfg.

(** One frame keeps the invariant, with the samples extended by its own. *)
Lemma sampleAudio_inv (st : state) (smp : list (Q * bool)) (fr : frame) :
  silence_inv cfg st smp ->
  silence_inv cfg (sampleAudio cfg st fr) (smp ++ sample_of cfg st fr).
Proof.
  intros (Hpub & Hle & Hstart).
  destruct fr as [|now|now dateNow db specVar bandRatio].
  - cbn. rewrite app_nil_r. repeat split; assumption.
  - cbn [sample_of sampleAudio]. rewrite app_nil_r.
    destruct (Qltb _ _) eqn:Hgate; [repeat split; assumption|].
    apply Qltb_false in Hgate.
    split; [exact Hpub|]. split; [|exact Hstart].
    cbn [lastSampleTime]. apply Forall_impl with (2 := Hle).
    intros x Hx. lra.
  - cbn [sample_of].
    destruct (Qltb (now - lastSampleTime st) (sampleIntervalMs cfg)) eqn:Hgate.
    { cbn [sampleAudio]. rewrite Hgate, app_nil_r. repeat split; assumption. }
    destruct (sampleAudio_reading st now dateNow db specVar bandRatio Hgate)
      as (Hnow & Hsil & Hloud).
    apply Qltb_false in Hgate.
    set (st' := sampleAudio cfg st _) in *.
    assert (Hle' : Forall (fun x => fst x <= lastSampleTime st')
                          (smp ++ [(now, currentlySilent cfg db specVar)])).
    { rewrite Hnow. apply Forall_app. split.
      - apply Forall_impl with (2 := Hle). intros x Hx. lra.
      - constructor; [apply Qle_refl | constructor]. }
    destruct (currentlySilent cfg db specVar) eqn:Hs.
    + destruct (Hsil eq_refl) as (Hst & Hls & His).
      split; [|split; [exact Hle'|]].
      { rewrite Hls, His, Hpub. reflexivity. }
      rewrite Hst.
      destruct (silenceStart st) as [s|] eqn:Hold.
      * destruct Hstart as (pre & post & Hsmp & Hhd & Hall & Hspan).
        exists pre, (post ++ [(now, true)]).
        split; [rewrite Hsmp, app_assoc; reflexivity|].
        split; [destruct post; [discriminate | exact Hhd]|].
        split; [apply Forall_app; split; [exact Hall | repeat constructor]|].
        rewrite last_snoc. cbn [fst]. rewrite Hls.
        destruct (Qle_bool _ _) eqn:Hreach; cbn [andb].
        -- intros _. now apply Qle_bool_iff in Hreach.
        -- intros Hwas. specialize (Hspan Hwas).
           assert (Hlast : fst (last post (s, true)) <= lastSampleTime st).
           { destruct post as [|a post]; [discriminate|].
             rewrite Forall_forall in Hle. apply Hle.
             rewrite Hsmp. apply in_or_app. right. apply last_in. }
           lra.
      * exists smp, [(now, true)].
        split; [reflexivity|]. split; [reflexivity|].
        split; [repeat constructor|].
        cbn [last fst]. rewrite Hls, Hstart. cbn [negb].
        rewrite andb_true_r.
        destruct (Qle_bool _ _) eqn:Hreach; [|discriminate].
        intros _. now apply Qle_bool_iff in Hreach.
    + destruct (Hloud eq_refl) as (Hst & Hls & His).
      split; [|split; [exact Hle'|]].
      * rewrite Hls, His, Hpub. destruct (lastSilent st); reflexivity.
      * rewrite Hst. exact Hls.
Qed.

Lemma run_inv (frames : list frame) (st : state) (smp : list (Q * bool)) :
  silence_inv cfg st smp ->
  silence_inv cfg (run cfg st frames) (smp ++ sampled cfg st frames).
Proof.
  revert st smp. induction frames as [|fr rest IH]; intros st smp Hinv.
  - cbn. now rewrite app_nil_r.
  - cbn [run fold_left sampled]. rewrite app_assoc.
    apply IH, sampleAudio_inv, Hinv.
Qed.

Lemma init_inv : silence_inv cfg init [].
Proof. repeat split. constructor. Qed.

(** C6. Along every run of frames from the state [start] leaves, if silence
    is reported then the samples taken end with a block of silent samples
    that spans at least [silenceSeconds] seconds (5 by default); a sample is
    silent exactly when its level is below the threshold (-55 by default)
    and its spectral variance below 1e-8; and a single sampled frame that is
    not silent clears the report and resets the timer. *)
Theorem silence_debounced :
  (forall frames,
      isSilent (run cfg init frames) = true ->
      exists pre post first,
        sampled cfg init frames = pre ++ post
        /\ hd_error post = Some first
        /\ Forall (fun x => snd x = true) post
        /\ silenceSeconds cfg * 1000 <= fst (last post first) - fst first)
  /\ (forall db specVar,
         currentlySilent cfg db specVar = true <->
         db < silenceDbThreshold cfg /\ specVar < 1e-8)
  /\ (silenceDbThreshold default_config = -55
      /\ silenceSeconds default_config = 5)
  /\ (forall frames now dateNow db specVar bandRatio,
         Qltb (now - lastSampleTime (run cfg init frames)) (sampleIntervalMs cfg)
         = false ->
         currentlySilent cfg db specVar = false ->
         isSilent (sampleAudio cfg (run cfg init frames)
                     (Reading now dateNow db specVar bandRatio)) = false
         /\ lastSilent (sampleAudio cfg (run cfg init frames)
                          (Reading now dateNow db specVar bandRatio)) = false
         /\ silenceStart (sampleAudio cfg (run cfg init frames)
                            (Reading now dateNow db specVar bandRatio)) = None).
Proof.
  split; [|split; [|split]].
  - intros frames Hsilent.
    destruct (run_inv frames init [] init_inv) as (Hpub & _ & Hstart).
    cbn [app] in Hstart. rewrite Hpub in Hsilent.
    destruct (silenceStart (run cfg init frames)) as [s|]; [|congruence].
    destruct Hstart as (pre & post & Hsmp & Hhd & Hall & Hspan).
    exists pre, post, (s, true). repeat split; try assumption.
    apply Hspan, Hsilent.
  - intros db specVar. unfold currentlySilent.
    rewrite andb_true_iff, !Qltb_true. reflexivity.
  - split; reflexivity.
  - intros frames now dateNow db specVar bandRatio Hgate Hloud.
    destruct (run_inv frames init [] init_inv) as (Hpub & _ & _).
    destruct (sampleAudio_reading _ now dateNow db specVar bandRatio Hgate)
      as (_ & _ & Hl).
    destruct (Hl Hloud) as (Hst & Hls & His).
    repeat split; try assumption.
    rewrite His, Hpub. destruct (lastSilent _); reflexivity.
Qed.

End SilenceFacts.

(** With the default configuration, two silent samples 5000 ms apart: silence
    is reported, and the samples end with a silent block of that span. *)
Lemma silence_debounced_witness :
  Sound.isSilent
    (Sound.run Sound.default_config Sound.init
       [Sound.Reading 1000 0 (-60) 0 0; Sound.Reading 6000 5000 (-60) 0 0]) = true
  /\ exists pre post first,
       Sound.sampled Sound.default_config Sound.init
         [Sound.Reading 1000 0 (-60) 0 0; Sound.Reading 6000 5000 (-60) 0 0]
       = pre ++ post
       /\ hd_error post = Some first
       /\ Forall (fun x => snd x = true) post
       /\ Sound.silenceSeconds Sound.default_config * 1000
          <= fst (last post first) - fst first.
Proof.
  split; [reflexivity|].
  apply (proj1 (silence_debounced Sound.default_config
                  ltac:(discriminate))
               [Sound.Reading 1000 0 (-60) 0 0; Sound.Reading 6000 5000 (-60) 0 0]).
  reflexivity.
Defined.

(** * Further properties of the hooks and of the dashboard *)

Section MedianFacts.

Import JsNum Stats.

Lemma filter_perm_length (p : Q -> bool) (l l' : list Q) :
  Permutation l l' -> length (filter p l) = length (filter p l').
Proof.
  induction 1 as [|x l l' _ IH|x y l|l l' l'' _ IH1 _ IH2]; cbn.
  - reflexivity.
  - destruct (p x); cbn; congruence.
  - destruct (p x), (p y); reflexivity.
  - congruence.
Qed.

Lemma filter_all_length (p : Q -> bool) (l : list Q) :
  Forall (fun x => p x = true) l -> length (filter p l) = length l.
Proof.
  induction 1 as [|x l Hx _ IH]; cbn; [reflexivity|]. rewrite Hx. cbn. congruence.
Qed.

Lemma sorted_nth_le (s : list Q) (i j : nat) :
  Sorted Qle s -> (i <= j)%nat -> (j < length s)%nat -> nth i s 0 <= nth j s 0.
Proof.
  intros Hs. apply Sorted_StronglySorted in Hs;
    [|intros x y z; apply Qle_trans].
  revert i j. induction Hs as [|a l Hl IH Ha]; intros i j Hij Hj; cbn in Hj.
  - lia.
  - destruct i as [|i], j as [|j]; cbn; try lia.
    + apply Qle_refl.
    + rewrite Forall_forall in Ha. apply Ha, nth_In. lia.
    + apply IH; lia.
Qed.

(** On a sorted array, a value that is at least the entry at index [k - 1] is
    at least [k] of the entries. *)
Lemma sorted_count_le (s : list Q) (k : nat) (x : Q) :
  Sorted Qle s -> (1 <= k <= length s)%nat -> nth (k - 1) s 0 <= x ->
  (k <= length (filter (fun y => Qle_bool y x) s))%nat.
Proof.
  intros Hs Hk Hx.
  rewrite <- (firstn_skipn k s) at 1. rewrite filter_app, length_app.
  rewrite filter_all_length; [rewrite length_firstn; lia|].
  apply Forall_nth. intros i d Hi. rewrite length_firstn in Hi.
  rewrite nth_firstn. replace (i <? k)%nat with true by (symmetry; apply Nat.ltb_lt; lia).
  rewrite (nth_indep _ d 0) by lia.
  apply Qle_bool_iff. apply Qle_trans with (2 := Hx).
  apply sorted_nth_le; [assumption | lia | lia].
Qed.

(** And a value that is at most the entry at index [k] is at most the
    [length - k] entries from there on. *)
Lemma sorted_count_ge (s : list Q) (k : nat) (x : Q) :
  Sorted Qle s -> (k < length s)%nat -> x <= nth k s 0 ->
  (length s - k <= length (filter (fun y => Qle_bool x y) s))%nat.
Proof.
  intros Hs Hk Hx.
  rewrite <- (firstn_skipn k s) at 2. rewrite filter_app, length_app.
  rewrite (filter_all_length _ (skipn k s)); [rewrite length_skipn; lia|].
  apply Forall_nth. intros i d Hi. rewrite length_skipn in Hi.
  rewrite nth_skipn. rewrite (nth_indep _ d 0) by lia.
  apply Qle_bool_iff. apply Qle_trans with (1 := Hx).
  apply sorted_nth_le; [assumption | lia | lia].
Qed.

Lemma half_cases (n : nat) :
  (n mod 2 = 1 /\ n = 2 * (n / 2) + 1)%nat \/ (n mod 2 = 0 /\ n = 2 * (n / 2))%nat.
Proof.
  pose proof (Nat.div_mod_eq n 2). pose proof (Nat.mod_upper_bound n 2).
  destruct (n mod 2)%nat as [|[|k]] eqn:E; [right | left |]; lia.
Qed.

(** X1. The median of a non-empty array splits it in halves: at least half of
    the entries are at most the median and at least half are at least the
    median, and the median lies between two entries of the array. *)
Theorem median_splits (arr : list Q) :
  arr <> [] ->
  (length arr <= 2 * length (filter (fun y => Qle_bool y (median arr)) arr))%nat
  /\ (length arr <= 2 * length (filter (fun y => Qle_bool (median arr) y) arr))%nat
  /\ exists a b, In a arr /\ In b arr /\ a <= median arr <= b.
Proof.
  intros Hne.
  pose proof (sort_perm arr) as Hperm. pose proof (sort_sorted arr) as Hs.
  pose proof (Permutation_length Hperm) as Hlen.
  assert (Hpos : (0 < length (sort arr))%nat).
  { rewrite <- Hlen. destruct arr; [congruence | cbn; lia]. }
  rewrite !(filter_perm_length _ _ _ Hperm), Hlen.
  assert (Hin : forall i, (i < length (sort arr))%nat -> In (nth i (sort arr) 0) arr).
  { intros i Hi. apply Permutation_in with (1 := Permutation_sym Hperm).
    now apply nth_In. }
  unfold median. revert Hs Hpos Hin. generalize (sort arr). intros s Hs Hpos Hin.
  destruct (half_cases (length s)) as [[Hodd Hn] | [Heven Hn]].
  - rewrite Hodd. cbn [Nat.eqb].
    set (m := (length s / 2)%nat) in *.
    split; [|split].
    + pose proof (sorted_count_le s (m + 1) (nth m s 0) Hs) as H.
      replace (m + 1 - 1)%nat with m in H by lia.
      specialize (H ltac:(lia) (Qle_refl _)). lia.
    + pose proof (sorted_count_ge s m (nth m s 0) Hs ltac:(lia) (Qle_refl _)). lia.
    + exists (nth m s 0), (nth m s 0).
      repeat split; try apply Hin; try lia; apply Qle_refl.
  - rewrite Heven. cbn [Nat.eqb].
    set (m := (length s / 2)%nat) in *.
    assert (Hm : (1 <= m)%nat) by lia.
    assert (Hxy : nth (m - 1) s 0 <= nth m s 0)
      by (apply sorted_nth_le; [assumption | lia | lia]).
    set (x := nth (m - 1) s 0) in *. set (y := nth m s 0) in *.
    assert (Hlo : x <= (x + y) / 2).
    { apply Qle_shift_div_l; [reflexivity | lra]. }
    assert (Hhi : (x + y) / 2 <= y).
    { apply Qle_shift_div_r; [reflexivity | lra]. }
    split; [|split].
    + pose proof (sorted_count_le s m ((x + y) / 2) Hs ltac:(lia) Hlo). lia.
    + pose proof (sorted_count_ge s m ((x + y) / 2) Hs ltac:(lia) Hhi). lia.
    + exists x, y. repeat split; try assumption; apply Hin; lia.
Qed.

End MedianFacts.

(** The median of three samples. *)
Lemma median_splits_witness :
  exists a b, In a [3; 1; 2] /\ In b [3; 1; 2]
              /\ a <= Stats.median [3; 1; 2] <= b.
Proof.
  apply (proj2 (proj2 (median_splits [3; 1; 2] ltac:(discriminate)))).
Defined.

Section SpreadFacts.

Import JsNum Stats.

Lemma sum_squares_zero (m : Q) (arr : list Q) (acc : Q) :
  0 <= acc ->
  fold_left (fun s x => s + (x - m) * (x - m)) arr acc == 0 <->
  acc == 0 /\ Forall (fun x => x == m) arr.
Proof.
  revert acc. induction arr as [|x rest IH]; intros acc Hacc; cbn [fold_left].
  - split; [intros H; split; [exact H | constructor] | tauto].
  - pose proof (Qsquare_nonneg (x - m)) as Hsq.
    rewrite IH by lra. split.
    + intros [Hz Hrest].
      assert (Hd : (x - m) * (x - m) == 0) by lra.
      apply Qmult_integral in Hd.
      split; [lra | constructor; [destruct Hd; lra | exact Hrest]].
    + intros [Hz Hall]. inversion Hall as [|? ? Hx Hrest]; subst.
      split; [|exact Hrest]. rewrite Hz, Hx. ring.
Qed.

Lemma len_pos (arr : list Q) : arr <> [] -> 0 < len arr.
Proof.
  intros Hne. unfold len. change 0 with (inject_Z 0). rewrite <- Zlt_Qlt.
  destruct arr; [congruence | cbn [length]; lia].
Qed.

Lemma variance_zero_iff (arr : list Q) :
  arr <> [] ->
  variance arr == 0 <-> Forall (fun x => x == mean arr) arr.
Proof.
  intros Hne. pose proof (len_pos arr Hne) as Hl.
  unfold variance. fold (mean arr).
  pose proof (sum_squares_zero (mean arr) arr 0 (Qle_refl 0)) as Hz.
  set (S := fold_left (fun s x => s + (x - mean arr) * (x - mean arr)) arr 0) in *.
  split.
  - intros H. apply Hz.
    setoid_replace S with (S / len arr * len arr) by (field; lra).
    rewrite H. ring.
  - intros H. assert (HS : S == 0) by (apply Hz; split; [reflexivity | exact H]).
    rewrite HS. field. lra.
Qed.

(** X2. The standard deviation of a non-empty array is zero exactly when all
    its entries equal the mean, that is, when the array is constant; this is
    the case in which [detectPeaks] drops its prominence test. *)
Theorem std_zero_iff_constant (arr : list Q) :
  arr <> [] ->
  ((root_val (std arr) = 0)%R <-> Forall (fun x => x == mean arr) arr)
  /\ (root_pos (std arr) = false <-> Forall (fun x => x == mean arr) arr).
Proof.
  intros Hne. pose proof (variance_nonneg arr) as Hv.
  assert (Hstd : std arr = Sqrt (variance arr)) by (destruct arr; [congruence | reflexivity]).
  rewrite Hstd. unfold root_val, root_pos. cbn [radicand].
  rewrite <- (variance_zero_iff arr Hne). split.
  - split.
    + intros H. apply sqrt_eq_0 in H.
      * apply eqR_Qeq. rewrite H. symmetry. apply RMicromega.Q2R_0.
      * rewrite <- RMicromega.Q2R_0. now apply Qle_Rle.
    + intros H. apply Qeq_eqR in H. rewrite H, RMicromega.Q2R_0. apply sqrt_0.
  - rewrite Qltb_false. split; intros H; lra.
Qed.

End SpreadFacts.

(** Three equal samples have no spread. *)
Lemma std_zero_iff_constant_witness :
  Stats.root_val (Stats.std [4; 4; 4]) = 0%R.
Proof.
  apply (proj1 (std_zero_iff_constant [4; 4; 4] ltac:(discriminate))).
  repeat constructor.
Defined.

Section PeakOrderFacts.

Import JsNum Stats PeakSpec.

Variables (times : list Z) (clock : nat -> Z).
Variables (minAmp : Q) (minSeparationMs : Z) (prominenceStd : Q).

Lemma sorted_snoc {A : Type} (R : A -> A -> Prop) (l : list A) (x : A) :
  Sorted R l ->
  (forall p r, rev l = p :: r -> R p x) ->
  Sorted R (l ++ [x]).
Proof.
  induction 1 as [|a l Hl IH Ha]; intros Hlast; cbn.
  - repeat constructor.
  - constructor.
    + apply IH. intros p r Hrev. cbn in Hlast.
      apply (Hlast p (r ++ [a])). rewrite Hrev. reflexivity.
    + destruct l as [|b l]; cbn.
      * constructor. apply (Hlast a []). reflexivity.
      * constructor. inversion Ha; subst. assumption.
Qed.

Lemma detectPeaks_iter_inv (values : list Q) (peaks : list peak) (i : nat) :
  loop_inv values times clock minAmp minSeparationMs prominenceStd i peaks ->
  loop_inv values times clock minAmp minSeparationMs prominenceStd (S i)
    (detectPeaks_iter values times clock minAmp minSeparationMs prominenceStd
                      (median values) (std values) peaks i).
Proof.
  intros [Hall Hsorted].
  assert (Hweak : loop_inv values times clock minAmp minSeparationMs prominenceStd (S i) peaks).
  { split; [|exact Hsorted]. apply Forall_impl with (2 := Hall).
    intros p [Hp Hi]. split; [exact Hp | lia]. }
  unfold detectPeaks_iter.
  destruct (Qltb _ _ && Qle_bool _ _) eqn:Hpeak; [|exact Hweak].
  apply andb_true_iff in Hpeak. destruct Hpeak as [Hup Hdown].
  apply Qltb_true in Hup. apply Qle_bool_iff in Hdown.
  set (ti := match nth_error times i with Some x => x | None => clock i end).
  destruct (match rev peaks with
            | [] => false
            | p :: _ => (ti - t p <? minSeparationMs)%Z
            end) eqn:Hclose; [exact Hweak|].
  destruct ((if root_pos (std values) then _ else true) && Qle_bool minAmp _)
    eqn:Hok; [|exact Hweak].
  apply andb_true_iff in Hok. destruct Hok as [Hprom Hamp].
  apply Qle_bool_iff in Hamp.
  split.
  - apply Forall_app. split; [apply Hweak|].
    constructor; [|constructor]. split; [|cbn; lia].
    unfold accepted. cbn [v t idx]. repeat split; try assumption.
    intros Hpos.
    apply (root_pos_correct _ (std_radicand_nonneg values)) in Hpos.
    rewrite Hpos in Hprom.
    now apply (ge_plus_scaled_correct _ _ _ _ (std_radicand_nonneg values)).
  - apply sorted_snoc; [exact Hsorted|].
    intros p r Hrev. rewrite Hrev in Hclose. apply Z.ltb_ge in Hclose.
    split; cbn [idx t]; [|lia].
    rewrite Forall_forall in Hall.
    apply (Hall p). apply in_rev. rewrite Hrev. now left.
Qed.

Lemma detectPeaks_loop_inv (values : list Q) (n a : nat) (peaks : list peak) :
  loop_inv values times clock minAmp minSeparationMs prominenceStd a peaks ->
  loop_inv values times clock minAmp minSeparationMs prominenceStd (a + n)
    (fold_left
       (detectPeaks_iter values times clock minAmp minSeparationMs prominenceStd
                         (median values) (std values))
       (seq a n) peaks).
Proof.
  revert a peaks. induction n as [|n IH]; intros a peaks Hinv; cbn.
  - now rewrite Nat.add_0_r.
  - replace (a + S n)%nat with (S a + n)%nat by lia.
    apply IH, detectPeaks_iter_inv, Hinv.
Qed.

Lemma detectPeaks_inv (values : list Q) :
  Forall (accepted values times clock minAmp prominenceStd)
         (detectPeaks values times clock minAmp minSeparationMs prominenceStd)
  /\ Sorted (spaced minSeparationMs)
            (detectPeaks values times clock minAmp minSeparationMs prominenceStd).
Proof.
  unfold detectPeaks. destruct values as [|x rest] eqn:E.
  - split; constructor.
  - rewrite <- E.
    destruct (detectPeaks_loop_inv values (length values - 2) 1 [])
      as [Hall Hsorted].
    + split; constructor.
    + split; [|exact Hsorted].
      apply Forall_impl with (2 := Hall). intros p [Hp _]. exact Hp.
Qed.

(** X3. Every peak that [detectPeaks] returns carries the value and the time
    of its index, is strictly above its left neighbour and not below its
    right one, has an amplitude of at least [minAmp], and, when the envelope
    has spread, is at least [median + prominenceStd * std]. *)
Theorem detectPeaks_accepted (values : list Q) :
  Forall (accepted values times clock minAmp prominenceStd)
         (detectPeaks values times clock minAmp minSeparationMs prominenceStd).
Proof. apply detectPeaks_inv. Qed.

(** X4. The peaks come out in index order, and each is at least
    [minSeparationMs] later than the one before it. *)
Theorem detectPeaks_spaced (values : list Q) :
  Sorted (spaced minSeparationMs)
         (detectPeaks values times clock minAmp minSeparationMs prominenceStd).
Proof. apply detectPeaks_inv. Qed.

Lemma last_cons {A : Type} (a : A) (l : list A) (d : A) :
  last (a :: l) d = last l a.
Proof.
  revert a d. induction l as [|b l IH]; intros a d; [reflexivity|].
  change (last (b :: l) d = last (b :: l) a). rewrite (IH b d), (IH b a).
  reflexivity.
Qed.

Lemma sum_from (l : list Q) (acc : Q) :
  fold_left (fun s x => s + x) l acc == acc + sum l.
Proof.
  unfold sum. revert acc. induction l as [|x l IH]; intros acc; cbn.
  - ring.
  - rewrite IH, (IH (0 + x)). ring.
Qed.

Lemma peak_intervals_length (peaks : list peak) :
  length (peak_intervals peaks) = (length peaks - 1)%nat.
Proof.
  induction peaks as [|p [|q rest] IH]; cbn in *; try reflexivity.
  rewrite IH. lia.
Qed.

Lemma peak_intervals_spaced (peaks : list peak) :
  Sorted (spaced minSeparationMs) peaks ->
  Forall (fun d => inject_Z minSeparationMs <= d) (peak_intervals peaks).
Proof.
  induction 1 as [|p l Hl IH Hp]; [constructor|].
  destruct l as [|q rest]; [constructor|].
  cbn [peak_intervals]. constructor; [|exact IH].
  inversion Hp as [|? ? [_ Hsep]]; subst. rewrite <- Zle_Qle. lia.
Qed.

(** The intervals telescope to the time between the first and the last peak. *)
Lemma peak_intervals_sum (p : peak) (rest : list peak) :
  sum (peak_intervals (p :: rest)) == inject_Z (t (last rest p) - t p).
Proof.
  revert p. induction rest as [|q rest IH]; intros p.
  - cbn. rewrite Z.sub_diag. reflexivity.
  - change (peak_intervals (p :: q :: rest))
      with (inject_Z (t q - t p) :: peak_intervals (q :: rest)).
    unfold sum. cbn [fold_left]. rewrite sum_from, IH.
    rewrite (last_cons q rest p).
    rewrite Qplus_0_l, <- inject_Z_plus.
    replace (t q - t p + (t (last rest q) - t q))%Z
      with (t (last rest q) - t p)%Z by lia.
    reflexivity.
Qed.

(** X5. Fed with the peaks of [detectPeaks], the periodicity test sees
    intervals that are all at least [minSeparationMs]; with enough peaks
    there is one interval less than peaks and they add up to the time from
    the first to the last peak; with too few peaks the answer is "not
    periodic" with no intervals. *)
Theorem periodicity_of_detected (values : list Q) (minPeaks : nat)
    (maxIntervalStdMs : Q) :
  let peaks :=
    detectPeaks values times clock minAmp minSeparationMs prominenceStd in
  let r := evaluatePeriodicity peaks minPeaks maxIntervalStdMs in
  Forall (fun d => inject_Z minSeparationMs <= d) (intervals r)
  /\ ((minPeaks <= length peaks)%nat ->
      intervals r = peak_intervals peaks
      /\ length (intervals r) = (length peaks - 1)%nat
      /\ forall first,
           hd_error peaks = Some first ->
           sum (intervals r) == inject_Z (t (last peaks first) - t first))
  /\ ((length peaks < minPeaks)%nat -> r = Periodicity false []).
Proof.
  intros peaks r. subst r. unfold evaluatePeriodicity.
  destruct (length peaks <? minPeaks)%nat eqn:Hn.
  - apply Nat.ltb_lt in Hn. cbn [intervals].
    split; [constructor|]. split; [lia | reflexivity].
  - apply Nat.ltb_ge in Hn.
    assert (Hint : intervals
                     (if root_le (std (peak_intervals peaks)) maxIntervalStdMs
                         && Qle_bool 200 (sum (peak_intervals peaks)
                                          / len (peak_intervals peaks))
                         && Qle_bool (sum (peak_intervals peaks)
                                      / len (peak_intervals peaks)) 2000
                      then Periodicity true (peak_intervals peaks)
                      else Periodicity false (peak_intervals peaks))
                   = peak_intervals peaks)
      by (destruct (_ && _ && _); reflexivity).
    rewrite Hint. split; [|split; [|lia]].
    + apply peak_intervals_spaced. apply (proj2 (detectPeaks_inv values)).
    + intros _. split; [reflexivity|]. split; [apply peak_intervals_length|].
      intros first Hhd. destruct peaks as [|p rest]; [discriminate|].
      injection Hhd as <-. rewrite peak_intervals_sum.
      rewrite (last_cons p rest p). reflexivity.
Qed.

End PeakOrderFacts.

(** Four bumps: three intervals that add up to 1500 ms. *)
Lemma periodicity_of_detected_witness :
  Stats.intervals
    (Stats.evaluatePeriodicity
       (Stats.detectPeaks
          [0; 20; 0; 0; 0; 20; 0; 0; 0; 20; 0; 0; 0; 20; 0]
          [0; 100; 200; 300; 400; 600; 700; 800; 900; 1120; 1200; 1300; 1400; 1600; 1700]%Z
          (fun _ => 0%Z) 14 150 1) 3 500)
  = Stats.peak_intervals
      (Stats.detectPeaks
         [0; 20; 0; 0; 0; 20; 0; 0; 0; 20; 0; 0; 0; 20; 0]
         [0; 100; 200; 300; 400; 600; 700; 800; 900; 1120; 1200; 1300; 1400; 1600; 1700]%Z
         (fun _ => 0%Z) 14 150 1).
Proof.
  apply (proj1 (proj2 (periodicity_of_detected
           [0; 100; 200; 300; 400; 600; 700; 800; 900; 1120; 1200; 1300; 1400; 1600; 1700]%Z
           (fun _ => 0%Z) 14 150 1
           [0; 20; 0; 0; 0; 20; 0; 0; 0; 20; 0; 0; 0; 20; 0] 3 500))).
  vm_compute. repeat constructor.
Defined.

Section SmoothingFacts.

Import JsNum Stats.

Lemma Forall_drop {A : Type} (P : A -> Prop) (n : nat) (l : list A) :
  Forall P l -> Forall P (skipn n l).
Proof.
  revert l. induction n as [|n IH]; intros l Hl; [exact Hl|].
  destruct Hl; cbn; [constructor | now apply IH].
Qed.

Lemma Forall_take {A : Type} (P : A -> Prop) (n : nat) (l : list A) :
  Forall P l -> Forall P (firstn n l).
Proof.
  revert l. induction n as [|n IH]; intros l Hl; [constructor|].
  destruct Hl; cbn; constructor; [assumption | now apply IH].
Qed.

Lemma sum_cons (x : Q) (l : list Q) : sum (x :: l) == x + sum l.
Proof.
  unfold sum. cbn [fold_left].
  assert (H : forall l acc, fold_left (fun s y => s + y) l acc
                            == acc + fold_left (fun s y => s + y) l 0).
  { clear. induction l as [|y l IH]; intros acc; cbn.
    - ring.
    - rewrite IH, (IH (0 + y)). ring. }
  rewrite H. ring.
Qed.

Lemma len_cons (x : Q) (l : list Q) : len (x :: l) == len l + 1.
Proof.
  unfold len. cbn [length]. rewrite Nat2Z.inj_succ. unfold Z.succ.
  rewrite inject_Z_plus. reflexivity.
Qed.

Lemma sum_between (lo hi : Q) (l : list Q) :
  Forall (fun x => lo <= x <= hi) l ->
  lo * len l <= sum l <= hi * len l.
Proof.
  induction 1 as [|x l [Hlo Hhi] _ IH].
  - unfold sum, len. cbn [fold_left length Z.of_nat]. change (inject_Z 0) with 0.
    rewrite !Qmult_0_r. split; apply Qle_refl.
  - rewrite sum_cons, len_cons. destruct IH as [IHlo IHhi].
    setoid_replace (lo * (len l + 1)) with (lo * len l + lo) by ring.
    setoid_replace (hi * (len l + 1)) with (hi * len l + hi) by ring.
    revert IHlo IHhi. generalize (lo * len l) (hi * len l) (sum l).
    intros a b c IHlo IHhi. lra.
Qed.

(** The average of a non-empty array lies between any bounds of its entries. *)
Lemma average_between (lo hi : Q) (l : list Q) :
  l <> [] ->
  Forall (fun x => lo <= x <= hi) l ->
  lo <= sum l / len l <= hi.
Proof.
  intros Hne Hall. pose proof (sum_between lo hi l Hall) as [Hlo Hhi].
  assert (Hl : 0 < len l).
  { unfold len. change 0 with (inject_Z 0). rewrite <- Zlt_Qlt.
    destruct l; [congruence | cbn [length]; lia]. }
  split.
  - apply Qle_shift_div_l; assumption.
  - apply Qle_shift_div_r; assumption.
Qed.

(** A window that ends at an index of the array is not empty. *)
Lemma window_nonempty {A : Type} (arr : list A) (i start : nat) :
  (i < length arr)%nat -> (start <= i)%nat ->
  firstn (i + 1 - start) (skipn start arr) <> [].
Proof.
  intros Hi Hs Hnil. apply (f_equal (@length A)) in Hnil.
  rewrite length_firstn, length_skipn in Hnil. cbn in Hnil. lia.
Qed.

Lemma smooth_envelope_length (envelope : list Q) :
  length (smooth_envelope envelope) = length envelope.
Proof. unfold smooth_envelope. now rewrite length_map, length_seq. Qed.

(** X7. The three-sample moving average keeps the length of the envelope and
    keeps every bound of it: if all samples lie between [lo] and [hi], so do
    all smoothed samples. *)
Theorem smooth_envelope_bounds (envelope : list Q) (lo hi : Q) :
  length (smooth_envelope envelope) = length envelope
  /\ (Forall (fun x => lo <= x <= hi) envelope ->
      Forall (fun x => lo <= x <= hi) (smooth_envelope envelope)).
Proof.
  split; [apply smooth_envelope_length|].
  intros Hall. unfold smooth_envelope. apply Forall_map, Forall_forall.
  intros i Hi. apply in_seq in Hi. cbn zeta.
  apply average_between.
  - apply window_nonempty; lia.
  - apply Forall_take, Forall_drop, Hall.
Qed.

(** X8. The dashboard's [smoothArr] with its default window of 3 computes the
    same series as the hook's envelope smoothing; with any window of at least
    1 it keeps the length and every bound of the series; with a window of 0
    or less every entry is 0. *)
Theorem smoothArr_facts (arr : list Q) :
  Alerts.smoothArr arr 3 = smooth_envelope arr
  /\ (forall window lo hi,
         (1 <= window)%Z ->
         length (Alerts.smoothArr arr window) = length arr
         /\ (Forall (fun x => lo <= x <= hi) arr ->
             Forall (fun x => lo <= x <= hi) (Alerts.smoothArr arr window)))
  /\ (forall window,
         (window <= 0)%Z ->
         Forall (fun x => x == 0) (Alerts.smoothArr arr window)).
Proof.
  split; [|split].
  - unfold Alerts.smoothArr, smooth_envelope. apply map_ext_in.
    intros i Hi. apply in_seq in Hi. cbn zeta.
    replace (Z.to_nat (Z.max 0 (Z.of_nat i - (3 - 1)))) with (i - 2)%nat by lia.
    set (w := firstn (i + 1 - (i - 2)) (skipn (i - 2) arr)).
    assert (Hw : w <> []) by (apply window_nonempty; lia).
    unfold sum, len. f_equal. f_equal.
    destruct w; [congruence | cbn [length]; lia].
  - intros window lo hi Hwin. unfold Alerts.smoothArr.
    split; [now rewrite length_map, length_seq|].
    intros Hall. apply Forall_map, Forall_forall.
    intros i Hi. apply in_seq in Hi. cbn zeta.
    set (start := Z.to_nat (Z.max 0 (Z.of_nat i - (window - 1)))).
    set (w := firstn (i + 1 - start) (skipn start arr)).
    assert (Hw : w <> []) by (apply window_nonempty; lia).
    replace (Z.max 1 (Z.of_nat (length w))) with (Z.of_nat (length w))
      by (destruct w; [congruence | cbn [length]; lia]).
    apply (average_between lo hi w Hw).
    apply Forall_take, Forall_drop, Hall.
  - intros window Hwin. unfold Alerts.smoothArr.
    apply Forall_map, Forall_forall.
    intros i Hi. apply in_seq in Hi. cbn zeta.
    replace (Z.to_nat (Z.max 0 (Z.of_nat i - (window - 1)))) with
      (i + Z.to_nat (1 - window))%nat by lia.
    replace (i + 1 - (i + Z.to_nat (1 - window)))%nat with 0%nat by lia.
    reflexivity.
Qed.

End SmoothingFacts.

(** Percentages stay percentages. *)
Lemma smooth_envelope_bounds_witness :
  Forall (fun x => 0 <= x <= 100) (Stats.smooth_envelope [0; 100; 50; 20]).
Proof.
  apply (proj2 (smooth_envelope_bounds [0; 100; 50; 20] 0 100)).
  repeat constructor; discriminate.
Defined.

Lemma smoothArr_facts_witness :
  length (Alerts.smoothArr [0; 100; 50; 20] 5) = 4%nat.
Proof.
  apply (proj1 (proj1 (proj2 (smoothArr_facts [0; 100; 50; 20])) 5%Z 0 100 ltac:(lia))).
Defined.

Section SoundScoreFacts.

Import JsNum Stats Monitor.

(** X6. The sound block scores 0 without a warning, or raises the warning
    with a score between 0.4 and 1; the clamp that follows never changes the
    score. *)
Theorem sound_tick_range (envelope : list Q) (times : list Z) (clock : nat -> Z)
    (bandEnergyLow : Q) :
  let score := fst (sound_tick envelope times clock bandEnergyLow) in
  let warning := snd (sound_tick envelope times clock bandEnergyLow) in
  ((warning = false /\ score == 0) \/ (warning = true /\ 0.4 <= score <= 1))
  /\ Qmax 0 (Qmin 1 score) == score.
Proof.
  cbn zeta.
  assert (Hcases :
    (snd (sound_tick envelope times clock bandEnergyLow) = false
     /\ fst (sound_tick envelope times clock bandEnergyLow) == 0)
    \/ (snd (sound_tick envelope times clock bandEnergyLow) = true
        /\ 0.4 <= fst (sound_tick envelope times clock bandEnergyLow) <= 1)).
  { unfold sound_tick. destruct (8 <=? length envelope)%nat.
    - set (peaks := detectPeaks _ _ _ _ _ _).
      destruct (ok (evaluatePeriodicity peaks 3 500)) eqn:Hok.
      + right. cbn [fst snd]. split; [reflexivity|].
        assert (Hn : (3 <= length peaks)%nat).
        { unfold evaluatePeriodicity in Hok.
          destruct (length peaks <? 3)%nat eqn:Hn; [discriminate|].
          now apply Nat.ltb_ge in Hn. }
        assert (H3 : 3 <= inject_Z (Z.of_nat (length peaks))).
        { change 3 with (inject_Z 3). rewrite <- Zle_Qle. lia. }
        assert (Hq : 0.5 <= inject_Z (Z.of_nat (length peaks)) / 6).
        { apply Qle_shift_div_l; [reflexivity | lra]. }
        revert Hq. generalize (inject_Z (Z.of_nat (length peaks)) / 6).
        intros q Hq.
        destruct (Q.min_spec 1 q) as [[Hlt ->] | [Hle ->]]; split; lra.
      + destruct (Qltb 0.25 bandEnergyLow); cbn [fst snd].
        * right. split; [reflexivity | split; lra].
        * left. split; reflexivity.
    - destruct (Qltb 0.25 bandEnergyLow); cbn [fst snd].
      + right. split; [reflexivity | split; lra].
      + left. split; reflexivity. }
  split; [exact Hcases|].
  set (score := fst (sound_tick envelope times clock bandEnergyLow)) in *.
  assert (Hr : 0 <= score <= 1) by (destruct Hcases as [[_ H] | [_ H]]; lra).
  rewrite Q.min_r by lra. apply Q.max_r. lra.
Qed.

End SoundScoreFacts.

Section CalibrationFlow.

Import JsNum Monitor Invariants.

Lemma tick_calib (st : state) (f : frame) :
  processed st (Some f) = true ->
  calib (tick st (Some f)) = calibration_tick (calib st) (nowTs f) (EAR f).
Proof. intros Hp. open_tick Hp. reflexivity. Qed.

Lemma stopCalibration_ok (c : Calibration) :
  thresholds_ok c -> thresholds_ok (stopCalibration c).
Proof.
  intros Hc. unfold stopCalibration.
  destruct (calibrationSamples c) as [|x rest]; [exact Hc|].
  generalize (average (x :: rest)). intros avg cl.
  cbn [EAR_CLOSED_REF EAR_OPEN_REF].
  destruct avg as [a| | |]; cbn [mul scale_inf Qcompare]; try discriminate.
  - destruct (max_fin 0.12 (a * 0.6)) as (c0 & Hc0 & Hq0). rewrite Hc0.
    intros Hcl. injection Hcl as <-. cbn [add].
    destruct (max_fin (c0 + 0.04) (a * 0.75)) as (o & Ho & Hqo). rewrite Ho.
    exists o. split; [reflexivity|].
    pose proof (Q.le_max_l 0.12 (a * 0.6)). pose proof (Q.le_max_l (c0 + 0.04) (a * 0.75)).
    split; lra.
  - cbn. intros Hcl. injection Hcl as <-.
    eexists. split; [reflexivity|]. split; [apply Qle_refl | apply Qle_refl].
Qed.

Lemma calibration_tick_ok (c : Calibration) (nowTs : Z) (EAR : num) :
  thresholds_ok c -> thresholds_ok (calibration_tick c nowTs EAR).
Proof.
  intros Hc. unfold calibration_tick.
  destruct (calibrating c); [|exact Hc].
  destruct (calibrationStartTs c) as [start|]; [|exact Hc].
  destruct (_ <=? _)%Z; [apply stopCalibration_ok|]; exact Hc.
Qed.

Lemma thresholds_reachable (st : state) :
  reachable st -> thresholds_ok (calib st).
Proof.
  revert st. apply (reachable_ind (fun st => thresholds_ok (calib st))).
  - intros mountTs cl Hcl. cbn in *. injection Hcl as <-.
    eexists. split; [reflexivity|]. split; lra.
  - intros st [input|now| |] Hc; cbn [step with_calib with_blinkDetected calib].
    + destruct (processed st input) eqn:Hp.
      * destruct input as [f|]; [|discriminate].
        rewrite tick_calib by exact Hp. now apply calibration_tick_ok.
      * now rewrite not_processed_tick.
    + exact Hc.
    + now apply stopCalibration_ok.
    + exact Hc.
Qed.

(** X9. In every reachable state, thresholds that are finite respect the
    floor and the hysteresis gap: the closed threshold is at least 0.12 and
    the open threshold is at least 0.04 above it. *)
Theorem thresholds_invariant (st : state) :
  reachable st ->
  forall earClosed,
    EAR_CLOSED_REF (calib st) = Fin earClosed ->
    exists earOpen,
      EAR_OPEN_REF (calib st) = Fin earOpen
      /\ 0.12 <= earClosed /\ earClosed + 0.04 <= earOpen.
Proof. intros Hreach. exact (thresholds_reachable st Hreach). Qed.

Lemma calibration_run_early (c : Calibration) (start : Z) (early : list (Z * num)) :
  calibrating c = true -> calibrationStartTs c = Some start ->
  Forall (fun x => (fst x - start < calibrationDurationMs)%Z) early ->
  let c' := calibration_run c early in
  calibrating c' = true /\ calibrationStartTs c' = Some start
  /\ calibrationSamples c' = calibrationSamples c ++ map snd early
  /\ EAR_CLOSED_REF c' = EAR_CLOSED_REF c /\ EAR_OPEN_REF c' = EAR_OPEN_REF c.
Proof.
  intros Hcal Hstart Hall. revert c Hcal Hstart.
  induction Hall as [|[ts e] rest Hx _ IH]; intros c Hcal Hstart; cbn zeta.
  - cbn. rewrite app_nil_r. repeat split; assumption.
  - unfold calibration_run. cbn [fold_left fst snd].
    fold (calibration_run (calibration_tick c ts e) rest).
    assert (Hstep : calibration_tick c ts e
                    = {| calibrating := true; calibrationStartTs := Some start;
                         calibrationSamples := calibrationSamples c ++ [e];
                         baselineEar := baselineEar c;
                         EAR_CLOSED_REF := EAR_CLOSED_REF c;
                         EAR_OPEN_REF := EAR_OPEN_REF c;
                         calibrationProgress :=
                           calibrationProgress (calibration_tick c ts e) |}).
    { unfold calibration_tick. rewrite Hcal, Hstart. cbn [fst] in Hx.
      apply Z.leb_gt in Hx. rewrite Hx. reflexivity. }
    destruct (IH (calibration_tick c ts e)) as (H1 & H2 & H3 & H4 & H5).
    + rewrite Hstep. reflexivity.
    + rewrite Hstep. reflexivity.
    + rewrite H1, H2, H3, H4, H5. rewrite Hstep.
      cbn [calibrationSamples EAR_CLOSED_REF EAR_OPEN_REF map snd].
      rewrite <- app_assoc. repeat split.
Qed.

Lemma stopCalibration_fields (c : Calibration) :
  calibrationSamples c <> [] ->
  calibrating (stopCalibration c) = false
  /\ calibrationProgress (stopCalibration c) = 1
  /\ calibrationSamples (stopCalibration c) = calibrationSamples c
  /\ EAR_CLOSED_REF (stopCalibration c)
     = max (Fin 0.12) (mul (average (calibrationSamples c)) (Fin 0.6))
  /\ EAR_OPEN_REF (stopCalibration c)
     = max (add (EAR_CLOSED_REF (stopCalibration c)) (Fin 0.04))
           (mul (average (calibrationSamples c)) (Fin 0.75)).
Proof.
  intros Hne. unfold stopCalibration.
  destruct (calibrationSamples c) as [|x rest]; [congruence|].
  repeat split.
Qed.

Lemma calibration_run_idle (c : Calibration) (later : list (Z * num)) :
  calibrating c = false -> calibration_run c later = c.
Proof.
  intros Hidle. induction later as [|[ts e] later IH]; [reflexivity|].
  unfold calibration_run in *. cbn [fold_left fst snd].
  unfold calibration_tick at 2. rewrite Hidle. exact IH.
Qed.

(** X10. A calibration started at time [start] runs until the first effect
    run at or after [start + 10000]: the earlier runs only collect their EAR,
    and that run ends the session with progress 1 and thresholds computed
    from exactly the EARs collected since the start, its own included, so
    that the automatic stop never finds an empty sample list; later runs
    leave the calibration alone. *)
Theorem calibration_session (c : Calibration) (start : Z)
    (early : list (Z * num)) (tsLast : Z) (earLast : num) :
  Forall (fun x => (fst x - start < 10000)%Z) early ->
  (10000 <= tsLast - start)%Z ->
  let samples := map snd early ++ [earLast] in
  let c' := calibration_run (startCalibration start c) (early ++ [(tsLast, earLast)]) in
  calibrating c' = false
  /\ calibrationProgress c' = 1
  /\ calibrationSamples c' = samples
  /\ EAR_CLOSED_REF c' = max (Fin 0.12) (mul (average samples) (Fin 0.6))
  /\ EAR_OPEN_REF c'
     = max (add (EAR_CLOSED_REF c') (Fin 0.04)) (mul (average samples) (Fin 0.75))
  /\ forall later, calibration_run c' later = c'.
Proof.
  intros Hearly Hlast samples c'. subst c'.
  unfold calibration_run. rewrite fold_left_app. cbn [fold_left fst snd].
  fold (calibration_run (startCalibration start c) early).
  destruct (calibration_run_early (startCalibration start c) start early
              eq_refl eq_refl Hearly) as (H1 & H2 & H3 & H4 & H5).
  set (c1 := calibration_run (startCalibration start c) early) in *.
  cbn [startCalibration calibrationSamples app] in H3.
  assert (Hstop :
    calibration_tick c1 tsLast earLast
    = stopCalibration
        {| calibrating := true; calibrationStartTs := Some start;
           calibrationSamples := samples; baselineEar := baselineEar c1;
           EAR_CLOSED_REF := EAR_CLOSED_REF c1; EAR_OPEN_REF := EAR_OPEN_REF c1;
           calibrationProgress :=
             (if Qltb 0.01
                   (Qabs (calibrationProgress c1
                          - Qmin 1 (inject_Z (tsLast - start)
                                    / inject_Z calibrationDurationMs)))
              then Qmin 1 (inject_Z (tsLast - start) / inject_Z calibrationDurationMs)
              else calibrationProgress c1) |}).
  { unfold calibration_tick. rewrite H1, H2, H3.
    assert (Hl : (calibrationDurationMs <=? tsLast - start)%Z = true)
      by (apply Z.leb_le; exact Hlast).
    rewrite Hl. reflexivity. }
  rewrite Hstop.
  assert (Hne : samples <> [])
    by (subst samples; destruct (map snd early); discriminate).
  set (c2 := {| calibrating := true; calibrationStartTs := Some start;
                calibrationSamples := samples; baselineEar := baselineEar c1;
                EAR_CLOSED_REF := EAR_CLOSED_REF c1;
                EAR_OPEN_REF := EAR_OPEN_REF c1;
                calibrationProgress := _ |}).
  destruct (stopCalibration_fields c2 Hne) as (F1 & F2 & F3 & F4 & F5).
  repeat split; try assumption.
  intros later. now apply calibration_run_idle.
Qed.

End CalibrationFlow.

(** A session of three runs: two early ones and the one that ends it. *)
Lemma calibration_session_witness :
  Monitor.calibrating
    (Invariants.calibration_run
       (Monitor.startCalibration 1000 Monitor.init_calibration)
       ([(1200, JsNum.Fin 0.3); (6000, JsNum.Fin 0.32)] ++ [(11000, JsNum.Fin 0.28)])%Z)
  = false.
Proof.
  apply (calibration_session Monitor.init_calibration 1000
           [(1200, JsNum.Fin 0.3); (6000, JsNum.Fin 0.32)]%Z 11000 (JsNum.Fin 0.28)).
  - repeat constructor.
  - vm_compute. discriminate.
Defined.

Lemma thresholds_invariant_witness :
  exists earOpen,
    Monitor.EAR_OPEN_REF (Monitor.calib (Monitor.init 0)) = JsNum.Fin earOpen
    /\ 0.12 <= 0.26 /\ 0.26 + 0.04 <= earOpen.
Proof.
  apply (thresholds_invariant (Monitor.init 0)).
  - exists 0%Z, []. reflexivity.
  - reflexivity.
Defined.

Section EyeFacts.

Import JsNum Monitor Invariants.

(** The eye classification and the continuous-close fields after a processed
    run. *)
Lemma tick_classification (st : state) (f : frame) :
  processed st (Some f) = true ->
  let st' := tick st (Some f) in
  let triggered :=
    prevEyesClosed st'
    && (CONTINUOUS_CLOSE_MS_ALERT <=? nowTs f - lastChangeTs (lastEyeState st'))%Z in
  prevEyesClosed st'
  = (if prevEyesClosed st then lt (EAR f) (EAR_OPEN_REF (calib st'))
     else lt (EAR f) (EAR_CLOSED_REF (calib st')))
  /\ lastUpdate st' = nowTs f
  /\ continuousClose st'
     = (if negb (Bool.eqb (orElse (pv_continuousClose (prevValues st)) false)
                          triggered)
        then triggered else continuousClose st)
  /\ pv_continuousClose (prevValues st')
     = (if negb (Bool.eqb (orElse (pv_continuousClose (prevValues st)) false)
                          triggered)
        then Some triggered else pv_continuousClose (prevValues st)).
Proof.
  intros Hp. open_tick Hp.
  cbn [prevEyesClosed lastUpdate continuousClose prevValues pv_continuousClose
       calib lastEyeState].
  split; [reflexivity|]. split; [reflexivity|].
  destruct (if prevEyesClosed st then _ else _); cbn [andb]; split; reflexivity.
Qed.

(** X11. Hysteresis.  On a processed run of a reachable hook whose thresholds
    are finite, an EAR below the closed threshold closes the eyes, an EAR at
    or above the open threshold opens them, and an EAR in between leaves the
    classification as it was; an EAR that is NaN always reads as open. *)
Theorem eye_hysteresis (st : state) (f : frame) :
  reachable st -> processed st (Some f) = true ->
  let st' := tick st (Some f) in
  (forall earClosed earOpen e,
      EAR_CLOSED_REF (calib st') = Fin earClosed ->
      EAR_OPEN_REF (calib st') = Fin earOpen ->
      EAR f = Fin e ->
      (e < earClosed -> prevEyesClosed st' = true)
      /\ (earOpen <= e -> prevEyesClosed st' = false)
      /\ (earClosed <= e < earOpen -> prevEyesClosed st' = prevEyesClosed st))
  /\ (EAR f = NaN -> prevEyesClosed st' = false).
Proof.
  intros Hreach Hp st'.
  destruct (tick_classification st f Hp) as (Hcls & _).
  fold st' in Hcls. split.
  - intros cl op e Hcl Hop He.
    destruct (thresholds_reachable st' (reachable_step st (Effect (Some f)) Hreach)
                cl Hcl) as (op' & Hop' & Hfloor & Hgap).
    rewrite Hop in Hop'. injection Hop' as <-.
    rewrite Hcls, Hcl, Hop, He. cbn [lt].
    repeat split.
    + intros Hlow. destruct (prevEyesClosed st); apply Qltb_true; lra.
    + intros Hhigh. destruct (prevEyesClosed st); apply Qltb_false; lra.
    + intros [Hlo Hhi]. destruct (prevEyesClosed st);
        [apply Qltb_true | apply Qltb_false]; assumption.
  - intros Hnan. rewrite Hcls, Hnan. destruct (prevEyesClosed st); reflexivity.
Qed.

(** The eye refs agree, and the published continuous-close flag is exact. *)
Lemma continuous_close_invariant (st : state) :
  reachable st ->
  closed (lastEyeState st) = prevEyesClosed st
  /\ orElse (pv_continuousClose (prevValues st)) false = continuousClose st
  /\ continuousClose st
     = prevEyesClosed st
       && (CONTINUOUS_CLOSE_MS_ALERT <=? lastUpdate st - lastChangeTs (lastEyeState st))%Z.
Proof.
  revert st. apply reachable_ind.
  - intros mountTs. repeat split.
  - intros st [input|now| |] (H1 & H2 & H3); cbn [step];
      try (repeat split; assumption).
    destruct (processed st input) eqn:Hp;
      [|rewrite not_processed_tick by exact Hp; repeat split; assumption].
    destruct input as [f|]; [|discriminate].
    destruct (tick_classification st f Hp) as (_ & Hlast & Hcc & Hpv).
    destruct (tick_eye st f Hp) as (Hes & _).
    set (st' := tick st (Some f)) in *. cbn zeta in Hcc, Hpv.
    split; [rewrite Hes; apply eye_tick_closed|].
    rewrite Hlast.
    set (trig := prevEyesClosed st' && _) in *.
    rewrite Hcc, Hpv, H2.
    destruct (Bool.eqb (continuousClose st) trig) eqn:E; cbn [negb orElse].
    + apply eqb_prop in E. split; [exact H2 | exact E].
    + split; reflexivity.
Qed.

(** X12. After every processed run of a reachable hook the published
    continuous-close flag is exactly "eyes closed, and closed for at least
    500 ms"; in particular it is never raised by the run that closes the
    eyes. *)
Theorem continuous_close_exact (st : state) (f : frame) :
  reachable st -> processed st (Some f) = true ->
  let st' := tick st (Some f) in
  (continuousClose st' = true <->
   closed (lastEyeState st') = true
   /\ (500 <= nowTs f - lastChangeTs (lastEyeState st'))%Z)
  /\ (closed (lastEyeState st) = false -> continuousClose st' = false).
Proof.
  intros Hreach Hp st'.
  destruct (continuous_close_invariant st' (reachable_step st (Effect (Some f)) Hreach))
    as (H1 & _ & H3).
  destruct (tick_classification st f Hp) as (_ & Hlast & _).
  destruct (tick_eye st f Hp) as (Hes & _).
  fold st' in Hlast, Hes. rewrite Hlast in H3. split.
  - rewrite H3, H1, andb_true_iff, Z.leb_le. reflexivity.
  - intros Hopen. rewrite H3.
    destruct (prevEyesClosed st') eqn:Hnow; [|reflexivity]. cbn [andb].
    apply Z.leb_gt.
    assert (Hts : lastChangeTs (lastEyeState st') = nowTs f).
    { rewrite Hes. unfold eye_tick. rewrite Hopen. cbn. reflexivity. }
    rewrite Hts. unfold CONTINUOUS_CLOSE_MS_ALERT. lia.
Qed.

(** X13. The blink counter is never negative and never goes down, an event
    raises it by at most one, and a closure that has been reported as a
    continuous close is never counted as a blink. *)
Theorem blink_counter_monotone (st : state) :
  reachable st ->
  (0 <= longBlinkCount st)%Z
  /\ blinkCount st = longBlinkCount st
  /\ (forall ev,
         (longBlinkCount st <= longBlinkCount (step st ev) <= longBlinkCount st + 1)%Z)
  /\ (continuousClose st = true ->
      forall ev, longBlinkCount (step st ev) = longBlinkCount st).
Proof.
  intros Hreach.
  assert (Hstep : forall st0 ev,
             (longBlinkCount st0 <= longBlinkCount (step st0 ev)
              <= longBlinkCount st0 + 1)%Z).
  { intros st0 [input|now| |]; cbn [step with_calib with_blinkDetected longBlinkCount];
      try lia.
    destruct (processed st0 input) eqn:Hp;
      [|rewrite not_processed_tick by exact Hp; lia].
    destruct input as [f|]; [|discriminate].
    destruct (tick_eye st0 f Hp) as (_ & Hlb & _). rewrite Hlb.
    unfold eye_tick. destruct (Bool.eqb _ _); cbn [fst snd]; [lia|].
    destruct (closed (lastEyeState st0)); cbn [fst snd]; [|lia].
    destruct (_ && _); cbn [fst snd]; lia. }
  split; [|split; [|split]].
  - revert st Hreach. apply reachable_ind.
    + intros mountTs. cbn. lia.
    + intros st ev Hst. specialize (Hstep st ev). lia.
  - apply blink_invariant, Hreach.
  - apply Hstep.
  - intros Hcc [input|now| |]; cbn [step with_calib with_blinkDetected longBlinkCount];
      try reflexivity.
    destruct (processed st input) eqn:Hp;
      [|rewrite not_processed_tick by exact Hp; reflexivity].
    destruct input as [f|]; [|discriminate].
    destruct (continuous_close_invariant st Hreach) as (H1 & _ & H3).
    rewrite Hcc in H3. symmetry in H3. apply andb_true_iff in H3.
    destruct H3 as [Hclosed Hlong]. apply Z.leb_le in Hlong.
    pose proof (processed_gate st f Hp) as Hgate. apply Z.ltb_ge in Hgate.
    unfold UPDATE_MS in Hgate. unfold CONTINUOUS_CLOSE_MS_ALERT in Hlong.
    destruct (tick_eye st f Hp) as (_ & Hlb & _). rewrite Hlb.
    unfold eye_tick. destruct (Bool.eqb _ _); cbn [fst snd]; [reflexivity|].
    rewrite H1, Hclosed.
    replace (LONG_BLINK_MS <=? nowTs f - lastChangeTs (lastEyeState st))%Z
      with true by (symmetry; apply Z.leb_le; unfold LONG_BLINK_MS; lia).
    replace (nowTs f - lastChangeTs (lastEyeState st) <? LONG_BLINK_MAX_MS)%Z
      with false by (symmetry; apply Z.ltb_ge; unfold LONG_BLINK_MAX_MS; lia).
    reflexivity.
Qed.

End EyeFacts.

Section BufferFacts.

Import JsNum Monitor Invariants.

Lemma prune_sorted_by (R : PercEntry -> PercEntry -> Prop) (cutoff : Z)
    (buf : list PercEntry) :
  Sorted R buf -> Sorted R (prune cutoff buf).
Proof.
  induction 1 as [|e rest Hrest IH He]; cbn; [constructor|].
  destruct (ts e <? cutoff)%Z; [exact IH | now constructor].
Qed.

Lemma prune_keeps_last (cutoff : Z) (buf : list PercEntry) (e : PercEntry) :
  (cutoff <= ts e)%Z ->
  exists older, prune cutoff (buf ++ [e]) = older ++ [e].
Proof.
  intros He. induction buf as [|a buf IH]; cbn.
  - apply Z.ltb_ge in He. rewrite He. now exists [].
  - destruct (ts a <? cutoff)%Z; [exact IH|]. now exists (a :: buf).
Qed.

(** Entries at least 180 ms apart that end by [hi]: the first one is early. *)
Lemma spaced_entries_span (buf : list PercEntry) (a : PercEntry) (hi : Z) :
  Sorted (fun x y => (ts x + 180 <= ts y)%Z) (a :: buf) ->
  Forall (fun e => (ts e <= hi)%Z) (a :: buf) ->
  (ts a + 180 * Z.of_nat (length buf) <= hi)%Z.
Proof.
  revert a. induction buf as [|b buf IH]; intros a Hs Hall.
  - inversion Hall; subst. cbn. lia.
  - inversion Hs as [|? ? Hs' Hhd]; subst. inversion Hhd; subst.
    inversion Hall; subst.
    specialize (IH b Hs' ltac:(assumption)).
    cbn [length]. lia.
Qed.

Lemma buffer_spacing_invariant (st : state) :
  reachable st ->
  Sorted (fun x y => (ts x + 180 <= ts y)%Z) (percBuffer st)
  /\ Forall (fun e => (lastUpdate st - 30000 <= ts e <= lastUpdate st)%Z)
            (percBuffer st).
Proof.
  revert st. apply reachable_ind.
  - intros mountTs. split; constructor.
  - intros st [input|now| |] (Hs & Hall); cbn [step];
      try (split; assumption).
    destruct (processed st input) eqn:Hp;
      [|rewrite not_processed_tick by exact Hp; split; assumption].
    destruct input as [f|]; [|discriminate].
    destruct (tick_perclos st f Hp) as (Hbuf & Hlast & _).
    pose proof (processed_gate st f Hp) as Hgate.
    apply Z.ltb_ge in Hgate. unfold UPDATE_MS in Hgate.
    set (st' := tick st (Some f)) in *. rewrite Hbuf, Hlast.
    set (e := {| ts := nowTs f; p_closed := prevEyesClosed st' |}).
    assert (Hpush : Sorted (fun x y => (ts x + 180 <= ts y)%Z) (percBuffer st ++ [e])).
    { apply sorted_snoc; [exact Hs|].
      intros p r Hrev. rewrite Forall_forall in Hall.
      assert (Hin : In p (percBuffer st)) by (apply in_rev; rewrite Hrev; now left).
      specialize (Hall p Hin). cbn. lia. }
    split; [now apply prune_sorted_by|].
    apply Forall_forall. intros x Hx. split.
    + assert (Hrec : Forall (fun e0 => (nowTs f - PERCLOS_WINDOW_MS <= ts e0)%Z)
                            (prune (nowTs f - PERCLOS_WINDOW_MS) (percBuffer st ++ [e]))).
      { apply prune_recent.
        apply Sorted_StronglySorted; [intros a b c; lia|].
        eapply Sorted_ind with (P := fun l => Sorted (fun a b => (ts a <= ts b)%Z) l);
          [constructor | | exact Hpush].
        intros a l Hl IHl Hhd. constructor; [exact IHl|].
        destruct Hhd; constructor. lia. }
      rewrite Forall_forall in Hrec. specialize (Hrec x Hx).
      unfold PERCLOS_WINDOW_MS in Hrec. lia.
    + assert (Hle : Forall (fun e0 => (ts e0 <= nowTs f)%Z) (percBuffer st ++ [e])).
      { apply Forall_app. split.
        - apply Forall_impl with (2 := Hall). intros a Ha. lia.
        - constructor; [cbn; lia | constructor]. }
      apply (prune_keeps _ (nowTs f - PERCLOS_WINDOW_MS)%Z) in Hle.
      rewrite Forall_forall in Hle. exact (Hle x Hx).
Qed.

(** X14. The PERCLOS buffer never holds more than 167 samples, its samples
    are at least 180 ms apart, and after a processed run it ends with the
    sample of that run, so that the window is never empty when the ratio is
    computed. *)
Theorem perclos_buffer_bounded (st : state) :
  reachable st ->
  (length (percBuffer st) <= 167)%nat
  /\ Sorted (fun x y => (ts x + 180 <= ts y)%Z) (percBuffer st)
  /\ (forall f,
         processed st (Some f) = true ->
         exists older,
           percBuffer (tick st (Some f))
           = older ++ [{| ts := nowTs f;
                          p_closed := prevEyesClosed (tick st (Some f)) |}]).
Proof.
  intros Hreach. destruct (buffer_spacing_invariant st Hreach) as [Hs Hall].
  split; [|split; [exact Hs|]].
  - destruct (percBuffer st) as [|a buf]; [cbn; lia|].
    pose proof (spaced_entries_span buf a (lastUpdate st) Hs) as Hspan.
    assert (Hhi : Forall (fun e => (ts e <= lastUpdate st)%Z) (a :: buf)).
    { apply Forall_impl with (2 := Hall). intros e He. lia. }
    specialize (Hspan Hhi). inversion Hall as [|? ? Ha _]; subst.
    cbn [length]. lia.
  - intros f Hp. destruct (tick_perclos st f Hp) as (Hbuf & _).
    rewrite Hbuf. apply prune_keeps_last. cbn. unfold PERCLOS_WINDOW_MS. lia.
Qed.

End BufferFacts.

Section NanFacts.

Import JsNum Monitor Invariants.

Lemma isFinite_add (x y : num) :
  isFinite (add x y) = true -> isFinite x = true /\ isFinite y = true.
Proof. destruct x, y; cbn; intros H; try discriminate; split; reflexivity. Qed.

Lemma isFinite_scaled (w : Q) (x : num) :
  isFinite (mul (Fin w) x) = true -> isFinite x = true.
Proof.
  destruct x; cbn; try reflexivity; try discriminate;
    unfold scale_inf; destruct (w ?= 0); discriminate.
Qed.

Lemma fuse_not_finite (e p m h s : num) :
  isFinite e && isFinite p && isFinite m && isFinite h && isFinite s = false ->
  fuse e p m h s = Fin 0.
Proof.
  intros Hnf. unfold fuse.
  destruct (isFinite (weighted_sum e p m h s)) eqn:Hfin; [|reflexivity].
  exfalso. unfold weighted_sum in Hfin.
  apply isFinite_add in Hfin. destruct Hfin as [Hfin Hs].
  apply isFinite_add in Hfin. destruct Hfin as [Hfin Hh].
  apply isFinite_add in Hfin. destruct Hfin as [Hfin Hm].
  apply isFinite_add in Hfin. destruct Hfin as [He Hp].
  apply isFinite_scaled in He, Hp, Hm, Hh, Hs.
  rewrite He, Hp, Hm, Hh, Hs in Hnf. discriminate.
Qed.

(** The head and fusion fields after a processed run, with the mouth and head
    components spelled out. *)
Lemma tick_components (st : state) (f : frame) :
  processed st (Some f) = true ->
  let moved := head_tick (head st) (nowTs f) (pitchDeg f) in
  head (tick st (Some f)) = fst moved
  /\ exists e p s,
       emaRef (tick st (Some f))
       = smooth (emaRef st)
           (fuse (Fin e) (Fin p)
                 (min (Fin 1) (div (MAR f) (Fin YAWN_MAR_NORMALIZE)))
                 (if headNodDetected (pitchDeg f) (snd moved) then Fin 1
                  else min (Fin 1) (max (Fin 0) (div (pitchDeg f) (Fin 30))))
                 (Fin s)).
Proof.
  intros Hp. unfold processed in Hp. rewrite negb_true_iff in Hp.
  unfold tick. rewrite Hp.
  destruct (eye_tick _ _ _ _ _ _) as [[[es lb] bc] bd].
  destruct (sound_tick _ _ _ _) as [ss warn].
  destruct (head_tick (head st) (nowTs f) (pitchDeg f)) as [h' pitchVel].
  cbn [head emaRef fst snd]. split; [reflexivity|].
  eexists _, _, _. reflexivity.
Qed.

Lemma headNod_nan_pitch (pitchVel : num) : headNodDetected NaN pitchVel = false.
Proof.
  unfold headNodDetected. cbn. now rewrite andb_false_r.
Qed.

(** X15. A component that is not finite zeroes the whole raw score; a
    processed run whose mouth ratio or head pitch is NaN therefore smooths
    towards 0 whatever the eyes do, and in a reachable state the smoothed
    score just shrinks to 0.4 times its value. *)
Theorem nan_component_zeroes_score :
  (forall e p m h s,
      isFinite e && isFinite p && isFinite m && isFinite h && isFinite s = false ->
      fuse e p m h s = Fin 0)
  /\ (forall st f,
         processed st (Some f) = true ->
         MAR f = NaN \/ pitchDeg f = NaN ->
         emaRef (tick st (Some f)) = smooth (emaRef st) (Fin 0))
  /\ (forall st f,
         reachable st -> processed st (Some f) = true ->
         MAR f = NaN \/ pitchDeg f = NaN ->
         exists before after,
           emaRef st = Fin before /\ emaRef (tick st (Some f)) = Fin after
           /\ after == 0.4 * before).
Proof.
  assert (Htick : forall st f,
             processed st (Some f) = true ->
             MAR f = NaN \/ pitchDeg f = NaN ->
             emaRef (tick st (Some f)) = smooth (emaRef st) (Fin 0)).
  { intros st f Hp Hnan.
    destruct (tick_components st f Hp) as (_ & e & p & s & Hema).
    rewrite Hema. f_equal. apply fuse_not_finite.
    destruct Hnan as [-> | ->].
    - cbn. reflexivity.
    - rewrite headNod_nan_pitch. cbn. now rewrite andb_false_r. }
  split; [apply fuse_not_finite|]. split; [exact Htick|].
  intros st f Hreach Hp Hnan.
  destruct (score_invariant st Hreach) as [Hrange _].
  destruct (emaRef st) as [q| | |] eqn:Hq; try contradiction.
  exists q, (q * (1 - SMOOTH_ALPHA) + 0 * SMOOTH_ALPHA).
  split; [reflexivity|]. split.
  - rewrite (Htick st f Hp Hnan), Hq. reflexivity.
  - unfold SMOOTH_ALPHA. ring.
Qed.

Lemma head_tick_refs (h : HeadRefs) (nowTs : Z) (pitchDeg : num) :
  lastPitch (fst (head_tick h nowTs pitchDeg)) = Some pitchDeg
  /\ lastPitchTs (fst (head_tick h nowTs pitchDeg)) = Some nowTs.
Proof.
  unfold head_tick.
  destruct (match lastPitch h with Some _ => _ | None => _ end).
  split; reflexivity.
Qed.

Lemma add_nan_r (x : num) : add x NaN = NaN.
Proof. destruct x; reflexivity. Qed.

Lemma head_tick_nan_stays (h : HeadRefs) (nowTs : Z) (pitchDeg : num) :
  currentVel h = Some NaN ->
  currentVel (fst (head_tick h nowTs pitchDeg)) = Some NaN
  /\ headNodDetected pitchDeg (snd (head_tick h nowTs pitchDeg)) = false.
Proof.
  intros Hv.
  assert (Hzero : headNodDetected pitchDeg (Fin 0) = false).
  { unfold headNodDetected. cbn. now rewrite andb_false_r. }
  assert (Hnan : headNodDetected pitchDeg NaN = false).
  { unfold headNodDetected. cbn. now rewrite andb_false_r. }
  unfold head_tick.
  destruct (lastPitch h) as [lp|]; [|cbn [fst snd currentVel]; now split].
  destruct (lastPitchTs h) as [lts|]; [|cbn [fst snd currentVel]; now split].
  destruct (Qltb 0 _); cbn [fst snd currentVel]; [|now split].
  rewrite Hv. cbn [mul add]. now split.
Qed.

Lemma head_tick_poisoned (h : HeadRefs) (nowTs lts : Z) (pitchDeg : num) :
  lastPitch h = Some NaN -> lastPitchTs h = Some lts -> (lts < nowTs)%Z ->
  currentVel (fst (head_tick h nowTs pitchDeg)) = Some NaN.
Proof.
  intros Hlp Hlts Hlt. unfold head_tick. rewrite Hlp, Hlts.
  assert (Hdt : Qltb 0 (inject_Z (nowTs - lts) / 1000) = true).
  { apply Qltb_true. apply Qlt_shift_div_l; [reflexivity|].
    rewrite Qmult_0_l. change 0 with (inject_Z 0). rewrite <- Zlt_Qlt. lia. }
  rewrite Hdt. cbn [fst currentVel]. f_equal.
  unfold sub. cbn [neg]. rewrite add_nan_r. cbn [div mul]. apply add_nan_r.
Qed.

(** X16. A smoothed pitch velocity that is NaN stays NaN, and with it no head
    nod is detected any more; it becomes NaN on the run after a frame whose
    pitch was NaN. *)
Theorem pitch_velocity_nan_sticks :
  (forall h nowTs pitchDeg,
      currentVel h = Some NaN ->
      currentVel (fst (head_tick h nowTs pitchDeg)) = Some NaN
      /\ headNodDetected pitchDeg (snd (head_tick h nowTs pitchDeg)) = false)
  /\ (forall st f1 f2,
         processed st (Some f1) = true ->
         processed (tick st (Some f1)) (Some f2) = true ->
         pitchDeg f1 = NaN ->
         currentVel (head (tick (tick st (Some f1)) (Some f2))) = Some NaN)
  /\ (forall st events,
         currentVel (head st) = Some NaN ->
         currentVel (head (run st events)) = Some NaN).
Proof.
  split; [exact head_tick_nan_stays|]. split.
  - intros st f1 f2 Hp1 Hp2 Hnan.
    destruct (tick_components st f1 Hp1) as (Hh1 & _).
    destruct (tick_components _ f2 Hp2) as (Hh2 & _).
    destruct (tick_perclos st f1 Hp1) as (_ & Hlast & _).
    pose proof (processed_gate _ f2 Hp2) as Hgate.
    apply Z.ltb_ge in Hgate. rewrite Hlast in Hgate. unfold UPDATE_MS in Hgate.
    rewrite Hh2. cbn zeta.
    destruct (head_tick_refs (head st) (nowTs f1) (pitchDeg f1)) as [Hlp Hlts].
    rewrite <- Hh1 in Hlp, Hlts. rewrite Hnan in Hlp.
    apply (head_tick_poisoned _ (nowTs f2) (nowTs f1) (pitchDeg f2) Hlp Hlts).
    lia.
  - intros st events. revert st.
    induction events as [|ev events IH]; intros st Hv; [exact Hv|].
    cbn [run fold_left]. apply IH.
    destruct ev as [input|now| |]; cbn [step with_calib with_blinkDetected head];
      try exact Hv.
    destruct (processed st input) eqn:Hp;
      [|now rewrite not_processed_tick].
    destruct input as [f|]; [|discriminate].
    destruct (tick_components st f Hp) as (Hh & _). rewrite Hh.
    now apply head_tick_nan_stays.
Qed.

End NanFacts.

Section HistoryFacts.

Import JsNum Monitor Arrays MonitorRest HistSpec.

Lemma slice_from_suffix {A : Type} (start : Z) (arr : list A) :
  exists dropped, arr = dropped ++ slice_from start arr.
Proof.
  unfold slice_from. eexists. symmetry. apply firstn_skipn.
Qed.

Lemma slice_from_negative_length {A : Type} (k : nat) (arr : list A) :
  (1 <= k)%nat ->
  length (slice_from (- Z.of_nat k) arr) = Nat.min (length arr) k.
Proof.
  intros Hk. unfold slice_from.
  replace (- Z.of_nat k <? 0)%Z with true by (symmetry; apply Z.ltb_lt; lia).
  rewrite length_skipn. lia.
Qed.

Lemma push_bounded_length {A : Type} (maxPoints : Z) (prev : list A) (x : A) :
  (2 <= maxPoints)%Z ->
  length (push_bounded maxPoints prev x)
  = (Nat.min (length prev) (Z.to_nat (maxPoints - 1)) + 1)%nat.
Proof.
  intros Hm. unfold push_bounded. rewrite length_app. cbn [length].
  replace (- maxPoints + 1)%Z with (- Z.of_nat (Z.to_nat (maxPoints - 1)))%Z by lia.
  rewrite slice_from_negative_length by lia. reflexivity.
Qed.

Lemma push_bounded_one {A : Type} (prev : list A) (x : A) :
  push_bounded 1 prev x = prev ++ [x].
Proof.
  unfold push_bounded, slice_from. change (- (1) + 1)%Z with 0%Z.
  change (0 <? 0)%Z with false. cbn iota.
  replace (Z.to_nat (Z.min 0 (Z.of_nat (length prev)))) with 0%nat by lia.
  reflexivity.
Qed.

Lemma tick_histories_lengths (maxPoints : Z) (st : state) (f : frame)
    (expressions : option Expressions) (h : Histories) :
  (2 <= maxPoints)%Z ->
  (length (drowsyHistory h) <= Z.to_nat maxPoints)%nat ->
  (length (emotionHistory h) <= Z.to_nat maxPoints)%nat ->
  Forall (fun b => b = 0%Z \/ b = 1%Z) (drowsyHistory h) ->
  let h' := tick_histories maxPoints st f expressions h in
  (length (drowsyHistory h') <= Z.to_nat maxPoints)%nat
  /\ (length (emotionHistory h') <= Z.to_nat maxPoints)%nat
  /\ Forall (fun b => b = 0%Z \/ b = 1%Z) (drowsyHistory h').
Proof.
  intros Hm Hd He Hbits. cbn zeta. unfold tick_histories.
  destruct (_ <? _)%Z; [repeat split; assumption|].
  cbn [drowsyHistory emotionHistory].
  rewrite !push_bounded_length by exact Hm.
  split; [lia|]. split; [lia|].
  unfold push_bounded. apply Forall_app. split.
  - destruct (slice_from_suffix (- maxPoints + 1) (drowsyHistory h)) as [dropped Hd'].
    rewrite Hd' in Hbits. apply Forall_app in Hbits. apply Hbits.
  - constructor; [|constructor]. destruct (gt _ _); [right | left]; reflexivity.
Qed.

(** X17. The history update keeps the newest [maxPoints - 1] entries and
    appends the new one: for [maxPoints >= 2] the drowsiness and emotion
    histories never exceed [maxPoints] entries along any sequence of runs and
    the drowsiness history holds only 0 and 1; for [maxPoints = 1] nothing is
    ever dropped and every processed run makes the histories one longer. *)
Theorem histories_bounded :
  (forall (A : Type) maxPoints (prev : list A) x,
      (2 <= maxPoints)%Z ->
      length (push_bounded maxPoints prev x)
      = (Nat.min (length prev) (Z.to_nat (maxPoints - 1)) + 1)%nat
      /\ exists dropped kept,
           prev = dropped ++ kept /\ push_bounded maxPoints prev x = kept ++ [x])
  /\ (forall maxPoints st inputs,
         (2 <= maxPoints)%Z ->
         let h := snd (run_histories maxPoints st init_histories inputs) in
         (length (drowsyHistory h) <= Z.to_nat maxPoints)%nat
         /\ (length (emotionHistory h) <= Z.to_nat maxPoints)%nat
         /\ Forall (fun b => b = 0%Z \/ b = 1%Z) (drowsyHistory h))
  /\ (forall st f expressions h,
         processed st (Some f) = true ->
         let h' := tick_histories 1 st f expressions h in
         length (drowsyHistory h') = S (length (drowsyHistory h))
         /\ length (emotionHistory h') = S (length (emotionHistory h))).
Proof.
  split; [|split].
  - intros A maxPoints prev x Hm. split; [now apply push_bounded_length|].
    destruct (slice_from_suffix (- maxPoints + 1) prev) as [dropped Hd].
    exists dropped, (slice_from (- maxPoints + 1) prev). split; [exact Hd | reflexivity].
  - intros maxPoints st inputs Hm. cbn zeta.
    assert (Hgen : forall inputs st h,
               (length (drowsyHistory h) <= Z.to_nat maxPoints)%nat ->
               (length (emotionHistory h) <= Z.to_nat maxPoints)%nat ->
               Forall (fun b => b = 0%Z \/ b = 1%Z) (drowsyHistory h) ->
               let h' := snd (run_histories maxPoints st h inputs) in
               (length (drowsyHistory h') <= Z.to_nat maxPoints)%nat
               /\ (length (emotionHistory h') <= Z.to_nat maxPoints)%nat
               /\ Forall (fun b => b = 0%Z \/ b = 1%Z) (drowsyHistory h')).
    { clear st inputs. induction inputs as [|[f ex] rest IH]; intros st h Hd He Hb.
      - cbn. repeat split; assumption.
      - cbn [run_histories].
        destruct (tick_histories_lengths maxPoints st f ex h Hm Hd He Hb)
          as (Hd' & He' & Hb').
        now apply IH. }
    apply Hgen; cbn; try lia. constructor.
  - intros st f ex h Hp. cbn zeta. unfold tick_histories.
    rewrite (processed_gate st f Hp). cbn [drowsyHistory emotionHistory].
    rewrite !push_bounded_one, !length_app. cbn [length]. lia.
Qed.

End HistoryFacts.

Lemma histories_bounded_witness :
  length (Arrays.push_bounded 3 [1; 0; 1; 1]%Z 0%Z) = 3%nat.
Proof.
  apply (proj1 (proj1 histories_bounded Z 3%Z [1; 0; 1; 1]%Z 0%Z ltac:(lia))).
Defined.

Section EmotionFacts.

Import JsNum Monitor Arrays MonitorRest HistSpec.

(** The reducer of the emotion block on finite confidences. *)
Lemma dominant_fold (entries : list (string * Q)) (k0 : string) (q0 : Q) :
  let r := fold_left (fun a b => if gt (snd a) (snd b) then a else b)
                     (finite_entries entries) (k0, Fin q0) in
  (r = (k0, Fin q0)
   /\ Forall (fun e => snd e < q0) entries)
  \/ (exists pre k q post,
         entries = pre ++ (k, q) :: post
         /\ r = (k, Fin q)
         /\ q0 <= q
         /\ Forall (fun e => snd e <= q) pre
         /\ Forall (fun e => snd e < q) post).
Proof.
  revert k0 q0. induction entries as [|[kb qb] rest IH]; intros k0 q0; cbn zeta.
  - left. split; [reflexivity | constructor].
  - cbn [finite_entries map fold_left fst snd]. fold (finite_entries rest).
    change (gt (Fin q0) (Fin qb)) with (Qltb qb q0).
    destruct (Qltb qb q0) eqn:E.
    + apply Qltb_true in E.
      destruct (IH k0 q0) as [[Hr Hall] | (pre & k & q & post & He & Hr & Hq & Hpre & Hpost)].
      * left. split; [exact Hr | now constructor].
      * right. exists ((kb, qb) :: pre), k, q, post.
        split; [rewrite He; reflexivity|]. split; [exact Hr|]. split; [exact Hq|].
        split; [|exact Hpost]. constructor; [cbn; lra | exact Hpre].
    + apply Qltb_false in E.
      destruct (IH kb qb) as [[Hr Hall] | (pre & k & q & post & He & Hr & Hq & Hpre & Hpost)].
      * right. exists [], kb, qb, rest.
        split; [reflexivity|]. split; [exact Hr|]. split; [exact E|].
        split; [constructor | exact Hall].
      * right. exists ((kb, qb) :: pre), k, q, post.
        split; [rewrite He; reflexivity|]. split; [exact Hr|].
        split; [lra|]. split; [|exact Hpost].
        constructor; [exact Hq | exact Hpre].
Qed.

(** X18. Without expressions, or with an empty object, the emotion is
    "neutral".  With at least one category and confidences that are finite
    and not negative, the emotion is a category of the object with the
    largest confidence, and among equals the last one in enumeration order. *)
Theorem dominant_emotion_is_maximal :
  dominant None = "neutral"%string
  /\ dominant (Some []) = "neutral"%string
  /\ (forall entries,
         entries <> [] ->
         Forall (fun e => 0 <= snd e) entries ->
         exists pre k q post,
           entries = pre ++ (k, q) :: post
           /\ dominant (Some (finite_entries entries)) = k
           /\ Forall (fun e => snd e <= q) pre
           /\ Forall (fun e => snd e < q) post).
Proof.
  split; [reflexivity|]. split; [reflexivity|].
  intros entries Hne Hpos. unfold dominant.
  destruct (dominant_fold entries "neutral"%string 0)
    as [[_ Hall] | (pre & k & q & post & He & Hr & _ & Hpre & Hpost)].
  - exfalso. destruct entries as [|e rest]; [congruence|].
    inversion Hall; subst. inversion Hpos; subst. lra.
  - exists pre, k, q, post. rewrite Hr. repeat split; assumption.
Qed.

End EmotionFacts.

Lemma dominant_emotion_is_maximal_witness :
  exists pre k q post,
    [("neutral"%string, 0.2); ("happy"%string, 0.7); ("sad"%string, 0.1)]
    = pre ++ (k, q) :: post
    /\ MonitorRest.dominant
         (Some (HistSpec.finite_entries
                  [("neutral"%string, 0.2); ("happy"%string, 0.7); ("sad"%string, 0.1)]))
       = k
    /\ Forall (fun e => snd e <= q) pre
    /\ Forall (fun e => snd e < q) post.
Proof.
  apply (proj2 (proj2 dominant_emotion_is_maximal)).
  - discriminate.
  - repeat constructor; discriminate.
Defined.

Section SoundBufferFacts.

Import JsNum Sound Arrays SoundRest SoundSpec.

Variable cfg : config.

Lemma push_capped_length {A : Type} (cap : nat) (arr : list A) (x : A) :
  length (push_capped cap arr x)
  = (if (cap <? length arr + 1)%nat then length arr else length arr + 1)%nat.
Proof.
  unfold push_capped. cbn zeta.
  assert (Hlen : length (arr ++ [x]) = (length arr + 1)%nat)
    by (rewrite length_app; reflexivity).
  rewrite Hlen. destruct (cap <? length arr + 1)%nat; [|exact Hlen].
  destruct arr; cbn in *; lia.
Qed.

Lemma push_capped_keeps {A : Type} (P : A -> Prop) (cap : nat) (arr : list A) (x : A) :
  Forall P arr -> P x -> Forall P (push_capped cap arr x).
Proof.
  intros Harr Hx. unfold push_capped.
  assert (Hall : Forall P (arr ++ [x])) by (apply Forall_app; split; [assumption | now constructor]).
  cbn zeta. destruct (cap <? _)%nat; [|exact Hall].
  destruct (arr ++ [x]); [constructor | now inversion Hall].
Qed.

(** The sizes of the three buffers. *)
Lemma buffers_invariant (events : list event) (st : state) :
  length (envelopeBuffer st) = length (envelopeTime st) ->
  (length (envelopeBuffer st) <= MAX_ENV)%nat ->
  (length (varianceBuf st) <= varianceWindowSize cfg)%nat ->
  let st' := SoundRest.run cfg st events in
  length (envelopeBuffer st') = length (envelopeTime st')
  /\ (length (envelopeBuffer st') <= MAX_ENV)%nat
  /\ (length (varianceBuf st') <= varianceWindowSize cfg)%nat.
Proof.
  revert st. induction events as [|ev events IH]; intros st Heq Hcap Hvar; cbn zeta.
  - cbn. repeat split; assumption.
  - cbn [SoundRest.run fold_left]. apply IH.
    + destruct ev as [[|now|now dn db sv br]| |]; cbn [step sampleAudio SoundRest.stop SoundRest.start envelopeBuffer envelopeTime];
        try assumption; try reflexivity.
      * destruct (Qltb _ _); cbn [envelopeBuffer envelopeTime]; assumption.
      * destruct (Qltb _ _); [assumption|].
        destruct (if currentlySilent cfg db sv then _ else _) as [[? ?] ?].
        cbn [envelopeBuffer envelopeTime]. rewrite !push_capped_length, Heq. reflexivity.
    + destruct ev as [[|now|now dn db sv br]| |]; cbn [step sampleAudio SoundRest.stop SoundRest.start envelopeBuffer];
        try assumption; try (cbn; lia).
      * destruct (Qltb _ _); cbn [envelopeBuffer]; assumption.
      * destruct (Qltb _ _); [assumption|].
        destruct (if currentlySilent cfg db sv then _ else _) as [[? ?] ?].
        cbn [envelopeBuffer]. rewrite push_capped_length.
        destruct (MAX_ENV <? _)%nat eqn:E; [assumption|].
        apply Nat.ltb_ge in E. exact E.
    + destruct ev as [[|now|now dn db sv br]| |]; cbn [step sampleAudio SoundRest.stop SoundRest.start varianceBuf];
        try assumption; try (cbn; lia).
      * destruct (Qltb _ _); cbn [varianceBuf]; assumption.
      * destruct (Qltb _ _); [assumption|].
        destruct (if currentlySilent cfg db sv then _ else _) as [[? ?] ?].
        cbn [varianceBuf]. rewrite push_capped_length.
        destruct (varianceWindowSize cfg <? _)%nat eqn:E; [assumption|].
        apply Nat.ltb_ge in E. exact E.
Qed.

End SoundBufferFacts.

Section ClockFacts.

Import JsNum Stats Monitor.

Lemma fold_left_ext_in {A B : Type} (f g : A -> B -> A) (l : list B) (a : A) :
  (forall acc x, In x l -> f acc x = g acc x) ->
  fold_left f l a = fold_left g l a.
Proof.
  revert a. induction l as [|x l IH]; intros a Hext; [reflexivity|].
  cbn. rewrite (Hext a x) by now left.
  apply IH. intros acc y Hy. apply Hext. now right.
Qed.

(** With a time for every sample, [detectPeaks] never consults the clock. *)
Lemma detectPeaks_clock_free (values : list Q) (times : list Z)
    (clock clock' : nat -> Z) (minAmp : Q) (minSeparationMs : Z)
    (prominenceStd : Q) :
  (length values <= length times)%nat ->
  detectPeaks values times clock minAmp minSeparationMs prominenceStd
  = detectPeaks values times clock' minAmp minSeparationMs prominenceStd.
Proof.
  intros Hlen. unfold detectPeaks. destruct values as [|x rest] eqn:E; [reflexivity|].
  rewrite <- E in *. apply fold_left_ext_in.
  intros acc i Hi. apply in_seq in Hi.
  unfold detectPeaks_iter.
  destruct (nth_error times i) eqn:Hnth; [reflexivity|].
  apply nth_error_None in Hnth. lia.
Qed.

End ClockFacts.

Section EnvelopeFacts.

Import JsNum Sound Arrays SoundRest SoundSpec.

Variable cfg : config.

Lemma slice_from_length_le {A : Type} (start : Z) (arr : list A) :
  (length (slice_from start arr) <= length arr)%nat.
Proof. unfold slice_from. rewrite length_skipn. lia. Qed.

Lemma slice_from_same_length {A B : Type} (start : Z) (a : list A) (b : list B) :
  length a = length b ->
  length (slice_from start a) = length (slice_from start b).
Proof.
  intros Hlen. unfold slice_from. rewrite !length_skipn, Hlen. reflexivity.
Qed.

(** X19. Over any sequence of sampled frames, stops and starts, the envelope
    and its time stamps stay parallel and within 512 entries and the variance
    window within its size; [recentEnvelope(n)] returns two arrays of equal
    length, at most [n] long for [n >= 1]; and the sound block of the
    monitoring hook, fed with them, never falls back on [Date.now()]. *)
Theorem envelope_buffers_parallel (events : list event) (maxSamples : Z) :
  let st := SoundRest.run cfg init events in
  let envelope := fst (recentEnvelope st maxSamples) in
  let times := snd (recentEnvelope st maxSamples) in
  length (envelopeBuffer st) = length (envelopeTime st)
  /\ (length (envelopeBuffer st) <= 512)%nat
  /\ (length (varianceBuf st) <= varianceWindowSize cfg)%nat
  /\ length envelope = length times
  /\ ((1 <= maxSamples)%Z -> (length envelope <= Z.to_nat maxSamples)%nat)
  /\ forall clock clock' bandEnergyLow,
       Monitor.sound_tick envelope times clock bandEnergyLow
       = Monitor.sound_tick envelope times clock' bandEnergyLow.
Proof.
  cbn zeta.
  destruct (buffers_invariant cfg events init eq_refl ltac:(cbn; lia) ltac:(cbn; lia))
    as (Heq & Hcap & Hvar).
  set (st := SoundRest.run cfg init events) in *.
  assert (Hsame : length (fst (recentEnvelope st maxSamples))
                  = length (snd (recentEnvelope st maxSamples))).
  { unfold recentEnvelope. cbn [fst snd]. now apply slice_from_same_length. }
  repeat split; try assumption.
  - intros Hn. unfold recentEnvelope, slice_from. cbn [fst].
    replace (- maxSamples <? 0)%Z with true by (symmetry; apply Z.ltb_lt; lia).
    rewrite length_skipn. lia.
  - intros clock clock' band. unfold Monitor.sound_tick.
    destruct (8 <=? _)%nat; [|reflexivity].
    rewrite (detectPeaks_clock_free _ _ clock clock'); [reflexivity|].
    rewrite smooth_envelope_length. lia.
Qed.

Lemma round_percentage (r : Q) :
  0 <= r <= 1 -> percentage (Sound.round (r * 100)).
Proof.
  intros [Hlo Hhi]. unfold Sound.round. eexists. split; [|reflexivity].
  split.
  - assert (H : (Qfloor 0 <= Qfloor (r * 100 + (1 # 2)))%Z)
      by (apply Qfloor_resp_le; lra).
    exact H.
  - assert (H : (Qfloor (r * 100 + (1 # 2)) <= Qfloor (100 + (1 # 2)))%Z)
      by (apply Qfloor_resp_le; lra).
    exact H.
Qed.

(** X21. The low-band ratio is always between 0 and 1, whatever the
    spectrum; rounding it to percent gives an integer from 0 to 100; so the
    envelope buffer only ever holds integer percentages. *)
Theorem envelope_holds_percentages :
  (forall mag_of freqData sampleRate fftSize startHz endHz,
      0 <= computeLowBandRatio mag_of freqData sampleRate fftSize startHz endHz <= 1)
  /\ (forall r, 0 <= r <= 1 -> percentage (Sound.round (r * 100)))
  /\ (forall frames,
         Forall band_in_range frames ->
         Forall percentage (envelopeBuffer (Sound.run cfg init frames))).
Proof.
  split; [|split].
  - intros. unfold computeLowBandRatio.
    destruct (Qle_bool _ 0); [split; discriminate|].
    apply clamp_Q_range.
  - apply round_percentage.
  - intros frames Hall.
    assert (Hgen : forall st, Forall percentage (envelopeBuffer st) ->
                              Forall percentage (envelopeBuffer (Sound.run cfg st frames))).
    { induction Hall as [|fr frames Hfr _ IH]; intros st Hst; [exact Hst|].
      cbn [Sound.run fold_left]. apply IH.
      destruct fr as [|now|now dn db sv br]; cbn [sampleAudio]; [exact Hst| |].
      - destruct (Qltb _ _); exact Hst.
      - destruct (Qltb _ _); [exact Hst|].
        destruct (if currentlySilent cfg db sv then _ else _) as [[? ?] ?].
        cbn [envelopeBuffer]. apply push_capped_keeps; [exact Hst|].
        apply round_percentage. exact Hfr. }
    apply Hgen. constructor.
Qed.

End EnvelopeFacts.

Section VolumeFacts.

Import JsNum Sound Arrays SoundRest VolumeSpec.

Variable cfg : config.

Lemma Qabs_gate (a b : Q) :
  Qabs (a - (if Qltb EPS (Qabs (a - b)) then a else b)) <= EPS.
Proof.
  destruct (Qltb EPS (Qabs (a - b))) eqn:E.
  - setoid_replace (a - a) with 0 by ring. discriminate.
  - apply Qltb_false in E. exact E.
Qed.

(** While the analyser is never stopped, the published volume and band
    energy mirror their refs. *)
Lemma mirror_invariant (frames : list frame) (st : state) :
  volume st = lastVolume st -> bandEnergyLow st = lastBand st ->
  0 <= volume st <= 1 ->
  let st' := Sound.run cfg st frames in
  volume st' = lastVolume st' /\ bandEnergyLow st' = lastBand st'
  /\ 0 <= volume st' <= 1.
Proof.
  revert st. induction frames as [|fr frames IH]; intros st Hv Hb Hr; cbn zeta.
  - cbn. auto.
  - cbn [Sound.run fold_left].
    destruct fr as [|now|now dn db sv br]; cbn [sampleAudio].
    + now apply IH.
    + destruct (Qltb _ _); apply IH; assumption.
    + destruct (Qltb _ _); [now apply IH|].
      destruct (if currentlySilent cfg db sv then _ else _) as [[? ?] ?].
      apply IH; cbn [volume lastVolume bandEnergyLow lastBand].
      * rewrite Hv. reflexivity.
      * rewrite Hb. reflexivity.
      * destruct (Qltb EPS _); [apply clamp_Q_range | exact Hr].
Qed.

(** X20. In a run of animation frames that starts from the hook's initial
    state, the published volume stays between 0 and 1, and right after every
    frame that takes a sample the published volume and band energy are within
    0.005 of the values just measured. *)
Theorem published_levels_within_eps (frames : list frame)
    (now : Q) (dateNow : Z) (db specVar bandRatio : Q) :
  let st := Sound.run cfg init frames in
  let st' := sampleAudio cfg st (Reading now dateNow db specVar bandRatio) in
  0 <= volume st <= 1
  /\ (sampleIntervalMs cfg <= now - lastSampleTime st ->
      Qabs (clamp01 ((db + 120) / 120) - volume st') <= EPS
      /\ Qabs (bandRatio - bandEnergyLow st') <= EPS).
Proof.
  cbn zeta.
  destruct (mirror_invariant frames init eq_refl eq_refl) as (Hv & Hb & Hr);
    [split; discriminate|].
  split; [exact Hr|]. intros Hgate. apply Qltb_false in Hgate.
  unfold sampleAudio. rewrite Hgate.
  destruct (if currentlySilent cfg db specVar then _ else _) as [[? ?] ?].
  cbn [volume bandEnergyLow]. rewrite Hv, Hb. split; apply Qabs_gate.
Qed.

Lemma quiet_normalized (db : Q) :
  db <= -119.4 -> Qltb EPS (Qabs (clamp01 ((db + 120) / 120) - 0)) = false.
Proof.
  intros Hq. apply Qltb_false.
  pose proof (clamp_Q_range ((db + 120) / 120)) as [Hlo _].
  unfold clamp01 in *.
  setoid_replace (Qmax 0 (Qmin 1 ((db + 120) / 120)) - 0)
    with (Qmax 0 (Qmin 1 ((db + 120) / 120))) by ring.
  rewrite Qabs_pos by exact Hlo.
  apply Q.max_lub; [discriminate|].
  eapply Qle_trans; [apply Q.le_min_r|].
  unfold EPS. apply Qle_shift_div_r; lra.
Qed.

Lemma quiet_run_keeps_volume (frames : list frame) (st : state) :
  Forall quiet frames -> lastVolume st = 0 ->
  volume (Sound.run cfg st frames) = volume st.
Proof.
  intros Hall. revert st. induction Hall as [|fr frames Hq _ IH]; intros st Hl;
    [reflexivity|].
  change (Sound.run cfg st (fr :: frames))
    with (Sound.run cfg (sampleAudio cfg st fr) frames).
  destruct fr as [|now|now dn db sv br]; cbn [sampleAudio].
  - now apply IH.
  - destruct (Qltb _ _); [now apply IH|]. rewrite IH; [reflexivity | exact Hl].
  - destruct (Qltb _ _); [now apply IH|].
    destruct (if currentlySilent cfg db sv then _ else _) as [[? ?] ?].
    rewrite IH; cbn [volume lastVolume]; rewrite Hl, (quiet_normalized db Hq);
      reflexivity.
Qed.

(** X22. [stop] zeroes the volume ref but publishes nothing, so after a stop
    and a restart the published volume keeps its value from before the stop
    for as long as the input stays quiet (at most -119.4 dB): the gate
    compares the new level with the zeroed ref, not with what is shown. *)
Theorem restart_keeps_stale_volume (st : state) (frames : list frame) :
  Forall quiet frames ->
  let st' := Sound.run cfg (SoundRest.start (SoundRest.stop st)) frames in
  volume st' = volume st.
Proof.
  intros Hall. cbn zeta. rewrite quiet_run_keeps_volume; [reflexivity | exact Hall | reflexivity].
Qed.

End VolumeFacts.

(** A level of 0.5 comes from -60 dB. *)
Lemma published_levels_within_eps_witness :
  Qabs (Sound.clamp01 ((-60 + 120) / 120)
        - Sound.volume (Sound.sampleAudio Sound.default_config
                          (Sound.run Sound.default_config Sound.init [])
                          (Sound.Reading 200 0 (-60) 1 0.3))) <= Sound.EPS.
Proof.
  apply (proj2 (published_levels_within_eps Sound.default_config [] 200 0 (-60) 1 0.3)).
  vm_compute. discriminate.
Defined.

(** A volume of 0.5 shown before the stop is still shown after a restart on a
    muted microphone. *)
Lemma restart_keeps_stale_volume_witness :
  Sound.volume
    (Sound.run Sound.default_config
       (SoundRest.start (SoundRest.stop
          (Sound.State 0 None [] [] [] 0.5 0 false 0.5 0 false)))
       [Sound.Reading 200 0 (-120) 0 0; Sound.Reading 400 0 (-120) 0 0])
  = 0.5.
Proof.
  apply (restart_keeps_stale_volume Sound.default_config
           (Sound.State 0 None [] [] [] 0.5 0 false 0.5 0 false)).
  repeat constructor; vm_compute; discriminate.
Defined.

Section SpectrumFacts.

Import JsNum Stats Sound SoundRest.

(** X23. The spectral variance is the variance of the magnitudes: never
    negative, and zero exactly for a flat spectrum; on a flat spectrum (a
    muted input has all magnitudes 0) the silence test is the level test
    alone. *)
Theorem spectral_variance_flat (mag : list Q) :
  0 <= computeSpectralVariance mag
  /\ (mag <> [] ->
      (computeSpectralVariance mag == 0 <-> Forall (fun x => x == mean mag) mag))
  /\ (Forall (fun x => x == mean mag) mag ->
      forall cfg db,
        currentlySilent cfg db (computeSpectralVariance mag)
        = Qltb db (silenceDbThreshold cfg)).
Proof.
  assert (Hvar : mag <> [] -> computeSpectralVariance mag = variance mag)
    by (destruct mag; [congruence | reflexivity]).
  assert (Hflat : Forall (fun x => x == mean mag) mag -> computeSpectralVariance mag == 0).
  { intros Hall. destruct mag as [|x rest] eqn:E; [reflexivity|].
    rewrite Hvar by discriminate. apply variance_zero_iff; [discriminate | exact Hall]. }
  split; [|split].
  - destruct mag as [|x rest]; [discriminate|].
    rewrite Hvar by discriminate. apply variance_nonneg.
  - intros Hne. rewrite (Hvar Hne). now apply variance_zero_iff.
  - intros Hall cfg db. unfold currentlySilent.
    replace (Qltb (computeSpectralVariance mag) specVarThreshold) with true;
      [apply andb_true_r|].
    symmetry. apply Qltb_true. rewrite (Hflat Hall). reflexivity.
Qed.

End SpectrumFacts.

(** Four equal magnitudes. *)
Lemma spectral_variance_flat_witness :
  SoundRest.computeSpectralVariance [0.5; 0.5; 0.5; 0.5] == 0.
Proof.
  apply (proj1 (proj2 (spectral_variance_flat [0.5; 0.5; 0.5; 0.5])) ltac:(discriminate)).
  repeat constructor.
Defined.

Section AlertFacts.

Import JsNum Alerts AlertSpec.

Lemma gap_trans (cooldown : Z) :
  (0 <= cooldown)%Z -> Relations_1.Transitive (gap cooldown).
Proof. intros Hcd a b c Hab Hbc. unfold gap in *. lia. Qed.

(** An effect that fires only once its cooldown has passed since the time it
    keeps, and that keeps the time of its last firing. *)
Lemma fired_times_gap {S I : Type} (effect : S -> Z -> I -> S * bool)
    (last : S -> Z) (cooldown : Z) :
  (forall refs now input,
      (snd (effect refs now input) = true ->
       last (fst (effect refs now input)) = now /\ gap cooldown (last refs) now)
      /\ (snd (effect refs now input) = false ->
          last (fst (effect refs now input)) = last refs)) ->
  forall runs refs, Sorted (gap cooldown) (last refs :: fired_times effect refs runs).
Proof.
  intros Heff runs. induction runs as [|[now input] rest IH]; intros refs.
  - cbn. repeat constructor.
  - cbn [fired_times]. specialize (Heff refs now input).
    destruct (effect refs now input) as [refs' fired]. cbn [fst snd] in Heff.
    specialize (IH refs'). destruct fired; cbn [app].
    + destruct Heff as [Hfire _]. destruct (Hfire eq_refl) as [Hlast Hgap].
      rewrite Hlast in IH. constructor; [exact IH | constructor; exact Hgap].
    + destruct Heff as [_ Hkeep]. rewrite (Hkeep eq_refl) in IH. exact IH.
Qed.

Lemma snore_effect_cooldown (refs : SnoreRefs) (now : Z) (soundWarning : bool) :
  (snd (snore_effect refs now soundWarning) = true ->
   lastSnoreToast (fst (snore_effect refs now soundWarning)) = now
   /\ gap 15000 (lastSnoreToast refs) now)
  /\ (snd (snore_effect refs now soundWarning) = false ->
      lastSnoreToast (fst (snore_effect refs now soundWarning)) = lastSnoreToast refs).
Proof.
  unfold snore_effect, gap. cbn zeta.
  destruct (negb _ && _); [|cbn; split; [discriminate | reflexivity]].
  destruct (_ <? _)%Z eqn:E; cbn; split; try discriminate; try reflexivity.
  intros _. apply Z.ltb_ge in E. split; [reflexivity | lia].
Qed.

Lemma yawn_effect_cooldown (refs : YawnRefs) (now : Z) (mar : num) :
  (snd (yawn_effect refs now mar) = true ->
   lastYawnToast (fst (yawn_effect refs now mar)) = now
   /\ gap 10000 (lastYawnToast refs) now)
  /\ (snd (yawn_effect refs now mar) = false ->
      lastYawnToast (fst (yawn_effect refs now mar)) = lastYawnToast refs).
Proof.
  unfold yawn_effect, gap. cbn zeta.
  destruct (lt _ _ && _); [|cbn; split; [discriminate | reflexivity]].
  destruct (_ <? _)%Z eqn:E; cbn; split; try discriminate; try reflexivity.
  intros _. apply Z.ltb_ge in E. split; [reflexivity | lia].
Qed.

Lemma eyes_run_cooldown (refs : EyesRefs) (now : Z) (input : EyesInput) :
  (snd (eyes_run refs now input) = true ->
   lastEyesToast (fst (eyes_run refs now input)) = now
   /\ gap 8000 (lastEyesToast refs) now)
  /\ (snd (eyes_run refs now input) = false ->
      lastEyesToast (fst (eyes_run refs now input)) = lastEyesToast refs).
Proof.
  destruct input as [[[d c] p] e]. unfold eyes_run, eyes_effect, gap. cbn zeta.
  destruct (negb _ && _); [|cbn; split; [discriminate | reflexivity]].
  destruct (_ <? _)%Z eqn:E; cbn; split; try discriminate; try reflexivity.
  intros _. apply Z.ltb_ge in E. split; [reflexivity | lia].
Qed.

(** X24. Whatever values the dashboard passes through, and whenever its
    effects run, any two snore toasts are at least 15 s apart, any two yawn
    toasts at least 10 s and any two eyes toasts at least 8 s; the first of
    each comes no sooner than that after time 0. *)
Theorem toast_cooldowns :
  (forall runs,
      StronglySorted (gap 15000) (0%Z :: fired_times snore_effect init_snore runs))
  /\ (forall runs,
         StronglySorted (gap 10000) (0%Z :: fired_times yawn_effect init_yawn runs))
  /\ (forall runs,
         StronglySorted (gap 8000) (0%Z :: fired_times eyes_run init_eyes runs)).
Proof.
  split; [|split]; intros runs; apply Sorted_StronglySorted;
    try (apply gap_trans; lia).
  - exact (fired_times_gap snore_effect lastSnoreToast 15000 snore_effect_cooldown runs init_snore).
  - exact (fired_times_gap yawn_effect lastYawnToast 10000 yawn_effect_cooldown runs init_yawn).
  - exact (fired_times_gap eyes_run lastEyesToast 8000 eyes_run_cooldown runs init_eyes).
Qed.

Lemma lt_le_excl (x y : num) : le y x = true -> lt x y = false.
Proof.
  destruct x as [a| | |], y as [b| | |]; cbn; try reflexivity; try discriminate.
  unfold Qltb. intros ->. reflexivity.
Qed.

Lemma snore_stays_on (runs : list (Z * bool)) (refs : SnoreRefs) :
  prevSoundWarning refs = true ->
  Forall (fun r => snd r = true) runs ->
  fired_times snore_effect refs runs = [].
Proof.
  intros Hprev Hall. revert refs Hprev.
  induction Hall as [|[now w] rest Hw _ IH]; intros refs Hprev; [reflexivity|].
  cbn in Hw. subst w. cbn [fired_times]. unfold snore_effect. cbn zeta.
  rewrite Hprev. cbn [negb andb app]. apply IH. reflexivity.
Qed.

Lemma yawn_stays_on (runs : list (Z * num)) (refs : YawnRefs) :
  le (Fin 0.7) (prevMar refs) = true ->
  Forall (fun r => le (Fin 0.7) (snd r) = true) runs ->
  fired_times yawn_effect refs runs = [].
Proof.
  intros Hprev Hall. revert refs Hprev.
  induction Hall as [|[now m] rest Hm _ IH]; intros refs Hprev; [reflexivity|].
  cbn in Hm. cbn [fired_times]. unfold yawn_effect. cbn zeta.
  rewrite (lt_le_excl _ _ Hprev). cbn [andb app]. apply IH. exact Hm.
Qed.

Lemma eyes_stay_bad (runs : list (Z * EyesInput)) (refs : EyesRefs) :
  prevEyesBad refs = true ->
  Forall (fun r => eyes_bad_input (snd r) = true) runs ->
  fired_times eyes_run refs runs = [].
Proof.
  intros Hprev Hall. revert refs Hprev.
  induction Hall as [|[now [[[d c] p] e]] rest Hb _ IH]; intros refs Hprev; [reflexivity|].
  cbn in Hb. cbn [fired_times]. unfold eyes_run, eyes_effect. cbn zeta.
  rewrite Hprev. cbn [negb andb app]. apply IH. exact Hb.
Qed.

(** X25. A condition that sets in during the cooldown is never reported:
    if the snore warning, a wide-open mouth or bad eyes begin less than the
    cooldown after the previous toast, no toast follows for as long as the
    condition lasts, however long that is. *)
Theorem suppressed_alert_is_lost :
  (forall refs now later,
      (now - lastSnoreToast refs < 15000)%Z ->
      Forall (fun r => snd r = true) later ->
      fired_times snore_effect refs ((now, true) :: later) = [])
  /\ (forall refs now mar later,
         (now - lastYawnToast refs < 10000)%Z ->
         le (Fin 0.7) mar = true ->
         Forall (fun r => le (Fin 0.7) (snd r) = true) later ->
         fired_times yawn_effect refs ((now, mar) :: later) = [])
  /\ (forall refs now input later,
         (now - lastEyesToast refs < 8000)%Z ->
         eyes_bad_input input = true ->
         Forall (fun r => eyes_bad_input (snd r) = true) later ->
         fired_times eyes_run refs ((now, input) :: later) = []).
Proof.
  split; [|split].
  - intros refs now later Hcd Hall. apply Z.ltb_lt in Hcd.
    cbn [fired_times]. unfold snore_effect at 1. cbn zeta. rewrite Hcd.
    destruct (negb _ && true); cbn [app]; apply snore_stays_on; auto.
  - intros refs now mar later Hcd Hmar Hall. apply Z.ltb_lt in Hcd.
    cbn [fired_times]. unfold yawn_effect at 1. cbn zeta. rewrite Hcd.
    destruct (lt _ _ && _); cbn [app]; apply yawn_stays_on; auto.
  - intros refs now [[[d c] p] e] later Hcd Hbad Hall. apply Z.ltb_lt in Hcd.
    cbn [fired_times]. unfold eyes_run at 1. unfold eyes_effect. cbn zeta. rewrite Hcd.
    cbn in Hbad. rewrite Hbad.
    destruct (negb _ && true); cbn [app]; apply eyes_stay_bad; auto.
Qed.

Lemma lt_le_same (x : num) (a b : Q) :
  a <= b -> lt x (Fin a) && le (Fin b) x = false.
Proof.
  intros Hab. destruct x as [q| | |]; cbn; try reflexivity.
  destruct (Qltb q a) eqn:E1; [|reflexivity]. cbn.
  apply Qltb_true in E1. apply not_true_iff_false. rewrite Qle_bool_iff. lra.
Qed.

(** X26. The drowsiness alert compares the score with the one of the
    previous run only: a run with an unchanged score never alerts, so turning
    demo mode on while the score lies between the two thresholds raises no
    alert; without the loaded sound nothing happens at all; and there is no
    cooldown, the alert repeats at every new crossing. *)
Theorem drowsy_alert_edges :
  (forall refs now now' score demoMode demoMode',
      snd (drowsy_effect (fst (drowsy_effect refs true now score demoMode))
             true now' score demoMode') = false)
  /\ (forall refs now score demoMode,
         drowsy_effect refs false now score demoMode = (refs, false))
  /\ (forall refs now low high (demoMode : bool),
         low < (if demoMode then DROWSY_DEMO_THRESHOLD else DROWSY_THRESHOLD) ->
         (if demoMode then DROWSY_DEMO_THRESHOLD else DROWSY_THRESHOLD) <= high ->
         forall n,
           fired_times drowsy_run
             (fst (drowsy_effect refs true now (Fin low) demoMode))
             (flat_map (fun k => [((now + 2 * Z.of_nat k + 1)%Z, (true, Fin high, demoMode));
                                  ((now + 2 * Z.of_nat k + 2)%Z, (true, Fin low, demoMode))])
                       (seq 0 n))
           = map (fun k => (now + 2 * Z.of_nat k + 1)%Z) (seq 0 n)).
Proof.
  split; [|split].
  - intros refs now now' score demoMode demoMode'.
    assert (Hprev : prevDrowsyScore (fst (drowsy_effect refs true now score demoMode)) = score).
    { unfold drowsy_effect. cbn [negb]. cbn zeta. destruct (lt _ _ && _); reflexivity. }
    unfold drowsy_effect at 1. cbn [negb]. cbn zeta. rewrite Hprev.
    assert (Hno : lt score (Fin (if demoMode' then DROWSY_DEMO_THRESHOLD else DROWSY_THRESHOLD))
                  && le (Fin (if demoMode' then DROWSY_DEMO_THRESHOLD else DROWSY_THRESHOLD)) score
                  = false) by (apply lt_le_same; apply Qle_refl).
    rewrite Hno. reflexivity.
  - reflexivity.
  - intros refs now low high demoMode Hlow Hhigh n.
    set (thr := if demoMode then DROWSY_DEMO_THRESHOLD else DROWSY_THRESHOLD) in *.
    assert (Hgen : forall (m : nat) (r : DrowsyRefs) (base : Z),
               prevDrowsyScore r = Fin low ->
               fired_times drowsy_run r
                 (flat_map (fun k => [((base + 2 * Z.of_nat k + 1)%Z, (true, Fin high, demoMode));
                                      ((base + 2 * Z.of_nat k + 2)%Z, (true, Fin low, demoMode))])
                           (seq 0 m))
               = map (fun k => (base + 2 * Z.of_nat k + 1)%Z) (seq 0 m)).
    { induction m as [|m IH]; intros r base Hr; [reflexivity|].
      cbn [seq flat_map map app].
      rewrite <- seq_shift, flat_map_concat_map, !map_map, <- flat_map_concat_map.
      cbn [fired_times]. unfold drowsy_run at 1. unfold drowsy_effect at 1.
      cbn [negb]. cbn zeta. fold thr. rewrite Hr.
      replace (lt (Fin low) (Fin thr) && le (Fin thr) (Fin high)) with true.
      2:{ symmetry. apply andb_true_iff. split; [now apply Qltb_true | now apply Qle_bool_iff]. }
      cbn [app fired_times]. unfold drowsy_run at 1. unfold drowsy_effect at 1.
      cbn [negb prevDrowsyScore]. cbn zeta. fold thr.
      replace (lt (Fin high) (Fin thr) && le (Fin thr) (Fin low)) with false.
      2:{ symmetry. apply andb_false_iff. left. now apply Qltb_false. }
      cbn [app]. f_equal.
      specialize (IH {| prevDrowsyScore := Fin low; lastAlert := (base + 2 * Z.of_nat 0 + 1)%Z |}
                     (base + 2)%Z eq_refl).
      erewrite flat_map_ext; [erewrite map_ext; [exact IH|]|].
      - intros k. cbn beta. lia.
      - intros k. cbn beta.
        replace (base + 2 * Z.of_nat (S k) + 1)%Z
          with (base + 2 + 2 * Z.of_nat k + 1)%Z by lia.
        replace (base + 2 * Z.of_nat (S k) + 2)%Z
          with (base + 2 + 2 * Z.of_nat k + 2)%Z by lia.
        reflexivity. }
    apply Hgen. unfold drowsy_effect. cbn [negb]. cbn zeta.
    destruct (lt _ _ && _); reflexivity.
Qed.

End AlertFacts.

(** A snore that begins 5 s after the last toast and lasts over three more
    runs is never reported. *)
Lemma suppressed_alert_is_lost_witness :
  Alerts.fired_times Alerts.snore_effect
    {| Alerts.prevSoundWarning := false; Alerts.lastSnoreToast := 100000 |}
    [(105000, true); (120000, true); (200000, true); (900000, true)]%Z = [].
Proof.
  apply (proj1 suppressed_alert_is_lost
           {| Alerts.prevSoundWarning := false; Alerts.lastSnoreToast := 100000 |}
           105000%Z [(120000, true); (200000, true); (900000, true)]%Z).
  - cbn. lia.
  - repeat constructor.
Defined.

(** Three crossings of the threshold of 0.8, two milliseconds apart, raise
    three alerts. *)
Lemma drowsy_alert_edges_witness :
  Alerts.fired_times AlertSpec.drowsy_run
    (fst (Alerts.drowsy_effect Alerts.init_drowsy true 1000 (JsNum.Fin 0.5) false))
    (flat_map (fun k => [((1000 + 2 * Z.of_nat k + 1)%Z, (true, JsNum.Fin 0.9, false));
                         ((1000 + 2 * Z.of_nat k + 2)%Z, (true, JsNum.Fin 0.5, false))])
              (seq 0 3))
  = map (fun k => (1000 + 2 * Z.of_nat k + 1)%Z) (seq 0 3).
Proof.
  apply (proj2 (proj2 drowsy_alert_edges) Alerts.init_drowsy 1000%Z 0.5 0.9 false).
  - reflexivity.
  - discriminate.
Defined.

Section SendFacts.

Import Persist.

Variable fetch : nat -> outcome.

Lemma retryable_not_final (o : outcome) :
  retryable o -> o <> Resolved true /\ o <> Rejected true.
Proof. intros [-> | ->]; split; discriminate. Qed.

(** X27. [sendToServer] reports success exactly when a driver id is set,
    the browser is online, and some attempt below the limit is answered with
    [ok] after nothing but retryable failures; and when it succeeds at
    attempt [k] it has sent [k + 1] requests. *)
Theorem sendToServer_succeeds_iff (driverId : option String.string)
    (onLine : bool) (attempts : nat) :
  (snd (sendToServer driverId onLine fetch attempts) = true <->
   falsy driverId = false /\ onLine = true
   /\ exists k, (k < attempts)%nat /\ fetch k = Resolved true
                /\ forall j, (j < k)%nat -> retryable (fetch j))
  /\ (forall k, (k < attempts)%nat -> fetch k = Resolved true ->
        (forall j, (j < k)%nat -> retryable (fetch j)) ->
        falsy driverId = false -> onLine = true ->
        fetches (fst (sendToServer driverId onLine fetch attempts)) = seq 0 (S k)).
Proof.
  assert (Hloop : falsy driverId = false -> onLine = true ->
                  sendToServer driverId onLine fetch attempts
                  = (AbortPrevious :: fst (attempt_loop fetch attempts 0 300),
                     snd (attempt_loop fetch attempts 0 300))).
  { intros Hd Ho. unfold sendToServer. rewrite Hd, Ho. cbn [negb].
    destruct (attempt_loop fetch attempts 0 300). reflexivity. }
  destruct (attempt_loop_shape fetch attempts 0 300) as (k' & final & res & Heq & Hre & Hend).
  cbn [Nat.add] in *.
  assert (Hfound : forall k, (k < attempts)%nat -> fetch k = Resolved true ->
                     (forall j, (j < k)%nat -> retryable (fetch j)) ->
                     k' = k /\ final = [Fetch k] /\ res = true).
  { intros k Hk Hok Hbefore.
    destruct Hend as [(-> & -> & ->)|(-> & Hk' & Hfin)].
    - destruct (retryable_not_final _ (Hre k Hk)) as [Hne _]. congruence.
    - assert (k' = k).
      { destruct (Nat.lt_trichotomy k' k) as [Hlt | [Heqk | Hgt]]; [|exact Heqk|].
        - destruct (retryable_not_final _ (Hbefore k' Hlt)) as [H1 H2].
          destruct Hfin as [[Hf _]|[Hf _]]; congruence.
        - destruct (retryable_not_final _ (Hre k Hgt)) as [Hne _]. congruence. }
      subst k'. repeat split.
      destruct Hfin as [[_ ->]|[Hf _]]; [reflexivity | congruence]. }
  split.
  - split.
    + intros Hres. unfold sendToServer in Hres.
      destruct (falsy driverId); [discriminate|].
      destruct onLine; cbn [negb] in Hres; [|discriminate].
      rewrite Heq in Hres. cbn [snd] in Hres. subst res.
      repeat split.
      destruct Hend as [(_ & _ & Hf)|(_ & Hk' & [[Hok _]|[_ Hf]])]; try discriminate.
      exists k'. auto.
    + intros (Hd & Ho & k & Hk & Hok & Hbefore).
      rewrite (Hloop Hd Ho), Heq. cbn [snd].
      now destruct (Hfound k Hk Hok Hbefore) as (_ & _ & ->).
  - intros k Hk Hok Hbefore Hd Ho.
    rewrite (Hloop Hd Ho), Heq. cbn [fst fetches].
    destruct (Hfound k Hk Hok Hbefore) as (-> & -> & _).
    rewrite fetches_app.
    change (flat_map (fun j => [Fetch j; Sleep (300 * 2 ^ Z.of_nat j)%Z]) (seq 0 k))
      with (failed_rounds k).
    rewrite fetches_failed_rounds. cbn [fetches].
    rewrite seq_S. reflexivity.
Qed.

End SendFacts.

(** The second attempt is answered with [ok] after a server error. *)
Lemma sendToServer_succeeds_iff_witness :
  snd (Persist.sendToServer (Some "d1"%string) true
         (fun i => match i with
                   | O => Persist.Resolved false
                   | _ => Persist.Resolved true
                   end) 3) = true.
Proof.
  apply (proj1 (sendToServer_succeeds_iff
                  (fun i => match i with
                            | O => Persist.Resolved false
                            | _ => Persist.Resolved true
                            end) (Some "d1"%string) true 3)).
  split; [reflexivity | split; [reflexivity|]].
  exists 1%nat. split; [lia | split; [reflexivity|]].
  intros j Hj. assert (j = 0%nat) by lia. subst j. left. reflexivity.
Defined.

(** An EAR of 0.2 is below the initial closed threshold of 0.26. *)
Lemma eye_hysteresis_witness :
  Monitor.prevEyesClosed
    (Monitor.tick (Monitor.init 0) (Some (Monitor.plain_frame 1000 0.2))) = true.
Proof.
  assert (Hr : Monitor.reachable (Monitor.init 0)) by (exists 0%Z, []; reflexivity).
  destruct (eye_hysteresis (Monitor.init 0) (Monitor.plain_frame 1000 0.2) Hr eq_refl)
    as [H _].
  apply (proj1 (H 0.26 0.3 0.2 eq_refl eq_refl eq_refl)). reflexivity.
Defined.

(** The run that closes the eyes does not report a continuous close. *)
Lemma continuous_close_exact_witness :
  Monitor.continuousClose
    (Monitor.tick (Monitor.init 0) (Some (Monitor.plain_frame 1000 0.2))) = false.
Proof.
  assert (Hr : Monitor.reachable (Monitor.init 0)) by (exists 0%Z, []; reflexivity).
  apply (proj2 (continuous_close_exact (Monitor.init 0)
                  (Monitor.plain_frame 1000 0.2) Hr eq_refl)).
  reflexivity.
Defined.

(** One blink has been counted after a closure of 300 ms. *)
Lemma blink_counter_monotone_witness :
  (0 <= Monitor.longBlinkCount
          (Monitor.run (Monitor.init 0)
             [Monitor.Effect (Some (Monitor.plain_frame 1000 0.2));
              Monitor.Effect (Some (Monitor.plain_frame 1300 0.35))]))%Z.
Proof.
  apply (blink_counter_monotone
           (Monitor.run (Monitor.init 0)
              [Monitor.Effect (Some (Monitor.plain_frame 1000 0.2));
               Monitor.Effect (Some (Monitor.plain_frame 1300 0.35))])).
  exists 0%Z. eexists. reflexivity.
Defined.

(** Two processed runs leave two samples. *)
Lemma perclos_buffer_bounded_witness :
  (length (Monitor.percBuffer
             (Monitor.run (Monitor.init 0)
                [Monitor.Effect (Some (Monitor.plain_frame 1000 0.2));
                 Monitor.Effect (Some (Monitor.plain_frame 1300 0.35))])) <= 167)%nat.
Proof.
  apply (perclos_buffer_bounded
           (Monitor.run (Monitor.init 0)
              [Monitor.Effect (Some (Monitor.plain_frame 1000 0.2));
               Monitor.Effect (Some (Monitor.plain_frame 1300 0.35))])).
  exists 0%Z. eexists. reflexivity.
Defined.

(** Closed eyes and a full PERCLOS, but a mouth ratio that is NaN. *)
Lemma nan_component_zeroes_score_witness :
  Monitor.fuse (JsNum.Fin 1) (JsNum.Fin 1) JsNum.NaN (JsNum.Fin 0) (JsNum.Fin 0)
  = JsNum.Fin 0.
Proof.
  apply (proj1 nan_component_zeroes_score). reflexivity.
Defined.

(** One frame without a pitch, and the velocity is NaN from the next run on. *)
Lemma pitch_velocity_nan_sticks_witness :
  Monitor.currentVel
    (Monitor.head
       (Monitor.tick
          (Monitor.tick (Monitor.init 0)
             (Some {| Monitor.nowTs := 1000; Monitor.EAR := JsNum.Fin 0.3;
                      Monitor.MAR := JsNum.Fin 0.1; Monitor.pitchDeg := JsNum.NaN;
                      Monitor.envelope := []; Monitor.times := [];
                      Monitor.bandEnergyLow := 0;
                      Monitor.clock := fun _ => 0%Z |}))
          (Some (Monitor.plain_frame 1200 0.3))))
  = Some JsNum.NaN.
Proof.
  apply (proj1 (proj2 pitch_velocity_nan_sticks)); reflexivity.
Defined.

(** After three samples, the last two are handed out. *)
Lemma envelope_buffers_parallel_witness :
  (length (fst (SoundRest.recentEnvelope
                  (SoundRest.run Sound.default_config Sound.init
                     [SoundRest.Frame (Sound.Reading 200 1000 (-40) 1 0.3);
                      SoundRest.Frame (Sound.Reading 400 1200 (-40) 1 0.5);
                      SoundRest.Frame (Sound.Reading 600 1400 (-40) 1 0.2)])
                  2))
   <= Z.to_nat 2)%nat.
Proof.
  apply (envelope_buffers_parallel Sound.default_config
           [SoundRest.Frame (Sound.Reading 200 1000 (-40) 1 0.3);
            SoundRest.Frame (Sound.Reading 400 1200 (-40) 1 0.5);
            SoundRest.Frame (Sound.Reading 600 1400 (-40) 1 0.2)] 2).
  lia.
Defined.

(** A band ratio of 0.456 is stored as 46 percent. *)
Lemma envelope_holds_percentages_witness :
  SoundSpec.percentage (Sound.round (0.456 * 100)).
Proof.
  apply (proj1 (proj2 (envelope_holds_percentages Sound.default_config))).
  split; [discriminate | discriminate].
Defined.
